(** * fixturegraph: the relationship-inference and edge-combination engine

    A shallow embedding of [src/fixturegraph/_/diagram.py].

    Conventions of the embedding.
    - A Python [str] is a Rocq [string]; the character classes used by
      [slugify] ([str.lower], the regular expressions [\W] and [\s+],
      [str.strip]) are those of the ASCII range.
    - A Python [list] is a [list]; a [dict] is an association list in insertion
      order (the iteration order of a Python dict); a [set] is a duplicate-free
      list, iterated in the order of the list (Python leaves the iteration
      order of a set unspecified).
    - Exceptions are values of [exn]; a function that can raise returns
      [result].
    - A file open for writing is the text written to it; what [show_diagram]
      prints, writes and runs is the list of its effects. *)

From Stdlib Require Import Ascii DecimalString.
From stdpp Require Import base decidable list strings sorting.

(** ** Characters and strings *)

Module Str.

Definition code (c : ascii) : N := N_of_ascii c.

Definition in_range (lo hi c : ascii) : bool :=
  (code lo <=? code c)%N && (code c <=? code hi)%N.

Definition is_upper (c : ascii) : bool := in_range "A"%char "Z"%char c.
Definition is_lower (c : ascii) : bool := in_range "a"%char "z"%char c.
Definition is_digit (c : ascii) : bool := in_range "0"%char "9"%char c.

(** [\w] of the [re] module: letters, digits and the underscore. *)
Definition is_word (c : ascii) : bool :=
  is_upper c || is_lower c || is_digit c || Ascii.eqb c "_"%char.

(** [\s] of the [re] module, which is also what [str.strip] removes:
    tab, line feed, vertical tab, form feed, carriage return, the four
    separators 0x1c..0x1f and the space. *)
Definition is_space (c : ascii) : bool :=
  ((9 <=? code c)%N && (code c <=? 13)%N)
  || ((28 <=? code c)%N && (code c <=? 32)%N).

Definition lower_char (c : ascii) : ascii :=
  if is_upper c then ascii_of_N (code c + 32) else c.

(** [s.lower()] *)
Definition lower (s : list ascii) : list ascii := lower_char <$> s.

(** [s.replace(old, new)] for one-character [old] and [new]. *)
Definition replace (old new : ascii) (s : list ascii) : list ascii :=
  (λ c, if Ascii.eqb c old then new else c) <$> s.

(** [re.sub] of every [\W] by the empty string. *)
Definition sub_nonword (s : list ascii) : list ascii :=
  List.filter is_word s.

(** [re.sub(r"\s+", " ", s)]: every maximal run of whitespace becomes one
    space.  [in_run] tells that the previous character was whitespace. *)
Fixpoint sub_spaces_from (in_run : bool) (s : list ascii) : list ascii :=
  match s with
  | [] => []
  | c :: r =>
      if is_space c
      then (if in_run then sub_spaces_from true r
            else " "%char :: sub_spaces_from true r)
      else c :: sub_spaces_from false r
  end.

Definition sub_spaces (s : list ascii) : list ascii := sub_spaces_from false s.

(** [s.lstrip(chars)] and [s.rstrip(chars)], the set of characters given
    by a predicate. *)
Fixpoint lstrip (p : ascii → bool) (s : list ascii) : list ascii :=
  match s with
  | [] => []
  | c :: r => if p c then lstrip p r else s
  end.

Fixpoint rstrip (p : ascii → bool) (s : list ascii) : list ascii :=
  match s with
  | [] => []
  | c :: r =>
      match rstrip p r with
      | [] => if p c then [] else [c]
      | r' => c :: r'
      end
  end.

(** [s.strip()] *)
Definition strip (s : list ascii) : list ascii :=
  rstrip is_space (lstrip is_space s).

Definition of_list : list ascii → string := String.string_of_list_ascii.
Definition to_list : string → list ascii := String.list_ascii_of_string.

(** [str(n)] for a non-negative index [n]. *)
Definition of_nat (n : nat) : string :=
  NilEmpty.string_of_uint (Nat.to_uint n).

(** [sep.join(parts)] *)
Fixpoint join (sep : string) (parts : list string) : string :=
  match parts with
  | [] => EmptyString
  | [p] => p
  | p :: ps => p +:+ sep +:+ join sep ps
  end.

(** The order of [str]: lexicographic on code points. *)
Definition le (a b : string) : Prop := String.leb a b = true.

#[global] Instance le_dec a b : Decision (le a b).
Proof. unfold le. apply _. Defined.

End Str.

(** ** [slugify] *)

Definition slugify_chars (s : list ascii) : list ascii :=
  let s := Str.lower s in
  let s := foldl (λ s c, Str.replace c "_" s) s [" "; "-"; "."; "/"]%char in
  let s := Str.sub_nonword s in
  let s := Str.replace "_" " " s in
  let s := Str.sub_spaces s in
  let s := Str.strip s in
  Str.replace " " "_" s.

Definition slugify (s : string) : string :=
  Str.of_list (slugify_chars (Str.to_list s)).

(** ** Exceptions *)

(** The exceptions the engine can raise.  [KeyError] on a lookup in
    [id_attrs] is what the specification calls a ConfigurationError,
    [AssertionError] its AssertionViolation. *)
Inductive exn := KeyError | AttributeError | TypeError | ValueError | AssertionError.

Inductive result (A : Type) : Type :=
  | Ok (a : A)
  | Raise (e : exn).
Arguments Ok {A} a.
Arguments Raise {A} e.

Definition bind {A B} (m : result A) (k : A → result B) : result B :=
  match m with
  | Ok a => k a
  | Raise e => Raise e
  end.

Notation "x <- m ;; k" := (bind m (λ x, k))
  (at level 100, m at next level, right associativity).

Definition raises {A} (m : result A) : Prop := ∃ e, m = Raise e.

(** A [for] loop whose body can raise, threading the loop state. *)
Fixpoint for_ {A S} (l : list A) (body : S → A → result S) (s : S) : result S :=
  match l with
  | [] => Ok s
  | x :: l => s' <- body s x;; for_ l body s'
  end.

Definition of_option {A} (e : exn) (o : option A) : result A :=
  match o with
  | Some a => Ok a
  | None => Raise e
  end.

(** ** Dictionaries and sets *)

Abbreviation dict K V := (list (K * V)).

Section containers.
Context {K V : Type} `{EqDecision K}.

(** [d.get(k)] *)
Fixpoint dict_get (d : dict K V) (k : K) : option V :=
  match d with
  | [] => None
  | (k', v) :: d => if decide (k' = k) then Some v else dict_get d k
  end.

(** [d[k] = v]: an existing key keeps its position. *)
Fixpoint dict_set (d : dict K V) (k : K) (v : V) : dict K V :=
  match d with
  | [] => [(k, v)]
  | (k', v') :: d =>
      if decide (k' = k) then (k, v) :: d else (k', v') :: dict_set d k v
  end.

(** [s.add(x)] *)
Definition set_add (x : K) (s : list K) : list K :=
  if decide (x ∈ s) then s else s ++ [x].

(** [s.discard(x)] *)
Definition set_discard (x : K) (s : list K) : list K :=
  List.filter (λ y, bool_decide (y ≠ x)) s.

(** [set(iterable)] *)
Definition set_of (l : list K) : list K := remove_dups l.
End containers.

(** [d.setdefault(k, set()).add(x)], also [d[k].add(x)] on a
    [defaultdict(set)]. *)
Definition setdefault_add {K A} `{EqDecision K, EqDecision A}
    (d : dict K (list A)) (k : K) (x : A) : dict K (list A) :=
  dict_set d k (set_add x (default [] (dict_get d k))).

(** [sorted(iterable)] *)
Definition sorted {A} (R : relation A) `{∀ x y, Decision (R x y)}
    (l : list A) : list A := merge_sort R l.

(** ** Python values *)

(** A user-defined class: its [__name__], and whether it is a
    [typing.NamedTuple] (what [isnamedtupleinstance] finds out from
    [__bases__] and [_fields]). *)
Record class := Class { cls_name : string; cls_namedtuple : bool }.

Inductive pytype :=
  | TNone | TInt | TStr | TList | TTuple | TMethod
  | TClass (c : class).

(** The objects the engine meets.  An instance of a user-defined class
    carries its attributes by name; a bound method without arguments is given
    by the value it returns. *)
#[warnings="-register-all"]
Inductive pyval :=
  | PNone
  | PInt (n : Z)
  | PStr (s : string)
  | PList (items : list pyval)
  | PTuple (items : list pyval)
  | PMethod (returns : pyval)
  | PObject (cls : class) (attributes : dict string pyval).

#[global] Instance class_eq_dec : EqDecision class.
Proof. solve_decision. Defined.
#[global] Instance pytype_eq_dec : EqDecision pytype.
Proof. solve_decision. Defined.
#[global] Instance exn_eq_dec : EqDecision exn.
Proof. solve_decision. Defined.

(** [type(x)] *)
Definition type_ (x : pyval) : pytype :=
  match x with
  | PNone => TNone
  | PInt _ => TInt
  | PStr _ => TStr
  | PList _ => TList
  | PTuple _ => TTuple
  | PMethod _ => TMethod
  | PObject c _ => TClass c
  end.

(** A dictionary keyed by type, as the three of [Configuration] are: the
    keys are user-defined classes. *)
Definition get_by_type {V} (d : dict class V) (t : pytype) : option V :=
  match t with
  | TClass c => dict_get d c
  | _ => None
  end.

(** [getattr(x, name)]; the attributes of built-in values are not modelled,
    no configuration can name one. *)
Definition getattr (x : pyval) (name : string) : result pyval :=
  match x with
  | PObject _ attributes => of_option AttributeError (dict_get attributes name)
  | _ => Raise AttributeError
  end.

Definition isroutine (x : pyval) : bool :=
  match x with PMethod _ => true | _ => false end.

(** [inspect.getmembers(x, lambda a: not inspect.isroutine(a))]: the members
    that are not routines, sorted by name. *)
Definition getmembers (x : pyval) : list (string * pyval) :=
  match x with
  | PObject _ attributes =>
      sorted (λ a b, Str.le a.1 b.1)
        (List.filter (λ a, negb (isroutine a.2)) attributes)
  | _ => []
  end.

Definition is_sequence_of_strings (value : pyval) : bool :=
  match value with
  | PList items | PTuple items =>
      forallb (λ x, match x with PStr _ => true | _ => false end) items
  | _ => false
  end.

Definition isnamedtupleinstance (x : pyval) : bool :=
  match x with
  | PObject c _ => cls_namedtuple c
  | _ => false
  end.

(** [k.lstrip("_")] *)
Definition lstrip_underscores (k : string) : string :=
  Str.of_list (Str.lstrip (λ c, Ascii.eqb c "_") (Str.to_list k)).

(** ** Attribute extraction *)

(** [seen] is a dictionary whose values are all [True]: it is given by its
    keys.  [synonyms[0]] is read when [k] is in [synonyms], which is then
    not empty. *)
Definition filter_out_synonymous_attributes
    (synonymous_attrs : dict class (list string)) (entity : pyval)
    (attrs : list (string * string)) : list (string * string) :=
  let '(seen, filtered) :=
    foldl (λ '(seen, filtered) '(k, v),
      let synonyms := default [] (get_by_type synonymous_attrs (type_ entity)) in
      if decide (k ∈ synonyms) then
        match synonyms with
        | representative :: _ =>
            if decide (representative ∈ seen) then (seen, filtered)
            else (set_add representative seen, filtered ++ [(k, v)])
        | [] => (seen, filtered)
        end
      else (seen, filtered ++ [(k, v)]))
    (([] : list string), []) attrs in
  filtered.

Definition get_attrs (synonymous_attrs : dict class (list string))
    (entity : pyval) : list (string * string) :=
  let is_namedtuple := isnamedtupleinstance entity in
  let attrs :=
    foldl (λ (attrs : dict string string) '(k, v),
      if String.prefix "__" k then attrs
      else if is_namedtuple && bool_decide (k = "_fields") then attrs
      else
        let attrs :=
          match v with
          | PStr s => dict_set attrs (lstrip_underscores k) s
          | _ => attrs
          end in
        if is_sequence_of_strings v then
          let base := lstrip_underscores k in
          match v with
          | PList items | PTuple items =>
              foldl (λ attrs '(i, item),
                match item with
                | PStr s => dict_set attrs (base +:+ "_" +:+ Str.of_nat i) s
                | _ => attrs
                end) attrs (imap (λ i item, (i, item)) items)
          | _ => attrs
          end
        else attrs)
    [] (getmembers entity) in
  filter_out_synonymous_attributes synonymous_attrs entity attrs.

(** [get_children] is a generator: it is modelled by the sequence of what it
    yields, a failing [getattr] ending the sequence with the exception. *)
Fixpoint children_of (entity : pyval) (attr_names : list string)
    : list (result (string * pyval)) :=
  match attr_names with
  | [] => []
  | name :: attr_names =>
      match getattr entity name with
      | Raise e => [Raise e]
      | Ok (PList value) =>
          imap (λ i v, Ok (name +:+ "_" +:+ Str.of_nat i, v)) value
            ++ children_of entity attr_names
      | Ok value => Ok (name, value) :: children_of entity attr_names
      end
  end.

Definition get_children (attrs : dict class (list string)) (entity : pyval)
    : list (result (string * pyval)) :=
  let attr_names := default [] (get_by_type attrs (type_ entity)) in
  children_of entity attr_names.

(** ** Identity resolver *)

Definition type_name (t : pytype) : string :=
  match t with
  | TNone => "NoneType" | TInt => "int" | TStr => "str" | TList => "list"
  | TTuple => "tuple" | TMethod => "method"
  | TClass c => cls_name c
  end.

Definition as_str (x : pyval) : result string :=
  match x with
  | PStr s => Ok s
  | _ => Raise TypeError
  end.

Definition entity_name (id_attrs : dict class string) (entity : pyval)
    : result string :=
  let type_ := type_ entity in
  id_attr <- of_option KeyError (get_by_type id_attrs type_);;
  attr <- getattr entity id_attr;;
  let value := match attr with PMethod returns => returns | _ => attr end in
  value <- match value with
           | PTuple items =>
               parts <- for_ items (λ parts x, s <- as_str x;; Ok (parts ++ [s])) [];;
               Ok (PStr (Str.join "_" parts))
           | _ => Ok value
           end;;
  value <- as_str value;;
  Ok (type_name type_ +:+ "_" +:+ value).

(** ** Nodes, arrows and the configuration *)

Record Node := mkNode { node_name : string }.

Record Arrow := mkArrow {
  src_name : string;
  dst_name : string;
  key : string;
  value : option string;
  guessed : bool;
  src_type : pytype;
  dst_type : pytype;
}.

#[global] Instance Arrow_eq_dec : EqDecision Arrow.
Proof. solve_decision. Defined.

(** The constructor of [Arrow], with the assertion of [__post_init__]. *)
Definition Arrow_new (src_type : pytype) (src_name : string)
    (dst_type : pytype) (dst_name key : string) (value : option string)
    (guessed : bool) : result Arrow :=
  if bool_decide (guessed = bool_decide (value ≠ None))
  then Ok (mkArrow src_name dst_name key value guessed src_type dst_type)
  else Raise AssertionError.

Record DotArrow := mkDotArrow {
  src : string;
  dst : string;
  label : option string;
  bidirectional : bool;
}.

#[global] Instance DotArrow_eq_dec : EqDecision DotArrow.
Proof. solve_decision. Defined.

(** [DotArrow.make] *)
Definition DotArrow_make (src dst : string) (label : option string)
    (bidirectional : bool) : DotArrow :=
  if bidirectional then
    match sorted Str.le [src; dst] with
    | [src; dst] => mkDotArrow src dst label bidirectional
    | _ => mkDotArrow src dst label bidirectional
    end
  else mkDotArrow src dst label bidirectional.

Arguments DotArrow_make : simpl never.

Record Configuration := mkConfiguration {
  id_attrs : dict class string;
  attrs_with_child_refs : dict class (list string);
  synonymous_attrs : dict class (list string);
}.

(** ** Relationship inference *)

Definition make_guessed_arrows_from_attr_string_values
    (config : Configuration) (entities : list pyval) : result (list Arrow) :=
  indexes <-
    for_ entities (λ '(attrs_by_entity_name, types_by_entity_name, by_value) entity,
      name <- entity_name config.(id_attrs) entity;;
      let attrs := get_attrs config.(synonymous_attrs) entity in
      Ok (dict_set attrs_by_entity_name name attrs,
          dict_set types_by_entity_name name (type_ entity),
          foldl (λ by_value '(k, v), setdefault_add by_value v name)
            by_value attrs))
      (([] : dict string (list (string * string))),
       ([] : dict string pytype),
       ([] : dict string (list string)));;
  let '(attrs_by_entity_name, types_by_entity_name, by_value) := indexes in
  attrs_ <-
    for_ attrs_by_entity_name (λ attrs_ '(src_name, src_attrs),
      src_type <- of_option KeyError (dict_get types_by_entity_name src_name);;
      for_ src_attrs (λ attrs_ '(k, v),
        let dst_names := set_of (default [] (dict_get by_value v)) in
        let dst_names := set_discard src_name dst_names in
        for_ dst_names (λ attrs_ dst_name,
          dst_type <- of_option KeyError (dict_get types_by_entity_name dst_name);;
          Ok (setdefault_add attrs_ (src_type, src_name, dst_type, dst_name) (k, v)))
          attrs_)
        attrs_)
      ([] : dict (pytype * string * pytype * string) (list (string * string)));;
  for_ attrs_ (λ arrows '((src_type, src_name, dst_type, dst_name), attrs),
    for_ attrs (λ arrows '(k, v),
      arrow <- Arrow_new src_type (slugify src_name) dst_type (slugify dst_name)
                 k (Some v) true;;
      Ok (arrows ++ [arrow]))
      arrows)
    [].

Definition make_arrows_from_python_refs
    (config : Configuration) (entities : list pyval) : result (list Arrow) :=
  for_ entities (λ arrows entity,
    for_ (get_children config.(attrs_with_child_refs) entity) (λ arrows yielded,
      item <- yielded;;
      let '(attr_name, child) := item in
      parent_name <- entity_name config.(id_attrs) entity;;
      child_name <- entity_name config.(id_attrs) child;;
      arrow <- Arrow_new (type_ entity) (slugify parent_name)
                 (type_ child) (slugify child_name) attr_name None false;;
      Ok (arrows ++ [arrow]))
      arrows)
    [].

Definition make_arrows (config : Configuration) (entities : list pyval)
    : result (list Arrow) :=
  guessed_arrows <- make_guessed_arrows_from_attr_string_values config entities;;
  ref_arrows <- make_arrows_from_python_refs config entities;;
  Ok (guessed_arrows ++ ref_arrows).

(** ** Edge combination *)

(** [frozenset(iterable)] of strings.  Frozensets are dictionary keys, equal
    when they have the same elements: they are kept duplicate-free and in
    ascending order. *)
Definition frozenset (l : list string) : list string :=
  sorted Str.le (remove_dups l).

Record Index := mkIndex {
  by_src_dst_name_pairs : dict (string * string) (list Arrow);
  by_undirected_src_dst_name_pairs : dict (list string) (list Arrow);
}.

Definition grouped_by_undirected_edge_and_value (self : Index)
    (arrows : list Arrow)
    : list (list string * list Arrow) * list Arrow :=
  let ungrouped := set_of arrows in
  foldl (λ '(groups, ungrouped) '(names, group),
    let matching := list_intersection group ungrouped in
    let ungrouped := list_difference ungrouped matching in
    if bool_decide (length matching ≠ 0)
    then (groups ++ [(names, matching)], ungrouped)
    else (groups, ungrouped))
    ([], ungrouped) self.(by_undirected_src_dst_name_pairs).

Definition grouped_by_directed_edge (self : Index) (arrows : list Arrow)
    : list (string * string * list Arrow) :=
  foldl (λ yielded '(names, group),
    let matching := list_intersection group arrows in
    if bool_decide (length matching ≠ 0)
    then yielded ++ [(names, matching)]
    else yielded)
    [] self.(by_src_dst_name_pairs).

Definition make_index (arrows : list Arrow) : Index :=
  let '(by_src_dst_name_pairs, by_undirected_src_dst_name_pairs) :=
    foldl (λ '(by_src_dst_name_pairs, by_undirected_src_dst_name_pairs) a,
      (setdefault_add by_src_dst_name_pairs (a.(src_name), a.(dst_name)) a,
       setdefault_add by_undirected_src_dst_name_pairs
         (frozenset [a.(src_name); a.(dst_name)]) a))
      ([], []) arrows in
  mkIndex by_src_dst_name_pairs by_undirected_src_dst_name_pairs.

Definition make_label (arrows : list Arrow) : string :=
  let keys := set_of (key <$> arrows) in
  Str.join "<br/>" (slugify <$> sorted Str.le keys).

Definition combine_arrows (rules : pyval) (arrows_ : list Arrow)
    : result (list DotArrow) :=
  let index := make_index arrows_ in
  let arrows := set_of arrows_ in
  let guessed := List.filter guessed arrows in
  let not_guessed := list_difference arrows guessed in
  let '(groups, arrows) := grouped_by_undirected_edge_and_value index guessed in
  r <- for_ groups (λ r '(names, group),
         match names with
         | [name1; name2] =>
             let label := make_label group in
             Ok (r ++ [DotArrow_make name1 name2 (Some label) true])
         | _ => Raise ValueError
         end)
         [];;
  let arrows := list_union arrows not_guessed in
  Ok (foldl (λ r '((src_name, dst_name), group),
        let label := make_label group in
        r ++ [DotArrow_make src_name dst_name (Some label) false])
        r (grouped_by_directed_edge index arrows)).

(** ** Rendering *)

(** The order of tuples, here of [DotArrow]: lexicographic on the fields.
    Python refuses to order [None] and a string; [None] is put first, no
    label made by [combine_arrows] is [None]. *)
Definition lex (c1 c2 : comparison) : comparison :=
  match c1 with Eq => c2 | _ => c1 end.

Definition option_compare (a b : option string) : comparison :=
  match a, b with
  | None, None => Eq
  | None, Some _ => Lt
  | Some _, None => Gt
  | Some a, Some b => String.compare a b
  end.

Definition DotArrow_compare (a b : DotArrow) : comparison :=
  lex (String.compare a.(src) b.(src))
    (lex (String.compare a.(dst) b.(dst))
      (lex (option_compare a.(label) b.(label))
        (Bool.compare a.(bidirectional) b.(bidirectional)))).

Definition DotArrow_le (a b : DotArrow) : Prop := DotArrow_compare a b ≠ Gt.

#[global] Instance DotArrow_le_dec a b : Decision (DotArrow_le a b).
Proof. unfold DotArrow_le. apply _. Defined.

(** The double quote, as a one-character string. *)
Definition dquote : string := String (ascii_of_nat 34) EmptyString.

Definition arrow_line (arrow : DotArrow) : string :=
  match arrow.(label) with
  | None =>
      if arrow.(bidirectional)
      then arrow.(src) +:+ "->" +:+ arrow.(dst)
             +:+ " [ dir=" +:+ dquote +:+ "both" +:+ dquote +:+ "]"
      else arrow.(src) +:+ "->" +:+ arrow.(dst)
  | Some label =>
      if arrow.(bidirectional)
      then arrow.(src) +:+ "->" +:+ arrow.(dst)
             +:+ " [ label= <" +:+ label +:+ "> dir=" +:+ dquote +:+ "both"
             +:+ dquote +:+ " ]"
      else arrow.(src) +:+ "->" +:+ arrow.(dst)
             +:+ " [ label= <" +:+ label +:+ "> ]"
  end.

Definition render_to_dot (nodes : list Node) (arrows : list DotArrow)
    : list string :=
  let node_names := foldl (λ node_names node, set_add node.(node_name) node_names)
                      [] nodes in
  let dot := foldl (λ dot name, dot ++ [name]) [] (sorted Str.le node_names) in
  foldl (λ dot arrow, dot ++ [arrow_line arrow]) dot (sorted DotArrow_le arrows).

Definition make_rules (config : Configuration) : pyval := PNone.

Definition make_nodes (config : Configuration) (entities : list pyval)
    : result (list Node) :=
  for_ entities (λ nodes entity,
    name <- entity_name config.(id_attrs) entity;;
    Ok (nodes ++ [mkNode (slugify name)]))
    [].

Definition diagram (config : Configuration) (entities : list pyval)
    : result (list string) :=
  arrows <- make_arrows config entities;;
  let rules := make_rules config in
  dot_arrows <- combine_arrows rules arrows;;
  nodes <- make_nodes config entities;;
  Ok (render_to_dot nodes dot_arrows).

(** ** Output *)

Definition newline : string := String (ascii_of_nat 10) EmptyString.

(** A file open for writing is the text written to it so far;
    [fh.write(text)] adds to it. *)
Definition write (fh text : string) : string := fh +:+ text.

Definition write_dot (fh : string) (lines : list string) : string :=
  let fh := write fh ("digraph graphname{" +:+ newline) in
  let fh := foldl (λ fh line, write fh (line +:+ newline)) fh lines in
  write fh ("}" +:+ newline).

(** [show_diagram] acts on the world around it: it prints, writes a file
    and runs a command.  It is modelled by the sequence of what it does;
    the name of the temporary file and the outcome of the command are
    those that [mktemp] and [run] give.  [print] of the captured output of
    the command, which is [bytes], is told from [print] of a string. *)
Record CompletedProcess := mkCompletedProcess {
  returncode : Z;
  stdout : string;
  stderr : string;
}.

Inductive effect :=
  | Print (text : string)
  | PrintBytes (data : string)
  | WriteFile (path content : string)
  | Run (argv : list string).

Definition show_diagram (mktemp : string → string)
    (run : list string → CompletedProcess)
    (config : Configuration) (entities : list pyval) : result (list effect) :=
  dot <- diagram config entities;;
  if bool_decide (length dot = 0) then
    Ok [Print "Found no relations, not showing dot graph"]
  else
    let path := mktemp ".dot" in
    let written := WriteFile path (write_dot EmptyString dot) in
    let argv := ["bash"; "-c"; "dot -Tsvg " +:+ path +:+ " | display"] in
    let child := run argv in
    if bool_decide (child.(returncode) ≠ 0%Z) then
      Ok [written; Run argv;
          Print "Failed to run dot with this input file content:";
          Print (Str.join newline dot);
          Print "dot stdout:";
          PrintBytes child.(stdout);
          Print "dot stderr:";
          PrintBytes child.(stderr)]
    else Ok [written; Run argv].

(** * Auxiliary definitions

    Notions used to state and prove the properties below; none of them is
    part of the program. *)

(** What one character becomes in the first four steps of [slugify],
    when [\W] does not delete it. *)
Definition to_sep (c : ascii) : ascii :=
  foldl (λ c sep, if Ascii.eqb c sep then "_"%char else c) (Str.lower_char c)
    [" "; "-"; "."; "/"]%char.
Definition us2sp (c : ascii) : ascii := if Ascii.eqb c "_" then " "%char else c.
Definition sp2us (c : ascii) : ascii := if Ascii.eqb c " " then "_"%char else c.

(** The characters of a string that went through the first four steps. *)
Definition slug_char (c : ascii) : bool :=
  Ascii.eqb c " "
  || (Str.is_word c && Ascii.eqb (Str.lower_char c) c && negb (Ascii.eqb c "_")).

(** Every run of whitespace is a single space. *)
Fixpoint single_spaced (in_run : bool) (s : list ascii) : bool :=
  match s with
  | [] => true
  | c :: r =>
      if Str.is_space c
      then Ascii.eqb c " " && negb in_run && single_spaced true r
      else single_spaced false r
  end.

Definition starts_clean (s : list ascii) : bool :=
  match s with
  | [] => true
  | c :: _ => negb (Str.is_space c)
  end.

(** A three-way comparison that decides a total order. *)
Record cmp_ok {A} (cmp : A → A → comparison) : Prop := {
  cmp_eq x y : cmp x y = Eq ↔ x = y;
  cmp_opp x y : cmp y x = CompOpp (cmp x y);
  cmp_lt_trans x y z : cmp x y = Lt → cmp y z = Lt → cmp x z = Lt;
}.

(** The order that a three-way comparison decides. *)
Definition cmp_le {A} (cmp : A → A → comparison) (x y : A) : Prop :=
  cmp x y ≠ Gt.

(** The fields of a [DotArrow], as the tuple Python compares. *)
Definition DotArrow_tuple (a : DotArrow)
    : string * (string * (option string * bool)) :=
  (a.(src), (a.(dst), (a.(label), a.(bidirectional)))).

Definition lex_compare {A B} (c1 : A → A → comparison)
    (c2 : B → B → comparison) (x y : A * B) : comparison :=
  lex (c1 x.1 y.1) (c2 x.2 y.2).

(** The fixtures of the scenarios, as in the test suite.  An instance lists
    its data attributes, among them the [__doc__] and [__module__] it gets
    from its class. *)
Module Fixtures.
Definition Widget := Class "Widget" false.
Definition Lozenge := Class "Lozenge" false.
Definition Parent := Class "Parent" false.
Definition Child := Class "Child" false.

Definition widget (ref lozenge part : string) : pyval :=
  PObject Widget
    [("__doc__", PStr "Widget(ref: str, lozenge: str, part: str)");
     ("__module__", PStr "test");
     ("ref", PStr ref); ("lozenge", PStr lozenge); ("part", PStr part)].

Definition lozenge (ref widget : string) : pyval :=
  PObject Lozenge
    [("__doc__", PStr "Lozenge(ref: str, widget: str)");
     ("__module__", PStr "test");
     ("ref", PStr ref); ("widget", PStr widget)].

Definition child (id : string) : pyval :=
  PObject Child
    [("__doc__", PNone); ("__module__", PStr "test");
     ("id", PStr id); ("matching", PNone)].

Definition parent (reference : string) (children : list pyval) : pyval :=
  PObject Parent
    [("__doc__", PNone); ("__module__", PStr "test");
     ("reference", PStr reference); ("children", PList children);
     ("pyref", PNone); ("matching", PNone); ("matching2", PNone)].

Definition widgets_config : Configuration :=
  mkConfiguration [(Widget, "ref"); (Lozenge, "ref")] [] [].

Definition family_config : Configuration :=
  mkConfiguration [(Parent, "reference"); (Child, "id")]
    [(Parent, ["children"])] [].

Definition guessed_arrow (src_type : class) (src_name : string)
    (dst_type : class) (dst_name key value : string) : Arrow :=
  mkArrow src_name dst_name key (Some value) true
    (TClass src_type) (TClass dst_type).

(** The five arrows of the first scenario. *)
Definition widget_lozenge_arrows : list Arrow :=
  [guessed_arrow Widget "widget_1" Lozenge "lozenge_1" "lozenge" "1";
   guessed_arrow Widget "widget_1" Lozenge "lozenge_1" "part" "1";
   guessed_arrow Widget "widget_1" Lozenge "lozenge_1" "ref" "1";
   guessed_arrow Lozenge "lozenge_1" Widget "widget_1" "ref" "1";
   guessed_arrow Lozenge "lozenge_1" Widget "widget_1" "widget" "1"].

Definition widget_lozenge_edge : DotArrow :=
  mkDotArrow "lozenge_1" "widget_1"
    (Some "lozenge<br/>part<br/>ref<br/>widget") true.
End Fixtures.


(** What [filter_out_synonymous_attributes] keeps of a listing, [found]
    telling whether a synonym was met before. *)
Fixpoint keep_first_synonym (synonyms : list string) (found : bool)
    (attrs : list (string * string)) : list (string * string) :=
  match attrs with
  | [] => []
  | (k, v) :: attrs =>
      if decide (k ∈ synonyms)
      then (if found then keep_first_synonym synonyms true attrs
            else (k, v) :: keep_first_synonym synonyms true attrs)
      else (k, v) :: keep_first_synonym synonyms found attrs
  end.

(** The pairs of a listing whose key is one of the synonyms. *)
Definition with_synonym_key (synonyms : list string)
    (attrs : list (string * string)) : list (string * string) :=
  List.filter (λ kv, bool_decide (kv.1 ∈ synonyms)) attrs.

Definition without_synonym_key (synonyms : list string)
    (attrs : list (string * string)) : list (string * string) :=
  List.filter (λ kv, negb (bool_decide (kv.1 ∈ synonyms))) attrs.

(** A product with two names for its stock-keeping unit. *)
Module SynonymFixtures.
Definition Product := Class "Product" false.
Definition product : pyval :=
  PObject Product [("sku", PStr "S1"); ("product_sku", PStr "P1")].
Definition synonyms : dict class (list string) :=
  [(Product, ["sku"; "product_sku"])].
End SynonymFixtures.

(** A result satisfies [P] when it is a value and [E] when it is an
    exception. *)
Definition ensures {A} (P : A → Prop) (E : exn → Prop) (m : result A) : Prop :=
  match m with
  | Ok a => P a
  | Raise e => E e
  end.

(** The invariant that [Arrow.__post_init__] asserts. *)
Definition arrow_invariant (a : Arrow) : Prop :=
  a.(guessed) = bool_decide (a.(value) ≠ None).

(** The lines of a diagram: an edge line has an arrow head, a node line is
    a slug and has none. *)
Definition is_edge_line (line : string) : bool :=
  bool_decide (">"%char ∈ Str.to_list line).

Definition node_lines (dot : list string) : list string :=
  List.filter (λ line, negb (is_edge_line line)) dot.

(** The names of the entities of a list, in order. *)
Definition names_of (config : Configuration) (entities : list pyval)
    (names : list string) : Prop :=
  Forall2 (λ entity name, entity_name config.(id_attrs) entity = Ok name)
    entities names.

(** A dictionary of sets, as [setdefault(k, set()).add(x)] builds them:
    the members filed under a key, and what makes the dictionary well
    formed. *)
Definition members {K X} `{EqDecision K} (d : dict K (list X)) (k : K) : list X :=
  default [] (dict_get d k).

Definition grouping {K X} (d : dict K (list X)) : Prop :=
  NoDup d.*1 ∧ ∀ k g, (k, g) ∈ d → NoDup g ∧ g ≠ [].

(** [d'] is [d] with the members [C] added. *)
Definition extends {K X} `{EqDecision K} (C : K → X → Prop)
    (d d' : dict K (list X)) : Prop :=
  grouping d' ∧ ∀ k y, y ∈ members d' k ↔ y ∈ members d k ∨ C k y.

(** Entities with the same name have the same type and the same
    attributes: what [make_guessed_arrows_from_attr_string_values] files
    under a name does not depend on which of them came last. *)
Definition consistent_names (config : Configuration) (entities : list pyval)
    : Prop :=
  ∀ e1 e2 n,
    e1 ∈ entities → e2 ∈ entities →
    entity_name config.(id_attrs) e1 = Ok n →
    entity_name config.(id_attrs) e2 = Ok n →
    type_ e1 = type_ e2
    ∧ get_attrs config.(synonymous_attrs) e1
      = get_attrs config.(synonymous_attrs) e2.

(** The guessed arrows of a list of entities: from an entity to another
    one, of a different name, that has one of its attribute values. *)
Definition guessed_between (config : Configuration) (entities : list pyval)
    (a : Arrow) : Prop :=
  ∃ e_src e_dst src_name dst_name k v k',
    e_src ∈ entities ∧ e_dst ∈ entities
    ∧ entity_name config.(id_attrs) e_src = Ok src_name
    ∧ entity_name config.(id_attrs) e_dst = Ok dst_name
    ∧ src_name ≠ dst_name
    ∧ (k, v) ∈ get_attrs config.(synonymous_attrs) e_src
    ∧ (k', v) ∈ get_attrs config.(synonymous_attrs) e_dst
    ∧ a = mkArrow (slugify src_name) (slugify dst_name) k (Some v) true
            (type_ e_src) (type_ e_dst).

(** The three indexes of [make_guessed_arrows_from_attr_string_values]
    after the entities [seen]. *)
Definition indexed (config : Configuration) (seen : list pyval)
    (indexes : dict string (list (string * string)) * dict string pytype
               * dict string (list string)) : Prop :=
  let '(attrs_by_entity_name, types_by_entity_name, by_value) := indexes in
  let name_of e := entity_name config.(id_attrs) e in
  let attrs_of e := get_attrs config.(synonymous_attrs) e in
  NoDup attrs_by_entity_name.*1
  ∧ (∀ n attrs, (n, attrs) ∈ attrs_by_entity_name →
       ∃ e, e ∈ seen ∧ name_of e = Ok n ∧ attrs = attrs_of e)
  ∧ (∀ e n, e ∈ seen → name_of e = Ok n → n ∈ attrs_by_entity_name.*1)
  ∧ (∀ n t, dict_get types_by_entity_name n = Some t →
       ∃ e, e ∈ seen ∧ name_of e = Ok n ∧ t = type_ e)
  ∧ (∀ e n, e ∈ seen → name_of e = Ok n →
       is_Some (dict_get types_by_entity_name n))
  ∧ grouping by_value
  ∧ (∀ v n, n ∈ members by_value v ↔
       ∃ e, e ∈ seen ∧ name_of e = Ok n ∧ ∃ k, (k, v) ∈ attrs_of e).

(** The keys under which [make_index] files an arrow. *)
Definition directed_key (a : Arrow) : string * string :=
  (a.(src_name), a.(dst_name)).
Definition undirected_key (a : Arrow) : list string :=
  frozenset [a.(src_name); a.(dst_name)].

(** The groups of an index that meet the arrows [X], cut down to [X]. *)
Definition select {K} (d : dict K (list Arrow)) (X : list Arrow)
    : list (K * list Arrow) :=
  omap (λ '(k, g),
    let matching := list_intersection g X in
    if bool_decide (length matching ≠ 0) then Some (k, matching) else None) d.

(** The guessed arrows of [l] between the two nodes of [k], and the other
    arrows of [l] from the first node of [k] to the second. *)
Definition undirected_group (l : list Arrow) (k : list string) : list Arrow :=
  List.filter (λ b, b.(guessed) && bool_decide (undirected_key b = k)) l.
Definition directed_group (l : list Arrow) (k : string * string) : list Arrow :=
  List.filter (λ b, negb b.(guessed) && bool_decide (directed_key b = k)) l.

(** The edges that [combine_arrows] makes of the arrows [l]. *)
Definition edge_of (l : list Arrow) (d : DotArrow) : Prop :=
  (∃ a n1 n2,
     a ∈ l ∧ a.(guessed) = true ∧ undirected_key a = [n1; n2]
     ∧ d = DotArrow_make n1 n2
             (Some (make_label (undirected_group l (undirected_key a)))) true)
  ∨ (∃ a,
       a ∈ l ∧ a.(guessed) = false
       ∧ d = DotArrow_make a.(src_name) a.(dst_name)
               (Some (make_label (directed_group l (directed_key a)))) false).

(** The edge that [combine_arrows] makes of a group of each phase. *)
Definition undirected_edge (item : list string * list Arrow) : DotArrow :=
  DotArrow_make (nth 0 item.1 EmptyString) (nth 1 item.1 EmptyString)
    (Some (make_label item.2)) true.
Definition directed_edge (item : string * string * list Arrow) : DotArrow :=
  DotArrow_make item.1.1 item.1.2 (Some (make_label item.2)) false.

(** A loop body that appends to the list it is given, and does nothing
    else with it. *)
Definition appending {A B} (body : list B → A → result (list B)) : Prop :=
  ∀ acc x r,
    body acc x = Ok r ↔ ∃ ys, body [] x = Ok ys ∧ r = acc ++ ys.

(** Two widgets of the same name, and a lozenge that shares a value with
    the first of them only. *)
Module DuplicateFixtures.
Definition first_widget : pyval := Fixtures.widget "1" "m" "x".
Definition second_widget : pyval := Fixtures.widget "1" "m" "y".
Definition the_lozenge : pyval := Fixtures.lozenge "2" "x".
End DuplicateFixtures.

(** The attributes of an object, as [getattr] and [inspect.getmembers]
    see them. *)
Definition attributes_of (x : pyval) : dict string pyval :=
  match x with
  | PObject _ attributes => attributes
  | _ => []
  end.

(** The pair [(k, v)] is read from the attribute [name] of value [value]:
    a string, or the item of index [i] of a list or tuple. *)
Definition extracted_from (name : string) (value : pyval) (k v : string)
    : Prop :=
  (value = PStr v ∧ k = lstrip_underscores name)
  ∨ ∃ items i,
      (value = PList items ∨ value = PTuple items)
      ∧ items !! i = Some (PStr v)
      ∧ k = lstrip_underscores name +:+ "_" +:+ Str.of_nat i.

(** The arrow [a] is drawn as the edge [d]: they are of the same kind and
    join the same nodes, in the same direction unless [d] goes both ways. *)
Definition joins (d : DotArrow) (a : Arrow) : bool :=
  bool_decide (a.(guessed) = d.(bidirectional))
  && (bool_decide ((a.(src_name), a.(dst_name)) = (d.(src), d.(dst)))
      || d.(bidirectional)
         && bool_decide ((a.(src_name), a.(dst_name)) = (d.(dst), d.(src)))).

(** No guessed arrow of [l] goes from a node to itself. *)
Definition loop_free (l : list Arrow) : Prop :=
  ∀ a, a ∈ l → a.(guessed) = true → a.(src_name) ≠ a.(dst_name).

(** The exceptions of [entity_name]. *)
Definition naming_error (e : exn) : Prop :=
  e = KeyError ∨ e = AttributeError ∨ e = TypeError.

(** The characters of the lines of a diagram: those of a slug, and the
    punctuation of an edge. *)
Definition dot_char (c : ascii) : bool :=
  Str.is_lower c || Str.is_digit c
  || bool_decide (c ∈ Str.to_list "_-> [=</]" ++ [ascii_of_nat 34]).

Definition dot_text (s : string) : Prop :=
  Forall (λ c, dot_char c = true) (Str.to_list s).

(** The ends of an arrow are slugs. *)
Definition slug_ends (a : Arrow) : Prop :=
  ∃ s d, a.(src_name) = slugify s ∧ a.(dst_name) = slugify d.

(** The lines of a text, as reading it back line by line gives them,
    without the line feeds. *)
Fixpoint lines_of_chars (s : list ascii) : list (list ascii) :=
  match s with
  | [] => []
  | c :: r =>
      if Ascii.eqb c (ascii_of_nat 10) then [] :: lines_of_chars r
      else match lines_of_chars r with
           | [] => [[c]]
           | l :: ls => (c :: l) :: ls
           end
  end.

Definition lines_of (text : string) : list string :=
  Str.of_list <$> lines_of_chars (Str.to_list text).

Definition one_line (line : string) : Prop :=
  ascii_of_nat 10 ∉ Str.to_list line.

(** * Properties *)

(** ** [slugify] is idempotent *)

Section slugify_facts.
Import Str.

Ltac by_cases_on c :=
  destruct c as [[] [] [] [] [] [] [] []]; vm_compute; intuition congruence.

Lemma to_sep_slug_char c :
  is_word (to_sep c) = true → slug_char (us2sp (to_sep c)) = true.
Proof. by_cases_on c. Qed.

Lemma slug_char_back c :
  slug_char c = true →
  to_sep (sp2us c) = sp2us c ∧ is_word (sp2us c) = true
  ∧ us2sp (sp2us c) = c.
Proof. by_cases_on c. Qed.

Lemma slugify_chars_steps s :
  slugify_chars s =
    sp2us <$> strip (sub_spaces (us2sp <$> List.filter is_word (to_sep <$> s))).
Proof.
  unfold slugify_chars, lower, replace, sub_nonword; simpl.
  rewrite <- !list_fmap_compose. reflexivity.
Qed.

Lemma sub_spaces_from_fixed b s :
  single_spaced b s = true → sub_spaces_from b s = s.
Proof.
  revert b; induction s as [|c r IH]; intros b; simpl; [done|].
  destruct (is_space c) eqn:Hc.
  - rewrite !andb_true_iff, negb_true_iff.
    intros [[Heq ->] Hr]. apply Ascii.eqb_eq in Heq as ->.
    by rewrite IH.
  - intros Hr. by rewrite IH.
Qed.

Lemma sub_spaces_from_single_spaced b s :
  single_spaced b (sub_spaces_from b s) = true.
Proof.
  revert b; induction s as [|c r IH]; intros b; simpl; [done|].
  destruct (is_space c) eqn:Hc.
  - destruct b; simpl; [apply IH|]. by rewrite IH.
  - simpl. rewrite Hc. apply IH.
Qed.

Lemma lstrip_single_spaced b s :
  single_spaced b s = true → single_spaced false (lstrip is_space s) = true.
Proof.
  revert b; induction s as [|c r IH]; intros b; simpl; [done|].
  destruct (is_space c) eqn:Hc.
  - rewrite !andb_true_iff. intros [_ Hr]. by eapply IH.
  - simpl. by rewrite Hc.
Qed.

Lemma rstrip_single_spaced b s :
  single_spaced b s = true → single_spaced b (rstrip is_space s) = true.
Proof.
  revert b; induction s as [|c r IH]; intros b; simpl; [done|].
  destruct (is_space c) eqn:Hc.
  - rewrite !andb_true_iff. intros [[Heq Hb] Hr].
    specialize (IH _ Hr). destruct (rstrip is_space r) eqn:Hr'; [done|].
    simpl. rewrite Hc, Heq, Hb. done.
  - intros Hr. specialize (IH _ Hr).
    destruct (rstrip is_space r) eqn:Hr'; simpl; by rewrite Hc.
Qed.

Lemma lstrip_starts_clean s : starts_clean (lstrip is_space s) = true.
Proof.
  induction s as [|c r IH]; simpl; [done|].
  destruct (is_space c) eqn:Hc; [done|]. simpl. by rewrite Hc.
Qed.

Lemma rstrip_starts_clean s :
  starts_clean s = true → starts_clean (rstrip is_space s) = true.
Proof.
  destruct s as [|c r]; simpl; [done|]. intros Hc.
  destruct (rstrip is_space r); [|done].
  apply negb_true_iff in Hc. by rewrite Hc; simpl; rewrite Hc.
Qed.

Lemma lstrip_fixed s : starts_clean s = true → lstrip is_space s = s.
Proof.
  destruct s as [|c r]; simpl; [done|].
  by intros ->%negb_true_iff.
Qed.

Lemma rstrip_idemp p s : rstrip p (rstrip p s) = rstrip p s.
Proof.
  induction s as [|c r IH]; simpl; [done|].
  destruct (rstrip p r) as [|c' r'] eqn:Hr.
  - destruct (p c) eqn:Hc; simpl; [done|]. by rewrite Hc.
  - simpl in *. by rewrite IH.
Qed.

Lemma strip_fixed s : strip (strip s) = strip s.
Proof.
  unfold strip at 1.
  rewrite lstrip_fixed; [apply rstrip_idemp|].
  apply rstrip_starts_clean, lstrip_starts_clean.
Qed.

Lemma Forall_sub_spaces_from (P : ascii → Prop) b s :
  P " "%char → Forall P s → Forall P (sub_spaces_from b s).
Proof.
  intros Hsp Hs. revert b. induction Hs as [|c r Hc Hr IH]; intros b; simpl.
  - constructor.
  - destruct (is_space c), b; auto.
Qed.

Lemma Forall_lstrip (P : ascii → Prop) p s :
  Forall P s → Forall P (lstrip p s).
Proof.
  induction 1 as [|c r Hc Hr IH]; simpl; [constructor|].
  destruct (p c); auto.
Qed.

Lemma Forall_rstrip (P : ascii → Prop) p s :
  Forall P s → Forall P (rstrip p s).
Proof.
  induction 1 as [|c r Hc Hr IH]; simpl; [constructor|].
  destruct (rstrip p r); [destruct (p c)|]; auto.
Qed.

(** A slug is a fixed point of the character-level function. *)
Lemma slugify_chars_idemp s :
  slugify_chars (slugify_chars s) = slugify_chars s.
Proof.
  rewrite (slugify_chars_steps (slugify_chars s)), (slugify_chars_steps s).
  set (u := us2sp <$> List.filter is_word (to_sep <$> s)).
  set (v := strip (sub_spaces u)).
  assert (Forall (λ c, slug_char c = true) u) as Hu.
  { unfold u. apply Forall_fmap, Forall_forall. intros c Hc.
    apply list_elem_of_In, filter_In in Hc as [Hin Hw].
    apply list_elem_of_In, list_elem_of_fmap in Hin as [c0 [-> _]].
    by apply to_sep_slug_char. }
  assert (Forall (λ c, slug_char c = true) v) as Hv.
  { by apply Forall_rstrip, Forall_lstrip, Forall_sub_spaces_from. }
  assert (us2sp <$> List.filter is_word (to_sep <$> (sp2us <$> v)) = v) as ->.
  { clear -Hv. induction Hv as [|c r Hc Hr IH]; [done|].
    destruct (slug_char_back c Hc) as (H1 & H2 & H3).
    cbn [fmap list_fmap List.filter]. rewrite H1, H2.
    cbn [fmap list_fmap]. rewrite H3. f_equal. apply IH. }
  f_equal. unfold v. rewrite <- (strip_fixed (sub_spaces u)) at 2.
  f_equal. fold v. apply sub_spaces_from_fixed.
  unfold v, strip.
  apply rstrip_single_spaced, (lstrip_single_spaced false).
  apply sub_spaces_from_single_spaced.
Qed.
End slugify_facts.


(** ** The order of strings and of [DotArrow]s *)

Section orders.
Lemma ascii_compare_ok : cmp_ok Ascii.compare.
Proof.
  unfold Ascii.compare. split.
  - intros x y. rewrite N.compare_eq_iff. split; [|by intros ->].
    intros H. by rewrite <- (ascii_N_embedding x), H, ascii_N_embedding.
  - intros x y. apply N.compare_antisym.
  - intros x y z. rewrite !N.compare_lt_iff. lia.
Qed.

Lemma string_compare_ok : cmp_ok String.compare.
Proof.
  destruct ascii_compare_ok as [Heq Hopp Htr]. split.
  - intros x y. split; [apply String.compare_eq_iff|intros <-].
    induction x as [|c x IH]; simpl; [done|].
    by rewrite (proj2 (Heq c c) eq_refl).
  - intros x y. apply String.compare_antisym.
  - intros x. induction x as [|a x IH]; intros [|b y] [|c z]; simpl; try done.
    destruct (Ascii.compare a b) eqn:Hab; try done;
      destruct (Ascii.compare b c) eqn:Hbc; try done.
    + apply Heq in Hab as ->. apply Heq in Hbc as ->.
      rewrite (proj2 (Heq c c) eq_refl). apply IH.
    + apply Heq in Hab as ->. by rewrite Hbc.
    + apply Heq in Hbc as ->. by rewrite Hab.
    + by rewrite (Htr _ _ _ Hab Hbc).
Qed.

Lemma bool_compare_ok : cmp_ok Bool.compare.
Proof. split; [intros [] []|intros [] []|intros [] [] []]; simpl; naive_solver. Qed.

Lemma option_compare_ok : cmp_ok option_compare.
Proof.
  destruct string_compare_ok as [Heq Hopp Htr]. split.
  - intros [x|] [y|]; simpl; rewrite ?Heq; naive_solver.
  - intros [x|] [y|]; simpl; auto.
  - intros [x|] [y|] [z|]; simpl; try done. apply Htr.
Qed.

Lemma lex_compare_ok {A B} (c1 : A → A → comparison)
    (c2 : B → B → comparison) :
  cmp_ok c1 → cmp_ok c2 → cmp_ok (lex_compare c1 c2).
Proof.
  intros [Heq1 Hopp1 Htr1] [Heq2 Hopp2 Htr2]. unfold lex_compare, lex. split.
  - intros [x1 x2] [y1 y2]; simpl. destruct (c1 x1 y1) eqn:H1.
    + apply Heq1 in H1 as ->. rewrite Heq2. naive_solver.
    + split; [done|]. intros [= -> ->].
      by rewrite (proj2 (Heq1 y1 y1) eq_refl) in H1.
    + split; [done|]. intros [= -> ->].
      by rewrite (proj2 (Heq1 y1 y1) eq_refl) in H1.
  - intros [x1 x2] [y1 y2]; simpl. rewrite (Hopp1 x1 y1).
    destruct (c1 x1 y1); simpl; auto.
  - intros [x1 x2] [y1 y2] [z1 z2]; simpl.
    destruct (c1 x1 y1) eqn:H1; try done;
      destruct (c1 y1 z1) eqn:H2; try done.
    + apply Heq1 in H1 as ->. apply Heq1 in H2 as ->.
      rewrite (proj2 (Heq1 z1 z1) eq_refl). apply Htr2.
    + apply Heq1 in H1 as ->. by rewrite H2.
    + apply Heq1 in H2 as ->. by rewrite H1.
    + by rewrite (Htr1 _ _ _ H1 H2).
Qed.

Lemma DotArrow_compare_ok : cmp_ok DotArrow_compare.
Proof.
  pose proof (lex_compare_ok _ _ string_compare_ok
    (lex_compare_ok _ _ string_compare_ok
      (lex_compare_ok _ _ option_compare_ok bool_compare_ok)))
    as [Heq Hopp Htr].
  split.
  - intros x y. specialize (Heq (DotArrow_tuple x) (DotArrow_tuple y)).
    etrans; [apply Heq|]. destruct x, y; unfold DotArrow_tuple; simpl.
    naive_solver.
  - intros x y. apply (Hopp (DotArrow_tuple x) (DotArrow_tuple y)).
  - intros x y z.
    apply (Htr (DotArrow_tuple x) (DotArrow_tuple y) (DotArrow_tuple z)).
Qed.

Context {A} (cmp : A → A → comparison) (Hcmp : cmp_ok cmp).

Lemma cmp_le_total : Total (cmp_le cmp).
Proof.
  intros x y. unfold cmp_le. rewrite (cmp_opp _ Hcmp x y).
  destruct (cmp x y); simpl; auto.
Qed.

Lemma cmp_le_trans : Transitive (cmp_le cmp).
Proof.
  intros x y z. unfold cmp_le.
  destruct (cmp x y) eqn:H1; [| |done].
  - apply (cmp_eq _ Hcmp) in H1 as ->. done.
  - destruct (cmp y z) eqn:H2; [| |done].
    + apply (cmp_eq _ Hcmp) in H2 as ->. by rewrite H1.
    + by rewrite (cmp_lt_trans _ Hcmp _ _ _ H1 H2).
Qed.

Lemma cmp_le_antisym : AntiSymm (=) (cmp_le cmp).
Proof.
  intros x y. unfold cmp_le. rewrite (cmp_opp _ Hcmp x y).
  destruct (cmp x y) eqn:H1; simpl; try done.
  intros _ _. by apply (cmp_eq _ Hcmp).
Qed.
End orders.

Lemma Str_le_alt a b : Str.le a b ↔ String.compare a b ≠ Gt.
Proof. unfold Str.le, String.leb. destruct (String.compare a b); naive_solver. Qed.

#[global] Instance Str_le_total : Total Str.le.
Proof.
  intros x y. rewrite !Str_le_alt. apply (cmp_le_total _ string_compare_ok).
Qed.
#[global] Instance Str_le_trans : Transitive Str.le.
Proof.
  intros x y z. rewrite !Str_le_alt. apply (cmp_le_trans _ string_compare_ok).
Qed.
#[global] Instance Str_le_antisym : AntiSymm (=) Str.le.
Proof.
  intros x y. rewrite !Str_le_alt. apply (cmp_le_antisym _ string_compare_ok).
Qed.
#[global] Instance DotArrow_le_total : Total DotArrow_le.
Proof. apply (cmp_le_total _ DotArrow_compare_ok). Qed.
#[global] Instance DotArrow_le_trans : Transitive DotArrow_le.
Proof. apply (cmp_le_trans _ DotArrow_compare_ok). Qed.
#[global] Instance DotArrow_le_antisym : AntiSymm (=) DotArrow_le.
Proof. apply (cmp_le_antisym _ DotArrow_compare_ok). Qed.

(** [sorted] returns the ordered arrangement of its argument, whatever the
    order its elements came in. *)
Section sorted_facts.
Context {A} (R : relation A) `{∀ x y, Decision (R x y)}.
Context `{!Total R, !Transitive R, !AntiSymm (=) R}.

Lemma sorted_Permutation l : sorted R l ≡ₚ l.
Proof. apply merge_sort_Permutation. Qed.

Lemma sorted_perm_eq l1 l2 : l1 ≡ₚ l2 → sorted R l1 = sorted R l2.
Proof.
  intros Hp. apply (Sorted_unique R).
  - apply Sorted_merge_sort, _.
  - apply Sorted_merge_sort, _.
  - by rewrite !sorted_Permutation.
Qed.

Lemma elem_of_sorted x l : x ∈ sorted R l ↔ x ∈ l.
Proof. by rewrite sorted_Permutation. Qed.

Lemma sorted_pair x y :
  sorted R [x; y] = if decide (R x y) then [x; y] else [y; x].
Proof. unfold sorted, merge_sort; simpl. by destruct (decide (R x y)). Qed.
End sorted_facts.

(** ** Loops *)

Lemma bind_Ok {A B} (m : result A) (k : A → result B) b :
  (x <- m;; k x) = Ok b ↔ ∃ a, m = Ok a ∧ k a = Ok b.
Proof. destruct m; simpl; naive_solver. Qed.

Lemma bind_ext {A B} (m : result A) (k k' : A → result B) :
  (∀ a, k a = k' a) → (x <- m;; k x) = (x <- m;; k' x).
Proof. intros H. destruct m; simpl; auto. Qed.

(** An invariant of the loop state holds when the loop ends. *)
Lemma for__invariant {A S} (P : S → Prop) (l : list A)
    (body : S → A → result S) s r :
  P s →
  (∀ s x s', P s → x ∈ l → body s x = Ok s' → P s') →
  for_ l body s = Ok r → P r.
Proof.
  revert s; induction l as [|x l IH]; intros s Hs Hbody; simpl.
  - by intros [= <-].
  - intros (s' & Hs' & Hr)%bind_Ok. apply (IH s'); [|intros|done].
    + eapply Hbody; [done|left|done].
    + eapply Hbody; [done|by right|done].
Qed.

Lemma foldl_invariant {A S} (P : S → Prop) (l : list A) (body : S → A → S) s :
  P s → (∀ s x, P s → x ∈ l → P (body s x)) → P (foldl body s l).
Proof.
  revert s; induction l as [|x l IH]; intros s Hs Hbody; simpl; [done|].
  apply IH; [apply Hbody; [done|left]|].
  intros. apply Hbody; [done|by right].
Qed.

(** Appending in a loop builds the list of what is appended. *)
Lemma foldl_append {A B} (f : A → B) (l : list A) (acc : list B) :
  foldl (λ acc x, acc ++ [f x]) acc l = acc ++ (f <$> l).
Proof.
  revert acc; induction l as [|x l IH]; intros acc; simpl.
  - by rewrite app_nil_r.
  - by rewrite IH, <- app_assoc.
Qed.

(** ** Bidirectional edges are canonical *)

Lemma DotArrow_make_true s d l :
  DotArrow_make s d l true =
    if decide (Str.le s d) then mkDotArrow s d l true else mkDotArrow d s l true.
Proof.
  unfold DotArrow_make. rewrite sorted_pair. by destruct (decide (Str.le s d)).
Qed.

Lemma DotArrow_make_canonical s d l b :
  let a := DotArrow_make s d l b in
  a.(bidirectional) = b ∧ (b = true → Str.le a.(src) a.(dst)).
Proof.
  cbv zeta. destruct b; [|done]. rewrite DotArrow_make_true.
  destruct (decide (Str.le s d)) as [|Hn]; simpl; [done|].
  split; [done|]. intros _. by destruct (total Str.le s d).
Qed.

(** C8. A bidirectional [DotArrow] has [src <= dst], in whichever order its
    two ends are given to [DotArrow.make]; so have the bidirectional edges
    that [combine_arrows] returns. *)
Theorem bidirectional_canonical :
  (∀ s d l,
     let a := DotArrow_make s d l true in
     a.(bidirectional) = true ∧ Str.le a.(src) a.(dst)
     ∧ DotArrow_make d s l true = a)
  ∧ (∀ rules arrows r a,
       combine_arrows rules arrows = Ok r →
       a ∈ r → a.(bidirectional) = true → Str.le a.(src) a.(dst)).
Proof.
  split.
  - intros s d l; cbv zeta. rewrite !DotArrow_make_true.
    destruct (decide (Str.le s d)) as [H1|H1], (decide (Str.le d s)) as [H2|H2];
      simpl; try done.
    + by assert (s = d) as -> by apply (anti_symm Str.le _ _ H1 H2).
    + by destruct (total Str.le s d).
  - intros rules arrows r a Hr Ha Hb.
    cut (Forall (λ a, a.(bidirectional) = true → Str.le a.(src) a.(dst)) r).
    { rewrite Forall_forall. eauto. }
    clear a Ha Hb. unfold combine_arrows in Hr.
    destruct (grouped_by_undirected_edge_and_value _ _) as [groups rest].
    apply bind_Ok in Hr as (r0 & Hr0 & [= <-]).
    apply foldl_invariant.
    + revert Hr0. apply for__invariant; [constructor|].
      intros r1 [names group] r2 Hr1 _.
      destruct names as [|n1 [|n2 [|]]]; try done. intros [= <-].
      apply Forall_app; split; [done|]. repeat constructor.
      intros _. by apply (DotArrow_make_canonical n1 n2 _ true).
    + intros r1 [[s d] group] Hr1 _.
      apply Forall_app; split; [done|]. by repeat constructor.
Qed.

Lemma bidirectional_canonical_witness :
  combine_arrows PNone Fixtures.widget_lozenge_arrows
    = Ok [Fixtures.widget_lozenge_edge]
  ∧ Str.le "lozenge_1" "widget_1".
Proof.
  split; [vm_compute; reflexivity|].
  apply (proj2 bidirectional_canonical PNone Fixtures.widget_lozenge_arrows
           [Fixtures.widget_lozenge_edge] Fixtures.widget_lozenge_edge).
  - vm_compute; reflexivity.
  - left.
  - reflexivity.
Defined.

(** ** The scenarios *)

(** C2. [Widget(ref="1", lozenge="1", part="1")] and
    [Lozenge(ref="1", widget="1")], both identified by [ref]: inference makes
    five guessed arrows and nothing else, two from [lozenge_1] to [widget_1]
    (on [ref] and [widget]) and three from [widget_1] to [lozenge_1] (on
    [lozenge], [part] and [ref]); they combine into one bidirectional edge
    labelled [lozenge<br/>part<br/>ref<br/>widget]. *)
Theorem scenario_widget_lozenge :
  let entities := [Fixtures.widget "1" "1" "1"; Fixtures.lozenge "1" "1"] in
  make_guessed_arrows_from_attr_string_values Fixtures.widgets_config entities
    = Ok Fixtures.widget_lozenge_arrows
  ∧ make_arrows Fixtures.widgets_config entities
    = Ok Fixtures.widget_lozenge_arrows
  ∧ length Fixtures.widget_lozenge_arrows = 5
  ∧ Forall (λ a, a.(guessed) = true) Fixtures.widget_lozenge_arrows
  ∧ combine_arrows (make_rules Fixtures.widgets_config)
      Fixtures.widget_lozenge_arrows
    = Ok [mkDotArrow "lozenge_1" "widget_1"
            (Some "lozenge<br/>part<br/>ref<br/>widget") true].
Proof.
  cbv zeta. repeat split; try (vm_compute; reflexivity).
  repeat constructor.
Qed.

(** C9. A [Parent] with two children declared through
    [attrs_with_child_refs], no attribute value shared: the diagram is the
    three nodes and two directed edges, from [parent_ref] to [child_child1]
    labelled [children_0] and to [child_child2] labelled [children_1]. *)
Theorem scenario_parent_children :
  let child1 := Fixtures.child "child1" in
  let child2 := Fixtures.child "child2" in
  let entities := [Fixtures.parent "ref" [child1; child2]; child1; child2] in
  (arrows <- make_arrows Fixtures.family_config entities;;
   combine_arrows (make_rules Fixtures.family_config) arrows)
    = Ok [mkDotArrow "parent_ref" "child_child1" (Some "children_0") false;
          mkDotArrow "parent_ref" "child_child2" (Some "children_1") false]
  ∧ diagram Fixtures.family_config entities
    = Ok ["child_child1"; "child_child2"; "parent_ref";
          "parent_ref->child_child1 [ label= <children_0> ]";
          "parent_ref->child_child2 [ label= <children_1> ]"].
Proof. split; vm_compute; reflexivity. Qed.

(** ** Synonymous attributes *)

Section synonyms.
Context (synonymous_attrs : dict class (list string)) (entity : pyval).
Context (synonyms : list string).
Context (Hsyn : get_by_type synonymous_attrs (type_ entity) = Some synonyms).

(** The loop of [filter_out_synonymous_attributes], from any state in which
    [seen] holds the representative exactly when a synonym was met. *)
Lemma filter_out_loop attrs seen filtered found :
  (∀ r rest, synonyms = r :: rest → (r ∈ seen ↔ found = true)) →
  (foldl (λ '(seen, filtered) '(k, v),
      let synonyms :=
        default [] (get_by_type synonymous_attrs (type_ entity)) in
      if decide (k ∈ synonyms) then
        match synonyms with
        | representative :: _ =>
            if decide (representative ∈ seen) then (seen, filtered)
            else (set_add representative seen, filtered ++ [(k, v)])
        | [] => (seen, filtered)
        end
      else (seen, filtered ++ [(k, v)]))
    (seen, filtered) attrs).2
  = filtered ++ keep_first_synonym synonyms found attrs.
Proof.
  rewrite Hsyn; simpl.
  revert seen filtered found.
  induction attrs as [|[k v] attrs IH]; intros seen filtered found Hseen; simpl.
  - by rewrite app_nil_r.
  - destruct (decide (k ∈ synonyms)) as [Hk|Hk].
    + destruct synonyms as [|r rest] eqn:Hs; [by apply elem_of_nil in Hk|].
      specialize (Hseen r rest eq_refl).
      destruct (decide (r ∈ seen)) as [Hr|Hr].
      * apply Hseen in Hr as ->. apply IH. intros ?? [= <- <-]. by rewrite Hseen.
      * destruct found; [by destruct Hr; apply Hseen|].
        rewrite (IH _ _ true), <- app_assoc; [done|].
        intros ?? [= <- <-]. split; [done|]. intros _.
        unfold set_add. destruct (decide (r ∈ seen)); [done|].
        apply elem_of_app; right; left.
    + rewrite (IH _ _ found), <- app_assoc; [done|].
      intros r rest Hs. by apply (Hseen r rest).
Qed.

Lemma filter_out_keep_first attrs :
  filter_out_synonymous_attributes synonymous_attrs entity attrs
  = keep_first_synonym synonyms false attrs.
Proof.
  unfold filter_out_synonymous_attributes.
  pose proof (filter_out_loop attrs [] [] false) as H.
  destruct (foldl _ _ attrs) as [seen filtered]. simpl in H. rewrite H; [done|].
  intros r rest _. split; [by intros ?%elem_of_nil|done].
Qed.

Lemma keep_first_with_key found attrs :
  with_synonym_key synonyms (keep_first_synonym synonyms found attrs)
  = if found then [] else take 1 (with_synonym_key synonyms attrs).
Proof.
  unfold with_synonym_key. revert found.
  induction attrs as [|[k v] attrs IH]; intros found; simpl.
  - by destruct found.
  - destruct (decide (k ∈ synonyms)) as [Hk|Hk].
    + rewrite (bool_decide_eq_true_2 _ Hk). destruct found; [apply IH|].
      simpl. rewrite (bool_decide_eq_true_2 _ Hk). by rewrite (IH true).
    + rewrite (bool_decide_eq_false_2 _ Hk). simpl.
      rewrite (bool_decide_eq_false_2 _ Hk). apply IH.
Qed.

Lemma keep_first_without_key found attrs :
  without_synonym_key synonyms (keep_first_synonym synonyms found attrs)
  = without_synonym_key synonyms attrs.
Proof.
  unfold without_synonym_key. revert found.
  induction attrs as [|[k v] attrs IH]; intros found; simpl; [done|].
  destruct (decide (k ∈ synonyms)) as [Hk|Hk].
  - rewrite (bool_decide_eq_true_2 _ Hk); simpl. destruct found; [apply IH|].
    simpl. rewrite (bool_decide_eq_true_2 _ Hk); simpl. apply IH.
  - rewrite (bool_decide_eq_false_2 _ Hk); simpl.
    rewrite (bool_decide_eq_false_2 _ Hk); simpl. by rewrite IH.
Qed.
End synonyms.

(** C4, as the code has it.  Where the type of the entity has the synonym
    list [synonyms], [filter_out_synonymous_attributes] keeps of the pairs
    with a synonym key the first one of the listing, whichever synonym that
    is, and drops the later ones; it keeps every other pair.  So at most one
    pair with a synonym key is left by attribute extraction. *)
Theorem synonyms_first_encountered synonymous_attrs entity synonyms attrs :
  get_by_type synonymous_attrs (type_ entity) = Some synonyms →
  let kept := filter_out_synonymous_attributes synonymous_attrs entity attrs in
  with_synonym_key synonyms kept = take 1 (with_synonym_key synonyms attrs)
  ∧ without_synonym_key synonyms kept = without_synonym_key synonyms attrs
  ∧ length (with_synonym_key synonyms (get_attrs synonymous_attrs entity)) ≤ 1.
Proof.
  intros Hsyn kept. unfold kept, get_attrs.
  rewrite !(filter_out_keep_first _ _ _ Hsyn).
  rewrite !keep_first_with_key, keep_first_without_key.
  split; [done|]. split; [done|].
  rewrite length_take. lia.
Qed.

Lemma synonyms_first_encountered_witness :
  let attrs := [("product_sku", "P1"); ("sku", "S1")] in
  let kept :=
    filter_out_synonymous_attributes SynonymFixtures.synonyms
      SynonymFixtures.product attrs in
  with_synonym_key ["sku"; "product_sku"] kept
    = take 1 (with_synonym_key ["sku"; "product_sku"] attrs)
  ∧ without_synonym_key ["sku"; "product_sku"] kept
    = without_synonym_key ["sku"; "product_sku"] attrs
  ∧ length (with_synonym_key ["sku"; "product_sku"]
      (get_attrs SynonymFixtures.synonyms SynonymFixtures.product)) ≤ 1.
Proof.
  apply (synonyms_first_encountered SynonymFixtures.synonyms
           SynonymFixtures.product ["sku"; "product_sku"]).
  reflexivity.
Defined.

(** The claim C4 as stated fails: the product has both [sku], the
    representative, and [product_sku]; members come sorted by name, so
    [product_sku] is met first and is the one retained. *)
Lemma synonym_representative_dropped :
  get_by_type SynonymFixtures.synonyms (type_ SynonymFixtures.product)
    = Some ["sku"; "product_sku"]
  ∧ get_attrs SynonymFixtures.synonyms SynonymFixtures.product
    = [("product_sku", "P1")]
  ∧ ¬ (∀ k v,
         (k, v) ∈ get_attrs SynonymFixtures.synonyms SynonymFixtures.product →
         k ∈ ["sku"; "product_sku"] → k = "sku").
Proof.
  split; [reflexivity|]. split; [vm_compute; reflexivity|].
  intros H. specialize (H "product_sku" "P1").
  assert ("product_sku" = "sku") as Heq; [|discriminate Heq].
  apply H; [vm_compute; left|right; left].
Qed.

(** ** Reasoning on results *)

Lemma ensures_bind {A B} (E : exn → Prop) (Q : A → Prop) (P : B → Prop)
    m (k : A → result B) :
  ensures Q E m → (∀ a, Q a → ensures P E (k a)) → ensures P E (x <- m;; k x).
Proof. destruct m; simpl; auto. Qed.

Lemma ensures_for {A S} (E : exn → Prop) (P : S → Prop) (l : list A) body s :
  P s → (∀ s x, P s → x ∈ l → ensures P E (body s x)) →
  ensures P E (for_ l body s).
Proof.
  revert s; induction l as [|x l IH]; intros s Hs Hbody; simpl; [done|].
  apply (ensures_bind _ P); [apply Hbody; [done|left]|].
  intros s' Hs'. apply IH; [done|]. intros. apply Hbody; [done|by right].
Qed.

Lemma ensures_of_option {A} (E : exn → Prop) (P : A → Prop) e o :
  E e → (∀ a, o = Some a → P a) → ensures P E (of_option e o).
Proof. destruct o; simpl; auto. Qed.

(** A loop raises when its body raises at one of the elements, whatever the
    state it is reached in. *)
Lemma for__raises {A S} (l : list A) (body : S → A → result S) s x :
  x ∈ l → (∀ s, raises (body s x)) → raises (for_ l body s).
Proof.
  intros Hx Hbody. revert s.
  induction l as [|y l IH]; intros s; simpl; [by apply elem_of_nil in Hx|].
  apply elem_of_cons in Hx as [<-|Hx].
  - destruct (Hbody s) as [e ->]. by exists e.
  - destruct (body s y) as [s'|e]; simpl; [by apply IH|by exists e].
Qed.

Lemma raises_bind {A B} (m : result A) (k : A → result B) :
  raises m → raises (x <- m;; k x).
Proof. intros [e ->]. by exists e. Qed.

Lemma raises_bind_r {A B} (m : result A) (k : A → result B) :
  (∀ a, raises (k a)) → raises (x <- m;; k x).
Proof. intros Hk. destruct m as [a|e]; simpl; [apply Hk|by exists e]. Qed.

(** ** Entities of a type without identity attribute *)



(** ** The invariant of arrows *)

Lemma entity_name_no_assertion id_attrs entity :
  ensures (λ _, True) (λ e, e ≠ AssertionError) (entity_name id_attrs entity).
Proof.
  unfold entity_name.
  apply (ensures_bind _ (λ _, True)); [by apply ensures_of_option|].
  intros id_attr _. apply (ensures_bind _ (λ _, True)).
  { unfold getattr. destruct entity; try done. by apply ensures_of_option. }
  intros attr _. apply (ensures_bind _ (λ _, True)).
  - set (value := match attr with PMethod returns => returns | _ => attr end).
    destruct value; try done.
    apply (ensures_bind _ (λ _, True)); [|done].
    apply ensures_for; [done|]. intros parts x _ _.
    apply (ensures_bind _ (λ _, True)); [by destruct x|done].
  - intros value _. apply (ensures_bind _ (λ _, True)); [by destruct value|done].
Qed.

Lemma make_guessed_arrows_invariant config entities :
  ensures (Forall arrow_invariant) (λ e, e ≠ AssertionError)
    (make_guessed_arrows_from_attr_string_values config entities).
Proof.
  unfold make_guessed_arrows_from_attr_string_values.
  apply (ensures_bind _ (λ _, True)).
  { apply ensures_for; [done|]. intros [[a b] c] entity _ _.
    apply (ensures_bind _ (λ _, True)); [apply entity_name_no_assertion|done]. }
  intros [[attrs_by_entity_name types_by_entity_name] by_value] _.
  apply (ensures_bind _ (λ _, True)).
  { apply ensures_for; [done|]. intros attrs_ [src_name src_attrs] _ _.
    apply (ensures_bind _ (λ _, True)); [by apply ensures_of_option|].
    intros src_type _. apply ensures_for; [done|]. intros attrs_' [k v] _ _.
    apply ensures_for; [done|]. intros attrs_'' dst_name _ _.
    apply (ensures_bind _ (λ _, True)); [by apply ensures_of_option|done]. }
  intros attrs_ _. apply ensures_for; [constructor|].
  intros arrows [[[[src_type src_name] dst_type] dst_name] attrs] Harrows _.
  apply ensures_for; [done|]. intros arrows' [k v] Harrows' _. simpl.
  apply Forall_app; split; [done|]. by repeat constructor.
Qed.

Lemma getattr_raises x name e : getattr x name = Raise e → e = AttributeError.
Proof.
  unfold getattr. destruct x; try by intros [= <-].
  destruct (dict_get _ _); simpl; [done|by intros [= <-]].
Qed.

Lemma children_of_raises entity attr_names e :
  Raise e ∈ children_of entity attr_names → e = AttributeError.
Proof.
  induction attr_names as [|name attr_names IH]; simpl.
  - by intros ?%elem_of_nil.
  - destruct (getattr entity name) as [value|e'] eqn:Hget.
    + assert (Raise e ∈ Ok (name, value) :: children_of entity attr_names →
              e = AttributeError) as Hone.
      { intros [[=]|?]%elem_of_cons. by apply IH. }
      destruct value; try done.
      intros [Hy|Hy]%elem_of_app; [|by apply IH].
      apply list_elem_of_lookup in Hy as [i Hi].
      rewrite list_lookup_imap in Hi. by destruct (items !! i).
    + intros [= <-]%list_elem_of_singleton. by eapply getattr_raises.
Qed.

Lemma make_arrows_from_python_refs_invariant config entities :
  ensures (Forall arrow_invariant) (λ e, e ≠ AssertionError)
    (make_arrows_from_python_refs config entities).
Proof.
  unfold make_arrows_from_python_refs.
  apply ensures_for; [constructor|]. intros arrows entity Harrows _.
  apply ensures_for; [done|]. intros arrows' yielded Harrows' Hy.
  apply (ensures_bind _ (λ _, True)).
  { destruct yielded as [item|e]; [done|]. simpl.
    by apply children_of_raises in Hy as ->. }
  intros [attr_name child] _.
  apply (ensures_bind _ (λ _, True)); [apply entity_name_no_assertion|].
  intros parent_name _.
  apply (ensures_bind _ (λ _, True)); [apply entity_name_no_assertion|].
  intros child_name _. simpl.
  apply Forall_app; split; [done|]. by repeat constructor.
Qed.

(** C7. [make_arrows] never trips the assertion of [Arrow.__post_init__]:
    it does not raise [AssertionError], and every arrow it returns has
    [guessed == (value is not None)]. *)
Theorem arrows_keep_invariant config entities :
  match make_arrows config entities with
  | Ok arrows => Forall (λ a, a.(guessed) = bool_decide (a.(value) ≠ None)) arrows
  | Raise e => e ≠ AssertionError
  end.
Proof.
  change (ensures (Forall arrow_invariant) (λ e, e ≠ AssertionError)
            (make_arrows config entities)).
  unfold make_arrows.
  apply (ensures_bind _ (Forall arrow_invariant));
    [apply make_guessed_arrows_invariant|].
  intros guessed_arrows Hg.
  apply (ensures_bind _ (Forall arrow_invariant));
    [apply make_arrows_from_python_refs_invariant|].
  intros ref_arrows Hr. simpl. by apply Forall_app.
Qed.

(** ** Self-loops *)

(** C6 does not hold of the code.  [Widget_A] and [Widget_a] are two entity
    names with the slug [widget_a]; the two widgets share the value of
    [part]: each gets a guessed arrow to the other, from [widget_a] to
    [widget_a], and the build of the diagram stops on the one-element
    frozenset in [combine_arrows]. *)
Theorem slug_collision_self_loop :
  let entities := [Fixtures.widget "A" "p" "x"; Fixtures.widget "a" "q" "x"] in
  let loop := Fixtures.guessed_arrow Fixtures.Widget "widget_a"
                Fixtures.Widget "widget_a" "part" "x" in
  make_guessed_arrows_from_attr_string_values Fixtures.widgets_config entities
    = Ok [loop; loop]
  ∧ loop.(src_name) = loop.(dst_name)
  ∧ diagram Fixtures.widgets_config entities = Raise ValueError.
Proof. repeat split; vm_compute; reflexivity. Qed.

(** ** Dictionaries and sets, as lists *)

Section container_facts.
Context {K V : Type} `{EqDecision K}.
Implicit Types (d : dict K V) (k : K) (v : V).

Lemma dict_get_set d k v k' :
  dict_get (dict_set d k v) k' = if decide (k = k') then Some v else dict_get d k'.
Proof.
  induction d as [|[k0 v0] d IH]; csimpl.
  - by destruct (decide (k = k')).
  - destruct (decide (k0 = k)) as [->|Hne]; csimpl.
    + by destruct (decide (k = k')).
    + destruct (decide (k0 = k')) as [->|]; [|done].
      by destruct (decide (k = k')) as [->|].
Qed.

Lemma dict_set_keys d k v :
  (dict_set d k v).*1 = if decide (k ∈ d.*1) then d.*1 else d.*1 ++ [k].
Proof.
  induction d as [|[k0 v0] d IH]; csimpl.
  - destruct (decide (k ∈ [])) as [?%elem_of_nil|]; done.
  - destruct (decide (k0 = k)) as [->|Hne]; csimpl.
    + destruct (decide (k ∈ k :: d.*1)) as [|Hn]; [done|].
      destruct Hn; left.
    + rewrite IH. destruct (decide (k ∈ d.*1)) as [Hin|Hnin].
      * destruct (decide (k ∈ k0 :: d.*1)) as [|Hn]; [done|].
        destruct Hn; by right.
      * destruct (decide (k ∈ k0 :: d.*1)) as [[?|?]%elem_of_cons|]; done.
Qed.

Lemma dict_set_NoDup d k v : NoDup d.*1 → NoDup (dict_set d k v).*1.
Proof.
  intros Hd. rewrite dict_set_keys. destruct (decide (k ∈ d.*1)); [done|].
  apply NoDup_app. split; [done|]. split; [|apply NoDup_singleton].
  by intros x Hx ->%list_elem_of_singleton.
Qed.

Lemma dict_get_Some_elem_of d k v : dict_get d k = Some v → (k, v) ∈ d.
Proof.
  induction d as [|[k0 v0] d IH]; csimpl; [done|].
  destruct (decide (k0 = k)) as [->|]; [intros [= ->]; left|].
  intros. right. by apply IH.
Qed.

Lemma elem_of_dict_get d k v : NoDup d.*1 → (k, v) ∈ d → dict_get d k = Some v.
Proof.
  induction d as [|[k0 v0] d IH]; csimpl; [by intros _ ?%elem_of_nil|].
  intros [Hk0 Hd]%NoDup_cons [[= -> ->]|Hin]%elem_of_cons.
  - by destruct (decide (k0 = k0)).
  - destruct (decide (k0 = k)) as [->|]; [|by apply IH].
    destruct Hk0. apply list_elem_of_fmap. by exists (k, v).
Qed.

Lemma elem_of_set_add (x y : K) s : x ∈ set_add y s ↔ x = y ∨ x ∈ s.
Proof.
  unfold set_add. destruct (decide (y ∈ s)); [naive_solver|].
  rewrite elem_of_app, list_elem_of_singleton. naive_solver.
Qed.

Lemma set_add_NoDup (y : K) s : NoDup s → NoDup (set_add y s).
Proof.
  intros Hs. unfold set_add. destruct (decide (y ∈ s)); [done|].
  apply NoDup_app. split; [done|]. split; [|apply NoDup_singleton].
  by intros x Hx ->%list_elem_of_singleton.
Qed.

Lemma elem_of_set_discard (x y : K) s : x ∈ set_discard y s ↔ x ∈ s ∧ x ≠ y.
Proof.
  unfold set_discard.
  by rewrite !list_elem_of_In, filter_In, bool_decide_eq_true.
Qed.
End container_facts.

(** ** Nodes *)

Lemma for__map {A B C} (f : A → result B) (g : B → C) l body acc r :
  (∀ acc x, body acc x = (y <- f x;; Ok (acc ++ [g y]))) →
  for_ l body acc = Ok r ↔
    ∃ ys, Forall2 (λ x y, f x = Ok y) l ys ∧ r = acc ++ (g <$> ys).
Proof.
  intros Hbody. revert acc. induction l as [|x l IH]; intros acc; simpl.
  - split.
    + intros [= <-]. exists []. split; [constructor|by rewrite app_nil_r].
    + intros (ys & ->%Forall2_nil_inv_l & ->). by rewrite app_nil_r.
  - rewrite Hbody. destruct (f x) as [y|e] eqn:Hfx; simpl.
    + rewrite IH. split.
      * intros (ys & Hys & ->). exists (y :: ys).
        split; [by constructor|]. by rewrite <- app_assoc.
      * intros (ys & (y' & ys' & Hy & Hys & ->)%Forall2_cons_inv_l & ->).
        rewrite Hfx in Hy. injection Hy as <-.
        exists ys'. split; [done|]. by rewrite <- app_assoc.
    + split; [done|].
      intros (ys & (y' & ys' & Hy & _)%Forall2_cons_inv_l & _).
      by rewrite Hfx in Hy.
Qed.

Lemma make_nodes_Ok config entities nodes :
  make_nodes config entities = Ok nodes ↔
    ∃ names, names_of config entities names
             ∧ nodes = (λ name, mkNode (slugify name)) <$> names.
Proof.
  unfold make_nodes, names_of.
  by rewrite (for__map (entity_name config.(id_attrs))
                (λ name, mkNode (slugify name))).
Qed.

Lemma node_names_spec (nodes : list Node) :
  let node_names :=
    foldl (λ node_names node, set_add node.(node_name) node_names) [] nodes in
  NoDup node_names ∧ ∀ x, x ∈ node_names ↔ x ∈ node_name <$> nodes.
Proof.
  cbv zeta.
  cut (∀ acc, NoDup acc →
         NoDup (foldl (λ s n, set_add n.(node_name) s) acc nodes)
         ∧ ∀ x, x ∈ foldl (λ s n, set_add n.(node_name) s) acc nodes
                ↔ x ∈ acc ∨ x ∈ node_name <$> nodes).
  { intros H. destruct (H [] (NoDup_nil_2)) as [H1 H2]. split; [done|].
    intros x. rewrite H2. rewrite elem_of_nil. naive_solver. }
  induction nodes as [|n nodes IH]; intros acc Hacc; csimpl.
  - split; [done|]. intros x. rewrite elem_of_nil. naive_solver.
  - destruct (IH (set_add n.(node_name) acc)) as [H1 H2];
      [by apply set_add_NoDup|].
    split; [done|]. intros x.
    rewrite H2, elem_of_set_add, elem_of_cons. naive_solver.
Qed.

Lemma render_to_dot_eq nodes arrows :
  render_to_dot nodes arrows =
    sorted Str.le (remove_dups (node_name <$> nodes))
    ++ (arrow_line <$> sorted DotArrow_le arrows).
Proof.
  unfold render_to_dot.
  rewrite (foldl_append (λ x, x)), (foldl_append arrow_line), list_fmap_id.
  simpl. f_equal. apply (sorted_perm_eq Str.le).
  destruct (node_names_spec nodes) as [H1 H2].
  apply NoDup_Permutation; [done|apply NoDup_remove_dups|].
  intros x. by rewrite H2, elem_of_remove_dups.
Qed.

Lemma diagram_Ok config entities out :
  diagram config entities = Ok out ↔
    ∃ arrows dot_arrows names,
      make_arrows config entities = Ok arrows
      ∧ combine_arrows (make_rules config) arrows = Ok dot_arrows
      ∧ names_of config entities names
      ∧ out = sorted Str.le (remove_dups (slugify <$> names))
              ++ (arrow_line <$> sorted DotArrow_le dot_arrows).
Proof.
  unfold diagram. rewrite bind_Ok. setoid_rewrite bind_Ok.
  setoid_rewrite bind_Ok. setoid_rewrite make_nodes_Ok. split.
  - intros (arrows & Ha & dots & Hd & nodes & (names & Hn & ->) & [= <-]).
    exists arrows, dots, names. repeat (split; [done|]).
    by rewrite render_to_dot_eq, <- list_fmap_compose.
  - intros (arrows & dots & names & Ha & Hd & Hn & ->).
    exists arrows. split; [done|]. exists dots. split; [done|].
    eexists. split; [by exists names|].
    by rewrite render_to_dot_eq, <- list_fmap_compose.
Qed.

Lemma to_list_app a b : Str.to_list (a +:+ b) = Str.to_list a ++ Str.to_list b.
Proof. induction a as [|c a IH]; simpl; [done|]. by rewrite IH. Qed.

Lemma arrow_line_is_edge_line arrow : is_edge_line (arrow_line arrow) = true.
Proof.
  apply bool_decide_eq_true. unfold arrow_line.
  destruct (label arrow), (bidirectional arrow);
    rewrite to_list_app; apply elem_of_app; right; right; left.
Qed.

Lemma slugify_chars_word s :
  Forall (λ c, Str.is_word c = true) (slugify_chars s).
Proof.
  rewrite slugify_chars_steps. apply Forall_fmap.
  apply Forall_rstrip, Forall_lstrip, Forall_sub_spaces_from.
  { reflexivity. }
  apply Forall_fmap, Forall_forall. intros c Hc. simpl.
  apply list_elem_of_In, filter_In in Hc as [Hin Hw].
  apply list_elem_of_In, list_elem_of_fmap in Hin as [c0 [-> _]].
  by apply slug_char_back, to_sep_slug_char.
Qed.

Lemma slugify_not_edge_line s : is_edge_line (slugify s) = false.
Proof.
  apply bool_decide_eq_false. unfold slugify, Str.of_list, Str.to_list.
  rewrite String.list_ascii_of_string_of_list_ascii. intros Hin.
  pose proof (slugify_chars_word (String.list_ascii_of_string s)) as Hw.
  rewrite Forall_forall in Hw. by apply Hw in Hin.
Qed.

Lemma filter_all {A} (p : A → bool) l :
  Forall (λ x, p x = true) l → List.filter p l = l.
Proof. induction 1 as [|x l Hx Hl IH]; simpl; [done|]. by rewrite Hx, IH. Qed.

Lemma filter_none {A} (p : A → bool) l :
  Forall (λ x, p x = false) l → List.filter p l = [].
Proof. induction 1 as [|x l Hx Hl IH]; simpl; [done|]. by rewrite Hx. Qed.

Lemma filter_eq_NoDup {A} `{EqDecision A} (x : A) l :
  NoDup l → x ∈ l → length (List.filter (λ y, bool_decide (y = x)) l) = 1.
Proof.
  induction 1 as [|y l Hy Hl IH]; [by intros ?%elem_of_nil|].
  intros [->|Hin]%elem_of_cons; simpl.
  - rewrite bool_decide_eq_true_2 by done. simpl. f_equal.
    rewrite filter_none; [done|]. apply Forall_forall. intros z Hz.
    apply bool_decide_eq_false. by intros ->.
  - rewrite bool_decide_eq_false_2; [by apply IH|]. by intros ->.
Qed.

Lemma remove_dups_NoDup {A} `{EqDecision A} (l : list A) :
  NoDup l → remove_dups l = l.
Proof.
  induction 1 as [|x l Hx Hl IH]; simpl; [done|].
  destruct (decide_rel elem_of x l); [done|]. by rewrite IH.
Qed.

(** C5, as the code has it.  When the diagram is built, its node lines are
    the slugified names of the entities, each one once and in ascending
    order: the slug of every entity is exactly one line of the output,
    whether the entity has an edge or not, and there are as many node lines
    as entities when no two entities have the same slug. *)
Theorem node_lines_are_the_slugs config entities out :
  diagram config entities = Ok out →
  ∃ names,
    names_of config entities names
    ∧ node_lines out = sorted Str.le (remove_dups (slugify <$> names))
    ∧ (∀ name, name ∈ names →
         length (List.filter (λ line, bool_decide (line = slugify name)) out) = 1)
    ∧ (NoDup (slugify <$> names) → length (node_lines out) = length entities).
Proof.
  intros (arrows & dots & names & _ & _ & Hnames & ->)%diagram_Ok.
  exists names. split; [done|].
  set (slugs := sorted Str.le (remove_dups (slugify <$> names))).
  set (edges := arrow_line <$> sorted DotArrow_le dots).
  assert (∀ x, x ∈ slugs ↔ x ∈ slugify <$> names) as Hslugs.
  { intros x. unfold slugs. by rewrite elem_of_sorted, elem_of_remove_dups. }
  assert (NoDup slugs) as Hnd.
  { unfold slugs. rewrite (sorted_Permutation Str.le). apply NoDup_remove_dups. }
  assert (node_lines (slugs ++ edges) = slugs) as Hnl.
  { unfold node_lines. rewrite List.filter_app.
    rewrite filter_all, filter_none, app_nil_r; [done| |].
    - apply Forall_fmap, Forall_forall. intros d _. simpl.
      by rewrite arrow_line_is_edge_line.
    - apply Forall_forall. intros x [n [-> _]]%Hslugs%list_elem_of_fmap.
      by rewrite slugify_not_edge_line. }
  split; [done|]. split.
  - intros name Hname. rewrite List.filter_app, length_app.
    rewrite filter_eq_NoDup; [|done|apply Hslugs, list_elem_of_fmap; eauto].
    rewrite filter_none; [done|].
    apply Forall_fmap, Forall_forall. intros d _. simpl.
    apply bool_decide_eq_false. intros Heq.
    pose proof (arrow_line_is_edge_line d) as Hd.
    by rewrite Heq, slugify_not_edge_line in Hd.
  - intros Hnodup. rewrite Hnl. unfold slugs.
    rewrite (sorted_Permutation Str.le).
    rewrite remove_dups_NoDup by done. hnf in Hnames.
    by rewrite length_fmap, <- (Forall2_length _ _ _ Hnames).
Qed.

Lemma node_lines_are_the_slugs_witness :
  ∃ names,
    names_of Fixtures.widgets_config
      [Fixtures.widget "1" "1" "1"; Fixtures.lozenge "1" "1"] names
    ∧ node_lines
        ["lozenge_1"; "widget_1";
         arrow_line Fixtures.widget_lozenge_edge]
      = sorted Str.le (remove_dups (slugify <$> names))
    ∧ (∀ name, name ∈ names →
         length (List.filter (λ line, bool_decide (line = slugify name))
           ["lozenge_1"; "widget_1";
            arrow_line Fixtures.widget_lozenge_edge]) = 1)
    ∧ (NoDup (slugify <$> names) →
       length (node_lines
         ["lozenge_1"; "widget_1";
          arrow_line Fixtures.widget_lozenge_edge]) = 2).
Proof.
  apply (node_lines_are_the_slugs Fixtures.widgets_config
           [Fixtures.widget "1" "1" "1"; Fixtures.lozenge "1" "1"]).
  vm_compute. reflexivity.
Defined.

(** The claim C5 as stated fails: [Widget_A] and [Widget_a] are two
    entities with one slug, the diagram has a single node line. *)
Lemma colliding_slugs_share_a_node :
  let entities := [Fixtures.widget "A" "p" "q"; Fixtures.widget "a" "r" "s"] in
  diagram Fixtures.widgets_config entities = Ok ["widget_a"]
  ∧ length (node_lines ["widget_a"]) ≠ length entities.
Proof. split; [vm_compute; reflexivity|]. vm_compute. lia. Qed.

(** ** Dictionaries of sets *)

Section grouping_facts.
Context {K X : Type} `{EqDecision K, EqDecision X}.
Implicit Types (d : dict K (list X)) (k : K) (x y : X).

Lemma elem_of_dict_set {V} (d : dict K V) k (v : V) k' v' :
  (k', v') ∈ dict_set d k v → (k', v') ∈ d ∨ (k' = k ∧ v' = v).
Proof.
  induction d as [|[k0 v0] d IH]; csimpl.
  - intros [= -> ->]%list_elem_of_singleton. by right.
  - destruct (decide (k0 = k)) as [->|].
    + intros [[= -> ->]|?]%elem_of_cons; [by right|]. left. by right.
    + intros [[= -> ->]|[?|?]%IH]%elem_of_cons; [left; left| |by right].
      left. by right.
Qed.

Lemma grouping_nil : grouping ([] : dict K (list X)).
Proof. split; [constructor|]. by intros k g ?%elem_of_nil. Qed.

Lemma grouping_lookup d k g : grouping d → (k, g) ∈ d ↔ dict_get d k = Some g.
Proof.
  intros [Hd _]. split; [by apply elem_of_dict_get|apply dict_get_Some_elem_of].
Qed.

Lemma members_NoDup d k : grouping d → NoDup (members d k).
Proof.
  intros Hd. unfold members.
  destruct (dict_get d k) as [g|] eqn:Hg; simpl; [|constructor].
  apply (grouping_lookup _ _ _ Hd) in Hg. by apply (proj2 Hd) in Hg as [? _].
Qed.

Lemma members_elem_of d k g : grouping d → (k, g) ∈ d → members d k = g.
Proof. intros Hd Hg%(grouping_lookup _ _ _ Hd). unfold members. by rewrite Hg. Qed.

Lemma members_lookup d k y :
  y ∈ members d k → ∃ g, (k, g) ∈ d ∧ y ∈ g.
Proof.
  unfold members. destruct (dict_get d k) as [g|] eqn:Hg; simpl.
  - exists g. split; [by apply dict_get_Some_elem_of|done].
  - by intros ?%elem_of_nil.
Qed.

Lemma setdefault_add_extends d k x :
  grouping d → extends (λ k' y, k' = k ∧ y = x) d (setdefault_add d k x).
Proof.
  intros Hd. unfold extends, setdefault_add. split; [split|].
  - apply dict_set_NoDup, Hd.
  - intros k' g [Hin|[-> ->]]%elem_of_dict_set; [by apply (proj2 Hd k')|].
    split; [apply set_add_NoDup, (members_NoDup _ _ Hd)|].
    intros Hnil. assert (x ∈ set_add x (default [] (dict_get d k))) as Hx
      by (apply elem_of_set_add; by left).
    rewrite Hnil in Hx. by apply elem_of_nil in Hx.
  - intros k' y. unfold members at 1. rewrite dict_get_set.
    destruct (decide (k = k')) as [<-|Hne]; simpl.
    + rewrite elem_of_set_add. unfold members. naive_solver.
    + unfold members. naive_solver.
Qed.

Lemma extends_refl d : grouping d → extends (λ _ _, False) d d.
Proof. intros Hd. split; [done|]. naive_solver. Qed.

Lemma extends_trans (C1 C2 : K → X → Prop) d1 d2 d3 :
  extends C1 d1 d2 → extends C2 d2 d3 →
  extends (λ k y, C1 k y ∨ C2 k y) d1 d3.
Proof.
  intros [_ H12] [Hd3 H23]. split; [done|].
  intros k y. rewrite H23, H12. naive_solver.
Qed.

Lemma extends_iff (C1 C2 : K → X → Prop) d d' :
  (∀ k y, C1 k y ↔ C2 k y) → extends C1 d d' → extends C2 d d'.
Proof.
  intros HC [Hd H]. split; [done|]. intros k y. by rewrite H, HC.
Qed.

(** A loop that files members, element after element. *)
Lemma for__extends {A} (l : list A) body (C : A → K → X → Prop) d :
  grouping d →
  (∀ d a, grouping d → a ∈ l → ∃ d', body d a = Ok d' ∧ extends (C a) d d') →
  ∃ d', for_ l body d = Ok d'
        ∧ extends (λ k y, ∃ a, a ∈ l ∧ C a k y) d d'.
Proof.
  revert d. induction l as [|a l IH]; intros d Hd Hbody; simpl.
  - exists d. split; [done|]. eapply extends_iff; [|by apply extends_refl].
    intros k y; split; [done|]. by intros (a & ?%elem_of_nil & _).
  - destruct (Hbody d a Hd) as (d1 & -> & H1); [left|]. simpl.
    destruct (IH d1) as (d2 & -> & H2); [apply H1| |].
    { intros. apply Hbody; [done|by right]. }
    exists d2. split; [done|].
    eapply extends_iff; [|by eapply extends_trans]. intros k y; simpl.
    split.
    + intros [?|(a' & ? & ?)]; [exists a; split; [left|done]|].
      exists a'. split; [by right|done].
    + intros (a' & [->|?]%elem_of_cons & ?); [by left|]. right. by exists a'.
Qed.

Lemma foldl_extends {A} (l : list A) body (C : A → K → X → Prop) d :
  grouping d →
  (∀ d a, grouping d → a ∈ l → extends (C a) d (body d a)) →
  extends (λ k y, ∃ a, a ∈ l ∧ C a k y) d (foldl body d l).
Proof.
  intros Hd Hbody.
  destruct (for__extends l (λ d a, Ok (body d a)) C d Hd) as (d' & Hd' & H).
  { intros d0 a ??. exists (body d0 a). split; [done|]. by apply Hbody. }
  clear Hbody. cut (d' = foldl body d l); [by intros <-|].
  clear H Hd. revert d Hd'. induction l as [|a l IH]; intros d; simpl.
  - by intros [= ->].
  - apply IH.
Qed.
End grouping_facts.

(** ** Guessed arrows *)

(** A loop that keeps an invariant of its state and of the elements seen so
    far, and whose body returns under that invariant, returns. *)
Lemma for__prefix_total {A S} (P : list A → S → Prop) l body s :
  P [] s →
  (∀ pre x s, P pre s → x ∈ l → ∃ s', body s x = Ok s' ∧ P (pre ++ [x]) s') →
  ∃ r, for_ l body s = Ok r ∧ P l r.
Proof.
  intros Hs Hbody.
  cut (∀ pre s, P pre s → ∃ r, for_ l body s = Ok r ∧ P (pre ++ l) r).
  { intros H. by apply (H []). }
  clear s Hs. induction l as [|x l IH]; intros pre s Hs; simpl.
  - exists s. by rewrite app_nil_r.
  - destruct (Hbody pre x s Hs) as (s' & -> & Hs'); [left|]. simpl.
    destruct (IH (λ pre x s H Hx, Hbody pre x s H (list_elem_of_further _ _ _ Hx))
                (pre ++ [x]) s' Hs') as (r & -> & Hr).
    exists r. split; [done|]. by rewrite <- app_assoc in Hr.
Qed.

Lemma for__Ok_each {A S} (l : list A) (body : S → A → result S) s r x :
  for_ l body s = Ok r → x ∈ l → ∃ s s', body s x = Ok s'.
Proof.
  revert s. induction l as [|y l IH]; intros s; simpl.
  - by intros _ ?%elem_of_nil.
  - intros (s' & Hs' & Hr)%bind_Ok [->|Hx]%elem_of_cons; [by exists s, s'|].
    by apply (IH s').
Qed.

Lemma indexed_step config seen entity name A T B :
  indexed config seen (A, T, B) →
  entity_name config.(id_attrs) entity = Ok name →
  indexed config (seen ++ [entity])
    (dict_set A name (get_attrs config.(synonymous_attrs) entity),
     dict_set T name (type_ entity),
     foldl (λ by_value '(k, v), setdefault_add by_value v name) B
       (get_attrs config.(synonymous_attrs) entity)).
Proof.
  intros (HA & HA1 & HA2 & HT1 & HT2 & HB & HB1) Hname.
  pose proof (foldl_extends (get_attrs config.(synonymous_attrs) entity)
    (λ by_value '(k, v), setdefault_add by_value v name)
    (λ kv v n, v = kv.2 ∧ n = name) B HB) as [HB' HB1'].
  { intros d [k v] Hd _. by apply setdefault_add_extends. }
  split_and!.
  - by apply dict_set_NoDup.
  - intros n attrs [Hin|[-> ->]]%elem_of_dict_set.
    + destruct (HA1 _ _ Hin) as (e & He & ?). exists e.
      split; [|done]. apply elem_of_app. by left.
    + exists entity. split; [|done]. apply elem_of_app. right. left.
  - intros e n [He|He%list_elem_of_singleton]%elem_of_app Hn.
    + rewrite dict_set_keys. specialize (HA2 _ _ He Hn).
      destruct (decide (name ∈ A.*1)); [done|]. apply elem_of_app. by left.
    + subst e. rewrite Hname in Hn. injection Hn as <-. rewrite dict_set_keys.
      destruct (decide (name ∈ A.*1)); [done|]. apply elem_of_app. right. left.
  - intros n t. rewrite dict_get_set.
    destruct (decide (name = n)) as [<-|].
    + intros [= <-]. exists entity. split; [|done]. apply elem_of_app. right. left.
    + intros (e & He & ?)%HT1. exists e. split; [|done]. apply elem_of_app. by left.
  - intros e n [He|He%list_elem_of_singleton]%elem_of_app Hn;
      rewrite dict_get_set; destruct (decide (name = n)); eauto.
    subst e. rewrite Hname in Hn. by injection Hn.
  - apply HB'.
  - intros v n. rewrite HB1', HB1. split.
    + intros [(e & He & ?)|([k v'] & Hkv & -> & ->)].
      * exists e. split; [|done]. apply elem_of_app. by left.
      * exists entity. split; [apply elem_of_app; right; left|]. eauto.
    + intros (e & [He|He%list_elem_of_singleton]%elem_of_app & Hn & k & Hk).
      * left. exists e. eauto.
      * right. subst e. rewrite Hname in Hn. injection Hn as <-.
        by exists (k, v).
Qed.

Lemma elem_of_set_of {A} `{EqDecision A} (x : A) l : x ∈ set_of l ↔ x ∈ l.
Proof. apply elem_of_remove_dups. Qed.

Lemma for__append_each {A B} (g : A → B) (l : list A) body acc :
  (∀ acc x, x ∈ l → body acc x = Ok (acc ++ [g x])) →
  for_ l body acc = Ok (acc ++ (g <$> l)).
Proof.
  revert acc. induction l as [|x l IH]; intros acc Hbody; csimpl.
  - by rewrite app_nil_r.
  - rewrite Hbody by left. simpl. rewrite IH, <- app_assoc; [done|].
    intros. apply Hbody. by right.
Qed.

Lemma for__append_pure {A B} (F : A → list B) (l : list A) body acc :
  (∀ acc x, x ∈ l → body acc x = Ok (acc ++ F x)) →
  for_ l body acc = Ok (acc ++ (l ≫= F)).
Proof.
  revert acc. induction l as [|x l IH]; intros acc Hbody; csimpl.
  - by rewrite app_nil_r.
  - rewrite Hbody by left. simpl. rewrite IH, <- app_assoc; [done|].
    intros. apply Hbody. by right.
Qed.

Lemma indexed_consistent config entities A T B :
  indexed config entities (A, T, B) →
  consistent_names config entities →
  (∀ e n, e ∈ entities → entity_name config.(id_attrs) e = Ok n →
     (n, get_attrs config.(synonymous_attrs) e) ∈ A
     ∧ dict_get T n = Some (type_ e)).
Proof.
  intros (HA & HA1 & HA2 & HT1 & HT2 & HB & HB1) Hcons e n He Hn. split.
  - specialize (HA2 _ _ He Hn).
    apply list_elem_of_fmap in HA2 as ([n' attrs] & -> & Hin). simpl.
    destruct (HA1 _ _ Hin) as (e' & He' & Hn' & ->).
    by destruct (Hcons e e' _ He He' Hn Hn') as [_ ->].
  - destruct (HT2 _ _ He Hn) as [t Ht]. rewrite Ht.
    destruct (HT1 _ _ Ht) as (e' & He' & Hn' & ->).
    by destruct (Hcons e e' _ He He' Hn Hn') as [-> _].
Qed.

(** When every entity has a name, the guessed arrows are made, and they are
    those of [guessed_between]. *)
Lemma make_guessed_arrows_spec config entities :
  (∀ e, e ∈ entities → ∃ n, entity_name config.(id_attrs) e = Ok n) →
  consistent_names config entities →
  ∃ arrows,
    make_guessed_arrows_from_attr_string_values config entities = Ok arrows
    ∧ ∀ a, a ∈ arrows ↔ guessed_between config entities a.
Proof.
  intros Hnames Hcons. unfold make_guessed_arrows_from_attr_string_values.
  (* the indexes *)
  match goal with |- context [for_ entities ?body ?init] =>
    destruct (for__prefix_total (indexed config) entities body init)
      as ([[A T] B] & -> & HI)
  end.
  { split_and!; try done.
    - constructor.
    - by intros ?? ?%elem_of_nil.
    - by intros ?? ?%elem_of_nil.
    - by intros ?? ?%elem_of_nil.
    - apply grouping_nil.
    - intros v n. split; [by intros ?%elem_of_nil|].
      by intros (? & ?%elem_of_nil & _). }
  { intros pre x [[A T] B] HI Hx. destruct (Hnames x Hx) as [n Hn].
    rewrite Hn. simpl. eexists. split; [done|]. by apply indexed_step. }
  simpl.
  pose proof (indexed_consistent _ _ _ _ _ HI Hcons) as Hfile.
  destruct HI as (HA & HA1 & HA2 & HT1 & HT2 & HB & HB1).
  assert (∀ v dn, dn ∈ members B v → ∃ e, e ∈ entities
            ∧ entity_name config.(id_attrs) e = Ok dn
            ∧ (∃ k, (k, v) ∈ get_attrs config.(synonymous_attrs) e)
            ∧ dict_get T dn = Some (type_ e)) as Hdst.
  { intros v dn (e & He & Hn & Hk)%HB1. exists e.
    repeat (split; [done|]). by apply Hfile. }
  (* the pairs filed by source and destination *)
  match goal with |- context [for_ A ?body ?init] =>
    destruct (for__extends A body
      (λ item key y, ∃ st k v dn dt,
         dict_get T item.1 = Some st ∧ (k, v) ∈ item.2
         ∧ dn ∈ members B v ∧ dn ≠ item.1 ∧ dict_get T dn = Some dt
         ∧ key = (st, item.1, dt, dn) ∧ y = (k, v)) init)
      as (attrs_ & -> & Hattrs_ & Hattrs)
  end.
  { apply grouping_nil. }
  { intros d [sn sa] Hd Hin. simpl.
    destruct (HA1 _ _ Hin) as (es & Hes & Hsn & ->).
    destruct (Hfile _ _ Hes Hsn) as [_ Hst]. rewrite Hst. simpl.
    match goal with |- context [for_ ?l ?body d] =>
      destruct (for__extends l body
        (λ kv key y, ∃ dn dt,
           dn ∈ members B kv.2 ∧ dn ≠ sn ∧ dict_get T dn = Some dt
           ∧ key = (type_ es, sn, dt, dn) ∧ y = kv) d Hd)
        as (d' & -> & Hd')
    end.
    - intros d1 [k v] Hd1 Hkv.
      match goal with |- context [for_ ?l ?body d1] =>
        destruct (for__extends l body
          (λ dn key y, ∃ dt, dict_get T dn = Some dt
             ∧ key = (type_ es, sn, dt, dn) ∧ y = (k, v)) d1 Hd1)
          as (d2 & -> & Hd2)
      end.
      + intros d3 dn Hd3 [Hdn Hne]%elem_of_set_discard.
        apply (proj1 (elem_of_set_of _ _)) in Hdn.
        destruct (Hdst _ _ Hdn) as (ed & _ & _ & _ & Hdt). rewrite Hdt. simpl.
        eexists. split; [done|].
        eapply extends_iff; [|by apply setdefault_add_extends].
        intros key y. simpl. split; [naive_solver|].
        by intros (dt & [= <-] & -> & ->).
      + exists d2. split; [done|]. eapply extends_iff; [|done].
        intros key y. simpl. split.
        * intros (dn & [Hdn Hne]%elem_of_set_discard & dt & ? & ? & ?).
          apply (proj1 (elem_of_set_of _ _)) in Hdn. by exists dn, dt.
        * intros (dn & dt & Hdn & ? & ? & ? & ?). exists dn.
          split; [|by exists dt]. apply elem_of_set_discard.
          split; [|done]. by apply (proj2 (elem_of_set_of _ _)).
    - exists d'. split; [done|]. eapply extends_iff; [|done].
      intros key y. simpl. split.
      + intros ([k v] & Hkv & dn & dt & ? & ? & ? & ? & ->).
        by exists (type_ es), k, v, dn, dt.
      + intros (st & k & v & dn & dt & [= <-] & ? & ? & ? & ? & -> & ->).
        exists (k, v). split; [done|]. by exists dn, dt. }
  simpl.
  (* the arrows *)
  rewrite (for__append_pure
    (λ '(st, sn, dt, dn, attrs),
       (λ '(k, v), mkArrow (slugify sn) (slugify dn) k (Some v) true st dt)
         <$> attrs)).
  2: { intros acc [[[[st sn] dt] dn] attrs] _.
       apply (for__append_each (λ '(k, v), _)). by intros acc' [k v] _. }
  eexists. split; [done|]. intros a. simpl. rewrite list_elem_of_bind. split.
  - intros ([[[[st sn] dt] dn] attrs] & Ha & Hin).
    apply list_elem_of_fmap in Ha as ([k v] & -> & Hkv).
    rewrite <- (members_elem_of _ _ _ Hattrs_ Hin) in Hkv.
    apply Hattrs in Hkv as [?%elem_of_nil|Hkv]; [done|].
    destruct Hkv as ([sn' sa] & HinA & st' & k0 & v0 & dn' & dt'
                     & Hst & Hkv & Hdn & Hne & Hdt & [= -> -> -> ->] & [= -> ->]).
    simpl in *. destruct (HA1 _ _ HinA) as (es & Hes & Hsn & ->).
    destruct (Hfile _ _ Hes Hsn) as [_ Hst']. rewrite Hst in Hst'.
    injection Hst' as ->.
    destruct (Hdst _ _ Hdn) as (ed & Hed & Hdname & [k' Hk'] & Hdt').
    rewrite Hdt in Hdt'. injection Hdt' as ->.
    exists es, ed, sn', dn', k0, v0, k'. by split_and!.
  - intros (es & ed & sn & dn & k & v & k' & Hes & Hed & Hsn & Hdn & Hne
            & Hkv & Hkv' & ->).
    destruct (Hfile _ _ Hes Hsn) as [HinA Hst].
    destruct (Hfile _ _ Hed Hdn) as [_ Hdt].
    assert ((k, v) ∈ members attrs_ (type_ es, sn, type_ ed, dn)) as Hm.
    { apply Hattrs. right. eexists (sn, _). split; [exact HinA|].
      exists (type_ es), k, v, dn, (type_ ed). simpl. split_and!; try done.
      apply HB1. exists ed. eauto. }
    apply members_lookup in Hm as (g & Hg & Hkvg).
    eexists (_, g). split; [|exact Hg]. simpl.
    apply list_elem_of_fmap. by exists (k, v).
Qed.

Lemma make_guessed_arrows_names config entities arrows :
  make_guessed_arrows_from_attr_string_values config entities = Ok arrows →
  ∀ e, e ∈ entities → ∃ n, entity_name config.(id_attrs) e = Ok n.
Proof.
  unfold make_guessed_arrows_from_attr_string_values.
  intros (indexes & Hidx & _)%bind_Ok e He.
  destruct (for__Ok_each _ _ _ _ e Hidx He) as ([[A T] B] & s' & Hbody).
  destruct (entity_name _ e) as [n|]; [by exists n|done].
Qed.

(** ** Combination *)

Lemma foldl_pair {A B C} (f : A → C → A) (g : B → C → B) a b (l : list C) :
  foldl (λ '(a, b) x, (f a x, g b x)) (a, b) l = (foldl f a l, foldl g b l).
Proof. revert a b. induction l as [|x l IH]; intros a b; simpl; auto. Qed.

Lemma foldl_append_if {A B} (h : A → option B) (l : list A) body acc :
  (∀ acc x, body acc x = match h x with Some y => acc ++ [y] | None => acc end) →
  foldl body acc l = acc ++ omap h l.
Proof.
  intros Hbody. revert acc. induction l as [|x l IH]; intros acc; csimpl.
  - by rewrite app_nil_r.
  - rewrite IH, Hbody. destruct (h x); [|done]. by rewrite <- app_assoc.
Qed.

Lemma make_index_spec l :
  let index := make_index l in
  grouping index.(by_src_dst_name_pairs)
  ∧ (∀ k a, a ∈ members index.(by_src_dst_name_pairs) k ↔
       a ∈ l ∧ directed_key a = k)
  ∧ grouping index.(by_undirected_src_dst_name_pairs)
  ∧ (∀ k a, a ∈ members index.(by_undirected_src_dst_name_pairs) k ↔
       a ∈ l ∧ undirected_key a = k).
Proof.
  unfold make_index.
  rewrite (foldl_pair (λ d a, setdefault_add d (a.(src_name), a.(dst_name)) a)
             (λ d a, setdefault_add d
                       (frozenset [a.(src_name); a.(dst_name)]) a)).
  simpl.
  destruct (foldl_extends l
    (λ d a, setdefault_add d (a.(src_name), a.(dst_name)) a)
    (λ a k y, k = directed_key a ∧ y = a) [] grouping_nil) as [HD1 HD2].
  { intros d a Hd _. by apply setdefault_add_extends. }
  destruct (foldl_extends l
    (λ d a, setdefault_add d (frozenset [a.(src_name); a.(dst_name)]) a)
    (λ a k y, k = undirected_key a ∧ y = a) [] grouping_nil) as [HU1 HU2].
  { intros d a Hd _. by apply setdefault_add_extends. }
  split_and!; try done.
  - intros k a. rewrite HD2. split.
    + by intros [?%elem_of_nil|(a' & ? & -> & ->)].
    + intros [? <-]. right. by exists a.
  - intros k a. rewrite HU2. split.
    + by intros [?%elem_of_nil|(a' & ? & -> & ->)].
    + intros [? <-]. right. by exists a.
Qed.

Lemma list_intersection_ext {A} `{EqDecision A} (g X Y : list A) :
  (∀ a, a ∈ g → a ∈ X ↔ a ∈ Y) →
  list_intersection g X = list_intersection g Y.
Proof.
  induction g as [|a g IH]; intros H; simpl; [done|].
  rewrite IH by (intros; apply H; by right).
  destruct (decide_rel elem_of a X) as [HX|HX],
           (decide_rel elem_of a Y) as [HY|HY]; try done.
  - destruct HY. apply H; [left|done].
  - destruct HX. apply H; [left|done].
Qed.

Lemma select_ext {K} (d : dict K (list Arrow)) X Y :
  (∀ k g a, (k, g) ∈ d → a ∈ g → a ∈ X ↔ a ∈ Y) → select d X = select d Y.
Proof.
  unfold select. induction d as [|[k g] d IH]; intros H; csimpl; [done|].
  rewrite IH by (intros; eapply H; [by right|done]).
  rewrite (list_intersection_ext g X Y); [done|].
  intros. eapply H; [left|done].
Qed.

Lemma elem_of_select {K} (d : dict K (list Arrow)) X k m :
  (k, m) ∈ select d X ↔
    ∃ g, (k, g) ∈ d ∧ m = list_intersection g X ∧ m ≠ [].
Proof.
  unfold select. rewrite list_elem_of_omap. split.
  - intros ([k' g] & Hin & Hsel).
    destruct (bool_decide _) eqn:Hlen; [|done]. injection Hsel as -> <-.
    exists g. split; [done|]. split; [done|].
    apply bool_decide_eq_true in Hlen. by intros Heq; rewrite Heq in Hlen.
  - intros (g & Hin & -> & Hne). exists (k, g). split; [done|].
    rewrite bool_decide_eq_true_2; [done|].
    by destruct (list_intersection g X).
Qed.

Lemma select_keys {K} (d : dict K (list Arrow)) X :
  (select d X).*1 `sublist_of` d.*1.
Proof.
  unfold select. induction d as [|[k g] d IH]; csimpl; [done|].
  destruct (bool_decide _); csimpl; by constructor.
Qed.

(** The first phase of [combine_arrows]: the groups are met one after the
    other, each with the arrows not grouped yet; as no arrow is in two
    groups, each group is met with all of its arrows. *)
Lemma grouped_by_undirected_spec (U : dict (list string) (list Arrow)) X groups :
  NoDup U.*1 →
  (∀ k g a, (k, g) ∈ U → a ∈ g → undirected_key a = k) →
  let '(groups', rest) :=
    foldl (λ '(groups, ungrouped) '(names, group),
      let matching := list_intersection group ungrouped in
      let ungrouped := list_difference ungrouped matching in
      if bool_decide (length matching ≠ 0)
      then (groups ++ [(names, matching)], ungrouped)
      else (groups, ungrouped))
      (groups, X) U in
  groups' = groups ++ select U X
  ∧ ∀ a, a ∈ rest ↔ a ∈ X ∧ ∀ k g, (k, g) ∈ U → a ∉ g.
Proof.
  revert X groups. induction U as [|[k g] U IH]; intros X groups HU Hkey; csimpl.
  - rewrite app_nil_r. split; [done|]. intros a. split; [|naive_solver].
    intros ?. split; [done|]. by intros ?? ?%elem_of_nil.
  - apply NoDup_cons in HU as [Hk HU].
    set (m := list_intersection g X). set (X1 := list_difference X m).
    assert (∀ a, a ∈ X1 ↔ a ∈ X ∧ a ∉ g) as HX1.
    { intros a. unfold X1, m.
      rewrite list_elem_of_difference, list_elem_of_intersection. naive_solver. }
    assert (select U X1 = select U X) as Hsel.
    { apply select_ext. intros k' g' a Hin Ha. rewrite HX1.
      split; [naive_solver|]. intros HaX. split; [done|]. intros Hag.
      apply Hk. rewrite <- (Hkey k g a); [|left|done].
      rewrite (Hkey k' g' a); [|by right|done].
      apply list_elem_of_fmap. by exists (k', g'). }
    assert (∀ a, (a ∈ X1 ∧ ∀ k' g', (k', g') ∈ U → a ∉ g')
                 ↔ a ∈ X ∧ ∀ k' g', (k', g') ∈ (k, g) :: U → a ∉ g') as Hrest.
    { intros a. rewrite HX1. split.
      - intros [[? ?] Hall]. split; [done|].
        intros k' g' [[= -> ->]|?]%elem_of_cons; [done|]. by eapply Hall.
      - intros [? Hall]. split; [split; [done|]|].
        + eapply Hall. left.
        + intros k' g' ?. eapply Hall. by right. }
    destruct (bool_decide (length m ≠ 0)).
    + specialize (IH X1 (groups ++ [(k, m)]) HU).
      destruct (foldl _ _ U) as [groups' rest].
      destruct IH as [-> IH]; [intros; eapply Hkey; [by right|done]|].
      split; [by rewrite Hsel, <- app_assoc|].
      intros a. by rewrite IH, Hrest.
    + specialize (IH X1 groups HU).
      destruct (foldl _ _ U) as [groups' rest].
      destruct IH as [-> IH]; [intros; eapply Hkey; [by right|done]|].
      split; [by rewrite Hsel|]. intros a. by rewrite IH, Hrest.
Qed.

Lemma make_label_ext m m' :
  (∀ a, a ∈ m ↔ a ∈ m') → make_label m = make_label m'.
Proof.
  intros H. unfold make_label. do 2 f_equal.
  apply (sorted_perm_eq Str.le), NoDup_Permutation;
    [apply NoDup_remove_dups..|].
  intros k. unfold set_of. rewrite !elem_of_remove_dups, !list_elem_of_fmap.
  by setoid_rewrite H.
Qed.

Lemma elem_of_undirected_group l k b :
  b ∈ undirected_group l k ↔ b ∈ l ∧ b.(guessed) = true ∧ undirected_key b = k.
Proof.
  unfold undirected_group.
  rewrite !list_elem_of_In, filter_In, andb_true_iff, bool_decide_eq_true.
  naive_solver.
Qed.

Lemma elem_of_directed_group l k b :
  b ∈ directed_group l k ↔ b ∈ l ∧ b.(guessed) = false ∧ directed_key b = k.
Proof.
  unfold directed_group.
  rewrite !list_elem_of_In, filter_In, andb_true_iff, bool_decide_eq_true,
    negb_true_iff.
  naive_solver.
Qed.

Lemma edge_of_ext l l' d : (∀ a, a ∈ l ↔ a ∈ l') → edge_of l d → edge_of l' d.
Proof.
  intros H [(a & n1 & n2 & Ha & Hg & Hk & ->)|(a & Ha & Hg & ->)]; [left|right].
  - exists a, n1, n2. split; [by apply H|]. split; [done|]. split; [done|].
    do 2 f_equal. apply make_label_ext. intros b.
    rewrite !elem_of_undirected_group. by rewrite H.
  - exists a. split; [by apply H|]. split; [done|].
    do 2 f_equal. apply make_label_ext. intros b.
    rewrite !elem_of_directed_group. by rewrite H.
Qed.

(** A frozenset of two names is a single name when they are equal, and the
    two names in ascending order otherwise. *)
Lemma undirected_key_cases a :
  (a.(src_name) = a.(dst_name) ∧ undirected_key a = [a.(src_name)])
  ∨ (a.(src_name) ≠ a.(dst_name)
     ∧ ∃ n1 n2, undirected_key a = [n1; n2] ∧ Str.le n1 n2).
Proof.
  unfold undirected_key, frozenset. simpl.
  destruct (decide_rel elem_of (src_name a) [dst_name a])
    as [Heq%list_elem_of_singleton|Hne].
  - left. split; [done|]. by rewrite Heq.
  - right. split; [by intros ?; apply Hne, list_elem_of_singleton|].
    rewrite sorted_pair. destruct (decide (Str.le (src_name a) (dst_name a))).
    + by eexists _, _.
    + eexists _, _. split; [done|].
      by destruct (total Str.le (src_name a) (dst_name a)).
Qed.

Lemma dict_functional {K V} `{EqDecision K} (d : dict K V) k v v' :
  NoDup d.*1 → (k, v) ∈ d → (k, v') ∈ d → v = v'.
Proof.
  intros Hd H1%(elem_of_dict_get _ _ _ Hd) H2%(elem_of_dict_get _ _ _ Hd).
  rewrite H1 in H2. by injection H2.
Qed.

Lemma DotArrow_make_sorted s d l :
  Str.le s d → DotArrow_make s d l true = mkDotArrow s d l true.
Proof. intros H. rewrite DotArrow_make_true. by destruct (decide (Str.le s d)). Qed.

Lemma foldl_append_ext {A B} (f : A → B) (l : list A) body acc :
  (∀ acc x, body acc x = acc ++ [f x]) →
  foldl body acc l = acc ++ (f <$> l).
Proof.
  intros Hbody. revert acc. induction l as [|x l IH]; intros acc; csimpl.
  - by rewrite app_nil_r.
  - by rewrite IH, Hbody, <- app_assoc.
Qed.

(** [combine_arrows], with its two groupings in closed form. *)
Lemma combine_arrows_unfold rules l :
  let index := make_index l in
  ∃ X Y,
    (∀ a, a ∈ X ↔ a ∈ l ∧ a.(guessed) = true)
    ∧ (∀ a, a ∈ Y ↔ a ∈ l ∧ a.(guessed) = false)
    ∧ combine_arrows rules l =
        (r <- for_ (select index.(by_undirected_src_dst_name_pairs) X)
                (λ r '(names, group),
                   match names with
                   | [name1; name2] =>
                       let label := make_label group in
                       Ok (r ++ [DotArrow_make name1 name2 (Some label) true])
                   | _ => Raise ValueError
                   end) [];;
         Ok (r ++ (directed_edge <$> select index.(by_src_dst_name_pairs) Y))).
Proof.
  intros index.
  destruct (make_index_spec l) as (HD & HDm & HU & HUm).
  fold index in HD, HDm, HU, HUm.
  unfold combine_arrows, grouped_by_undirected_edge_and_value,
    grouped_by_directed_edge. fold index.
  set (D := by_src_dst_name_pairs index) in *.
  set (U := by_undirected_src_dst_name_pairs index) in *.
  set (G := List.filter guessed (set_of l)).
  set (N := list_difference (set_of l) G).
  assert (∀ a, a ∈ G ↔ a ∈ l ∧ a.(guessed) = true) as HG0.
  { intros a. unfold G. rewrite list_elem_of_In, filter_In, <- list_elem_of_In.
    by rewrite elem_of_set_of. }
  assert (∀ a, a ∈ set_of G ↔ a ∈ l ∧ a.(guessed) = true) as HG.
  { intros a. by rewrite elem_of_set_of. }
  assert (∀ a, a ∈ N ↔ a ∈ l ∧ a.(guessed) = false) as HN.
  { intros a. unfold N. rewrite list_elem_of_difference, HG0, elem_of_set_of.
    destruct (guessed a); naive_solver. }
  assert (∀ k g a, (k, g) ∈ U → a ∈ g → undirected_key a = k) as HUkey.
  { intros k g a Hkg Ha. apply HUm. by rewrite (members_elem_of _ _ _ HU Hkg). }
  pose proof (grouped_by_undirected_spec U (set_of G) [] (proj1 HU) HUkey) as Hg.
  destruct (foldl _ _ U) as [groups rest]. destruct Hg as [-> Hrest].
  assert (∀ a, a ∉ rest) as Hrest0.
  { intros a [[Hal _]%HG Hnone]%Hrest.
    destruct (members_lookup U (undirected_key a) a) as (g & Hg & Hag);
      [by apply HUm|]. by eapply Hnone. }
  simpl.
  rewrite (foldl_append_if
    (λ '(k, g),
       let matching := list_intersection g (list_union rest N) in
       if bool_decide (length matching ≠ 0) then Some (k, matching) else None)
    D).
  2: { intros acc [k g]. simpl. by destruct (bool_decide _). }
  exists (set_of G), (list_union rest N). split; [done|]. split.
  - intros a. rewrite list_elem_of_union, HN. split; [|naive_solver].
    intros [?%Hrest0|?]; done.
  - apply bind_ext. intros r.
    rewrite (foldl_append_ext directed_edge); [done|]. by intros acc [[s d] g].
Qed.

(** [combine_arrows] needs the guessed arrows to join two different nodes. *)
Lemma combine_arrows_Ok rules l r a :
  combine_arrows rules l = Ok r →
  a ∈ l → a.(guessed) = true → a.(src_name) ≠ a.(dst_name).
Proof.
  destruct (combine_arrows_unfold rules l) as (X & Y & HX & HY & ->).
  intros (r0 & Hr0 & _)%bind_Ok Ha Hg Heq.
  destruct (make_index_spec l) as (_ & _ & HU & HUm).
  destruct (members_lookup (by_undirected_src_dst_name_pairs (make_index l))
              (undirected_key a) a) as (g & Hkg & Hag);
    [by apply HUm|].
  assert ((undirected_key a, list_intersection g X)
            ∈ select (by_undirected_src_dst_name_pairs (make_index l)) X) as Hin.
  { apply elem_of_select. exists g. split; [done|]. split; [done|].
    intros Hnil. assert (a ∈ list_intersection g X) as Hai.
    { apply list_elem_of_intersection. split; [done|]. by apply HX. }
    rewrite Hnil in Hai. by apply elem_of_nil in Hai. }
  destruct (for__Ok_each _ _ _ _ _ Hr0 Hin) as (s & s' & Hbody).
  simpl in Hbody.
  destruct (undirected_key_cases a) as [[_ Hk]|[Hne _]]; [|done].
  by rewrite Hk in Hbody.
Qed.

(** When they do, [combine_arrows] returns the edges of [edge_of], each
    one once. *)
Lemma combine_arrows_spec rules l :
  (∀ a, a ∈ l → a.(guessed) = true → a.(src_name) ≠ a.(dst_name)) →
  ∃ r, combine_arrows rules l = Ok r ∧ NoDup r ∧ ∀ d, d ∈ r ↔ edge_of l d.
Proof.
  intros Hloop.
  destruct (combine_arrows_unfold rules l) as (X & Y & HX & HY & ->).
  destruct (make_index_spec l) as (HD & HDm & HU & HUm).
  set (D := by_src_dst_name_pairs (make_index l)) in *.
  set (U := by_undirected_src_dst_name_pairs (make_index l)) in *.
  assert (∀ k m, (k, m) ∈ select U X →
            ∃ a n1 n2, a ∈ l ∧ a.(guessed) = true ∧ undirected_key a = k
              ∧ k = [n1; n2] ∧ Str.le n1 n2
              ∧ ∀ b, b ∈ m ↔ b ∈ undirected_group l k) as HselU.
  { intros k m (g & Hkg & -> & Hne)%elem_of_select.
    pose proof (members_elem_of _ _ _ HU Hkg) as Hmem.
    destruct (list_intersection g X) as [|a m'] eqn:Hm; [done|].
    assert (a ∈ list_intersection g X) as Ha by (rewrite Hm; left).
    rewrite <- Hm. clear Hm Hne.
    apply list_elem_of_intersection in Ha as [Hag [Hal Hguess]%HX].
    rewrite <- Hmem in Hag. apply HUm in Hag as [_ Hk].
    destruct (undirected_key_cases a) as [[Heq _]|[_ (n1 & n2 & Hk' & Hle)]];
      [by destruct (Hloop a)|].
    exists a, n1, n2. split_and!; try done; [congruence|].
    intros b.
    rewrite list_elem_of_intersection, elem_of_undirected_group, HX, <- Hmem, HUm.
    tauto. }
  assert (∀ k m, (k, m) ∈ select D Y →
            ∃ a, a ∈ l ∧ a.(guessed) = false ∧ directed_key a = k
              ∧ ∀ b, b ∈ m ↔ b ∈ directed_group l k) as HselD.
  { intros k m (g & Hkg & -> & Hne)%elem_of_select.
    pose proof (members_elem_of _ _ _ HD Hkg) as Hmem.
    destruct (list_intersection g Y) as [|a m'] eqn:Hm; [done|].
    assert (a ∈ list_intersection g Y) as Ha by (rewrite Hm; left).
    rewrite <- Hm. clear Hm Hne.
    apply list_elem_of_intersection in Ha as [Hag [Hal Hguess]%HY].
    rewrite <- Hmem in Hag. apply HDm in Hag as [_ Hk].
    exists a. split_and!; try done.
    intros b.
    rewrite list_elem_of_intersection, elem_of_directed_group, HY, <- Hmem, HDm.
    tauto. }
  rewrite (for__append_each undirected_edge).
  2: { by intros acc [k m] (a & n1 & n2 & _ & _ & _ & -> & _)%HselU. }
  simpl. eexists. split; [done|]. split.
  - apply NoDup_app. split; [|split].
    + apply NoDup_fmap_2_strong.
      * intros [k m] [k' m'] Hin Hin' Heq.
        destruct (HselU _ _ Hin) as (_ & n1 & n2 & _ & _ & _ & -> & Hle & _).
        destruct (HselU _ _ Hin') as (_ & n1' & n2' & _ & _ & _ & -> & Hle' & _).
        unfold undirected_edge in Heq. simpl in Heq.
        rewrite !DotArrow_make_sorted in Heq by done. injection Heq as -> -> _.
        f_equal. refine (dict_functional _ _ _ _ _ Hin Hin').
        eapply sublist_NoDup; [apply HU|apply select_keys].
      * apply (NoDup_fmap_1 fst). eapply sublist_NoDup; [apply HU|apply select_keys].
    + intros d [x [-> Hx]]%list_elem_of_fmap [y [Heq Hy]]%list_elem_of_fmap.
      apply (f_equal bidirectional) in Heq. unfold undirected_edge, directed_edge in Heq.
      rewrite (proj1 (DotArrow_make_canonical _ _ _ true)) in Heq.
      by rewrite (proj1 (DotArrow_make_canonical _ _ _ false)) in Heq.
    + apply NoDup_fmap_2_strong.
      * intros [[s t] m] [[s' t'] m'] Hin Hin' Heq.
        unfold directed_edge in Heq. simpl in Heq. injection Heq as -> -> _.
        f_equal. refine (dict_functional _ _ _ _ _ Hin Hin').
        eapply sublist_NoDup; [apply HD|apply select_keys].
      * apply (NoDup_fmap_1 fst). eapply sublist_NoDup; [apply HD|apply select_keys].
  - intros d. rewrite elem_of_app, !list_elem_of_fmap. split.
    + intros [([k m] & -> & Hin)|([[s t] m] & -> & Hin)].
      * left. destruct (HselU _ _ Hin) as (a & n1 & n2 & Hal & Hg & <- & Hk & _ & Hm).
        exists a, n1, n2. split_and!; try done.
        unfold undirected_edge. simpl. rewrite Hk at 1 2. simpl.
        do 2 f_equal. by apply make_label_ext.
      * right. destruct (HselD _ _ Hin) as (a & Hal & Hg & Hk & Hm).
        exists a. split_and!; try done. unfold directed_edge. simpl.
        rewrite Hk. unfold directed_key in Hk. injection Hk as -> ->.
        do 2 f_equal. by apply make_label_ext.
    + intros [(a & n1 & n2 & Hal & Hg & Hk & ->)|(a & Hal & Hg & ->)].
      * left.
        destruct (members_lookup U (undirected_key a) a) as (g & Hkg & Hag);
          [by apply HUm|].
        assert ((undirected_key a, list_intersection g X) ∈ select U X) as Hin.
        { apply elem_of_select. exists g. split; [done|]. split; [done|].
          intros Hnil. assert (a ∈ list_intersection g X) as Hai.
          { apply list_elem_of_intersection. split; [done|]. by apply HX. }
          rewrite Hnil in Hai. by apply elem_of_nil in Hai. }
        eexists. split; [|exact Hin].
        destruct (HselU _ _ Hin) as (_ & _ & _ & _ & _ & _ & _ & _ & Hm).
        unfold undirected_edge. simpl. rewrite Hk in Hm |- *. simpl.
        do 2 f_equal. symmetry. by apply make_label_ext.
      * right.
        destruct (members_lookup D (directed_key a) a) as (g & Hkg & Hag);
          [by apply HDm|].
        assert ((directed_key a, list_intersection g Y) ∈ select D Y) as Hin.
        { apply elem_of_select. exists g. split; [done|]. split; [done|].
          intros Hnil. assert (a ∈ list_intersection g Y) as Hai.
          { apply list_elem_of_intersection. split; [done|]. by apply HY. }
          rewrite Hnil in Hai. by apply elem_of_nil in Hai. }
        eexists. split; [|exact Hin].
        destruct (HselD _ _ Hin) as (_ & _ & _ & _ & Hm).
        unfold directed_edge. simpl.
        do 2 f_equal. symmetry. by apply make_label_ext.
Qed.

(** ** The order of the entities *)

Lemma for__collect {A B} (body : list B → A → result (list B)) l acc r :
  appending body →
  for_ l body acc = Ok r ↔
    ∃ yss, Forall2 (λ x ys, body [] x = Ok ys) l yss ∧ r = acc ++ concat yss.
Proof.
  intros Hbody. revert acc. induction l as [|x l IH]; intros acc; simpl.
  - split.
    + intros [= <-]. exists []. split; [constructor|by rewrite app_nil_r].
    + intros (yss & ->%Forall2_nil_inv_l & ->). by rewrite app_nil_r.
  - rewrite bind_Ok. split.
    + intros (acc1 & (ys & Hys & ->)%Hbody & (yss & Hyss & ->)%IH).
      exists (ys :: yss). split; [by constructor|]. by rewrite <- app_assoc.
    + intros (yss & (ys & yss' & Hys & Hyss & ->)%Forall2_cons_inv_l & ->).
      exists (acc ++ ys). split; [apply Hbody; eauto|].
      apply IH. exists yss'. split; [done|]. simpl. by rewrite <- app_assoc.
Qed.

Lemma appending_for {A B C} (h : A → list C)
    (inner : A → list B → C → result (list B)) :
  (∀ x, appending (inner x)) →
  appending (λ acc x, for_ (h x) (inner x) acc).
Proof.
  intros Hinner acc x r. rewrite (for__collect _ _ _ _ (Hinner x)). split.
  - intros (yss & Hyss & ->). exists (concat yss). split; [|done].
    apply (for__collect _ _ _ _ (Hinner x)). by exists yss.
  - intros (ys & (yss & Hyss & ->)%(for__collect _ _ _ _ (Hinner x)) & ->).
    by exists yss.
Qed.

Lemma Forall2_perm_l {A B} (R : A → B → Prop) l l' k :
  l ≡ₚ l' → Forall2 R l k → ∃ k', k ≡ₚ k' ∧ Forall2 R l' k'.
Proof.
  intros Hp. revert k. induction Hp as [|x l l' Hp IH|x y l|l1 l2 l3 _ IH1 _ IH2];
    intros k.
  - intros ->%Forall2_nil_inv_l. by exists [].
  - intros (y & k0 & Hy & Hk0 & ->)%Forall2_cons_inv_l.
    destruct (IH _ Hk0) as (k' & Hk' & HF). exists (y :: k').
    split; [by constructor|by constructor].
  - intros (y1 & k0 & Hy1 & (y2 & k1 & Hy2 & Hk1 & ->)%Forall2_cons_inv_l & ->)
      %Forall2_cons_inv_l.
    exists (y2 :: y1 :: k1). split; [apply perm_swap|by repeat constructor].
  - intros Hk. destruct (IH1 _ Hk) as (k2 & Hk2 & HF2).
    destruct (IH2 _ HF2) as (k3 & Hk3 & HF3). exists k3.
    split; [by etrans|done].
Qed.

Lemma concat_perm {A} (k k' : list (list A)) : k ≡ₚ k' → concat k ≡ₚ concat k'.
Proof.
  induction 1 as [|x l l' Hp IH|x y l|l1 l2 l3 _ IH1 _ IH2]; simpl.
  - done.
  - by rewrite IH.
  - rewrite !app_assoc. by rewrite (Permutation_app_comm y x).
  - by etrans.
Qed.

(** A loop that collects what its body appends returns the same elements
    when the list it runs over is rearranged. *)
Lemma for__perm {A B} (body : list B → A → result (list B)) l l' acc r :
  appending body → l ≡ₚ l' →
  for_ l body acc = Ok r → ∃ r', for_ l' body acc = Ok r' ∧ r ≡ₚ r'.
Proof.
  intros Hbody Hp (yss & Hyss & ->)%(for__collect _ _ _ _ Hbody).
  destruct (Forall2_perm_l _ _ _ _ Hp Hyss) as (yss' & Hpy & Hyss').
  exists (acc ++ concat yss'). split; [apply (for__collect _ _ _ _ Hbody); eauto|].
  by rewrite (concat_perm _ _ Hpy).
Qed.

Lemma make_arrows_from_python_refs_perm config entities entities' arrows :
  entities ≡ₚ entities' →
  make_arrows_from_python_refs config entities = Ok arrows →
  ∃ arrows', make_arrows_from_python_refs config entities' = Ok arrows'
             ∧ arrows ≡ₚ arrows'.
Proof.
  unfold make_arrows_from_python_refs. intros Hp. apply for__perm; [|done].
  apply (appending_for (get_children config.(attrs_with_child_refs))
           (λ entity arrows yielded, _)).
  intros entity acc [[attr_name child]|e] r; simpl; [|naive_solver].
  destruct (entity_name _ entity); simpl; [|naive_solver].
  destruct (entity_name _ child); simpl; naive_solver.
Qed.

Lemma guessed_between_perm config entities entities' a :
  entities ≡ₚ entities' →
  guessed_between config entities a → guessed_between config entities' a.
Proof.
  intros Hp (es & ed & sn & dn & k & v & k' & Hes & Hed & H).
  exists es, ed, sn, dn, k, v, k'. by rewrite <- Hp.
Qed.

Lemma consistent_names_perm config entities entities' :
  entities ≡ₚ entities' →
  consistent_names config entities → consistent_names config entities'.
Proof. intros Hp Hcons e1 e2 n H1 H2. apply Hcons; by rewrite Hp. Qed.

(** Entities of pairwise different names are consistent. *)
Lemma consistent_names_NoDup config entities names :
  names_of config entities names → NoDup names →
  consistent_names config entities.
Proof.
  unfold names_of. intros HF Hnd e1 e2 n H1 H2 Hn1 Hn2.
  cut (e1 = e2); [by intros ->|].
  apply list_elem_of_lookup in H1 as [i Hi], H2 as [j Hj].
  destruct (Forall2_lookup_l _ _ _ _ _ HF Hi) as (n1 & Hni & Hn1').
  destruct (Forall2_lookup_l _ _ _ _ _ HF Hj) as (n2 & Hnj & Hn2').
  rewrite Hn1 in Hn1'. injection Hn1' as <-.
  rewrite Hn2 in Hn2'. injection Hn2' as <-.
  assert (i = j) as -> by (eapply NoDup_lookup; done).
  rewrite Hi in Hj. by injection Hj.
Qed.

Lemma diagram_permutation_Ok config entities entities' out :
  entities ≡ₚ entities' →
  consistent_names config entities →
  diagram config entities = Ok out →
  diagram config entities' = Ok out.
Proof.
  intros Hp Hcons (arrows & dots & names & Ha & Hd & Hn & ->)%diagram_Ok.
  apply diagram_Ok.
  unfold make_arrows in Ha.
  apply bind_Ok in Ha as (g & Hg & (p & Hrefs & [= <-])%bind_Ok).
  pose proof (make_guessed_arrows_names _ _ _ Hg) as Hnamed.
  destruct (make_guessed_arrows_spec config entities Hnamed Hcons)
    as (g0 & Hg0 & Hgm).
  rewrite Hg in Hg0. injection Hg0 as <-.
  destruct (make_guessed_arrows_spec config entities') as (g' & Hg' & Hgm').
  { intros e He. apply Hnamed. by rewrite Hp. }
  { by apply (consistent_names_perm _ entities). }
  destruct (make_arrows_from_python_refs_perm _ _ _ _ Hp Hrefs)
    as (p' & Hrefs' & Hpp).
  assert (∀ a, a ∈ g ++ p ↔ a ∈ g' ++ p') as Hsame.
  { intros a. rewrite !elem_of_app, Hgm, Hgm', Hpp.
    split; (intros [?|?]; [left|by right]);
      by eapply guessed_between_perm. }
  destruct (combine_arrows_spec (make_rules config) (g ++ p))
    as (r & Hr & Hnd & Hrm).
  { intros a. by eapply combine_arrows_Ok. }
  rewrite Hd in Hr. injection Hr as <-.
  destruct (combine_arrows_spec (make_rules config) (g' ++ p'))
    as (r' & Hr' & Hnd' & Hrm').
  { intros a Ha. eapply combine_arrows_Ok; [done|]. by apply Hsame. }
  assert (dots ≡ₚ r') as Hdots.
  { apply NoDup_Permutation; [done..|]. intros d. rewrite Hrm, Hrm'.
    split; apply edge_of_ext; [done|]. intros a. symmetry. apply Hsame. }
  destruct (Forall2_perm_l _ _ _ _ Hp Hn) as (names' & Hnn & Hn').
  exists (g' ++ p'), r', names'. split_and!; try done.
  - unfold make_arrows. by rewrite Hg', Hrefs'.
  - f_equal.
    + apply (sorted_perm_eq Str.le).
      apply NoDup_Permutation; [apply NoDup_remove_dups..|].
      intros x. by rewrite !elem_of_remove_dups, Hnn.
    + f_equal. by apply (sorted_perm_eq DotArrow_le).
Qed.

(** C1, as the code has it.  The model is a function: two invocations on
    the same list return the same lines.  A rearrangement of the list is
    built exactly when the list is, and into the same lines, as long as
    the entities that have the same name have the same type and the same
    attributes, which is so when no two entities have the same name. *)
Theorem diagram_permutation config entities entities' out :
  entities ≡ₚ entities' →
  consistent_names config entities →
  diagram config entities = Ok out ↔ diagram config entities' = Ok out.
Proof.
  intros Hp Hcons. split.
  - by apply diagram_permutation_Ok.
  - apply diagram_permutation_Ok; [done|].
    by apply (consistent_names_perm _ entities).
Qed.

Lemma diagram_permutation_witness :
  diagram Fixtures.widgets_config
    [Fixtures.lozenge "1" "1"; Fixtures.widget "1" "1" "1"]
  = Ok ["lozenge_1"; "widget_1"; arrow_line Fixtures.widget_lozenge_edge].
Proof.
  apply (diagram_permutation Fixtures.widgets_config
           [Fixtures.widget "1" "1" "1"; Fixtures.lozenge "1" "1"]).
  - apply perm_swap.
  - apply (consistent_names_NoDup _ _ ["Widget_1"; "Lozenge_1"]).
    + repeat constructor.
    + apply NoDup_cons.
      split; [by intros [=]%list_elem_of_singleton|apply NoDup_singleton].
  - vm_compute. reflexivity.
Defined.

(** The claim C1 as stated fails: two widgets have the name [Widget_1] and
    different values of [part]; the attributes of the one that comes last
    are those filed under the name, and the edge to the lozenge has a
    label or another. *)
Lemma duplicate_names_order_matters :
  let entities := [DuplicateFixtures.first_widget;
                   DuplicateFixtures.second_widget;
                   DuplicateFixtures.the_lozenge] in
  let entities' := [DuplicateFixtures.second_widget;
                    DuplicateFixtures.first_widget;
                    DuplicateFixtures.the_lozenge] in
  entities ≡ₚ entities'
  ∧ diagram Fixtures.widgets_config entities
    = Ok ["lozenge_2"; "widget_1";
          arrow_line (mkDotArrow "lozenge_2" "widget_1" (Some "widget") true)]
  ∧ diagram Fixtures.widgets_config entities'
    = Ok ["lozenge_2"; "widget_1";
          arrow_line (mkDotArrow "lozenge_2" "widget_1"
                        (Some "part<br/>widget") true)]
  ∧ diagram Fixtures.widgets_config entities
    ≠ diagram Fixtures.widgets_config entities'.
Proof.
  cbv zeta. split; [apply perm_swap|].
  split; [vm_compute; reflexivity|]. split; [vm_compute; reflexivity|].
  vm_compute. discriminate.
Qed.

(** * Further properties *)

(** ** The shape of a slug *)

Section slug_shape.
Import Str.

Ltac by_char_cases c :=
  destruct c as [[] [] [] [] [] [] [] []]; vm_compute; intuition congruence.

Lemma slug_char_shape c :
  slug_char c = true →
  is_lower (sp2us c) || is_digit (sp2us c) || Ascii.eqb (sp2us c) "_" = true.
Proof. by_char_cases c. Qed.

Lemma slug_char_underscore c :
  slug_char c = true → sp2us c = "_"%char → is_space c = true.
Proof. by_char_cases c. Qed.

Lemma rstrip_last p s c : last (rstrip p s) = Some c → p c = false.
Proof.
  induction s as [|x r IH]; simpl; [done|].
  destruct (rstrip p r) as [|y r'] eqn:Hr.
  - destruct (p x) eqn:Hx; simpl; [done|]. by intros [= <-].
  - rewrite last_cons. destruct (last (y :: r')) eqn:Hl; [intros [= <-]; auto|].
    by apply last_None in Hl.
Qed.

Lemma single_spaced_adjacent b v i c c' :
  single_spaced b v = true →
  v !! i = Some c → v !! S i = Some c' →
  is_space c = true → is_space c' = false.
Proof.
  revert b i. induction v as [|x r IH]; intros b i Hv; [done|].
  simpl in Hv. destruct i as [|i]; simpl.
  - intros [= ->] Hc' Hc. rewrite Hc in Hv.
    apply andb_true_iff in Hv as [_ Hr].
    destruct r as [|y r]; [done|]. simpl in Hc'. injection Hc' as ->.
    simpl in Hr. destruct (is_space c'); [|done].
    by rewrite andb_false_r in Hr.
  - destruct (is_space x).
    + apply andb_true_iff in Hv as [_ Hr]. by apply (IH true).
    + by apply (IH false).
Qed.

(** A slug is made of the characters of a single-spaced, stripped string,
    its spaces turned into underscores. *)
Lemma slugify_chars_normal s :
  ∃ v, slugify_chars s = sp2us <$> v
       ∧ Forall (λ c, slug_char c = true) v
       ∧ single_spaced false v = true
       ∧ starts_clean v = true
       ∧ ∀ c, last v = Some c → is_space c = false.
Proof.
  rewrite slugify_chars_steps.
  set (u := us2sp <$> List.filter is_word (to_sep <$> s)).
  exists (strip (sub_spaces u)). split; [done|]. split_and!.
  - apply Forall_rstrip, Forall_lstrip, Forall_sub_spaces_from; [done|].
    unfold u. apply Forall_fmap, Forall_forall. intros c Hc.
    apply list_elem_of_In, filter_In in Hc as [Hin Hw].
    apply list_elem_of_In, list_elem_of_fmap in Hin as [c0 [-> _]].
    by apply to_sep_slug_char.
  - apply rstrip_single_spaced, (lstrip_single_spaced false).
    apply sub_spaces_from_single_spaced.
  - apply rstrip_starts_clean, lstrip_starts_clean.
  - intros c. apply rstrip_last.
Qed.

Lemma to_list_of_list l : to_list (of_list l) = l.
Proof. apply String.list_ascii_of_string_of_list_ascii. Qed.


Lemma to_sep_separator sep :
  sep ∈ [" "; "-"; "."; "/"; "_"]%char → to_sep sep = "_"%char.
Proof.
  intros H. repeat (apply elem_of_cons in H as [->|H]; [done|]).
  by apply elem_of_nil in H.
Qed.

Lemma to_sep_lower c : to_sep (lower_char c) = to_sep c.
Proof. by_char_cases c. Qed.

Lemma slugify_chars_ext (f : ascii → ascii) l :
  (∀ c, to_sep (f c) = to_sep c) → slugify_chars (f <$> l) = slugify_chars l.
Proof.
  intros Hf. rewrite !slugify_chars_steps, <- list_fmap_compose.
  do 5 f_equal. apply list_fmap_ext. intros _ c _. apply Hf.
Qed.


End slug_shape.

(** ** The outcomes of [entity_name] *)

Lemma join_loop_outcomes items acc :
  (∃ parts, for_ items (λ parts x, s <- as_str x;; Ok (parts ++ [s])) acc
            = Ok parts)
  ∨ for_ items (λ parts x, s <- as_str x;; Ok (parts ++ [s])) acc
    = Raise TypeError.
Proof.
  revert acc. induction items as [|x items IH]; intros acc; simpl; [eauto|].
  destruct x; simpl; auto.
Qed.

Lemma get_by_type_Some {V} (d : dict class V) entity v :
  get_by_type d (type_ entity) = Some v →
  ∃ c attributes, entity = PObject c attributes.
Proof. destruct entity; try done. eauto. Qed.


(** ** What attribute extraction keeps *)

Lemma filter_out_eq synonymous_attrs entity attrs :
  filter_out_synonymous_attributes synonymous_attrs entity attrs
  = keep_first_synonym
      (default [] (get_by_type synonymous_attrs (type_ entity))) false attrs.
Proof.
  destruct (get_by_type synonymous_attrs (type_ entity)) as [synonyms|] eqn:Hsyn.
  { by apply filter_out_keep_first. }
  unfold filter_out_synonymous_attributes. rewrite Hsyn. simpl.
  cut (∀ (seen : list string) (filtered : list (string * string)),
         foldl (λ '(seen, filtered) '(k, v),
           if decide (k ∈ ([] : list string)) then (seen, filtered)
           else (seen, filtered ++ [(k, v)])) (seen, filtered) attrs
         = (seen, filtered ++ keep_first_synonym [] false attrs)).
  { intros H. by rewrite H. }
  induction attrs as [|[k v] attrs IH]; intros seen filtered; simpl.
  - by rewrite app_nil_r.
  - destruct (decide (k ∈ [])) as [?%elem_of_nil|]; [done|].
    by rewrite IH, <- app_assoc.
Qed.

Lemma keep_first_sublist synonyms found attrs :
  keep_first_synonym synonyms found attrs `sublist_of` attrs.
Proof.
  revert found. induction attrs as [|[k v] attrs IH]; intros found; simpl.
  - constructor.
  - destruct (decide (k ∈ synonyms)), found; by constructor.
Qed.

Lemma keep_first_found synonyms found attrs :
  keep_first_synonym synonyms found (keep_first_synonym synonyms true attrs)
  = keep_first_synonym synonyms true attrs.
Proof.
  induction attrs as [|[k v] attrs IH]; simpl; [done|].
  destruct (decide (k ∈ synonyms)) as [Hk|Hk]; [done|].
  simpl. rewrite decide_False by done. by rewrite IH.
Qed.

Lemma keep_first_idemp synonyms attrs :
  keep_first_synonym synonyms false (keep_first_synonym synonyms false attrs)
  = keep_first_synonym synonyms false attrs.
Proof.
  induction attrs as [|[k v] attrs IH]; simpl; [done|].
  destruct (decide (k ∈ synonyms)) as [Hk|Hk]; simpl.
  - rewrite decide_True by done. by rewrite keep_first_found.
  - rewrite decide_False by done. by rewrite IH.
Qed.

Lemma filter_out_synonyms_listing synonymous_attrs entity attrs :
  filter_out_synonymous_attributes synonymous_attrs entity attrs
    `sublist_of` attrs.
Proof. rewrite filter_out_eq. apply keep_first_sublist. Qed.

(** X4. [filter_out_synonymous_attributes] only removes pairs: what it
    returns is the listing with some pairs left out, in the same order.  It
    returns the listing unchanged when the type of the entity has no
    synonyms, and filtering twice is filtering once. *)
Theorem filter_out_synonyms_sublist synonymous_attrs entity attrs :
  let kept := filter_out_synonymous_attributes synonymous_attrs entity attrs in
  kept `sublist_of` attrs
  ∧ (default [] (get_by_type synonymous_attrs (type_ entity)) = [] →
     kept = attrs)
  ∧ filter_out_synonymous_attributes synonymous_attrs entity kept = kept.
Proof.
  cbv zeta. rewrite !filter_out_eq. split_and!.
  - apply keep_first_sublist.
  - intros ->. induction attrs as [|[k v] attrs IH]; simpl; [done|].
    destruct (decide (k ∈ [])) as [?%elem_of_nil|]; [done|]. by rewrite IH.
  - apply keep_first_idemp.
Qed.

Lemma filter_out_synonyms_sublist_witness :
  filter_out_synonymous_attributes [] (Fixtures.widget "1" "2" "3")
    [("ref", "1"); ("lozenge", "2")]
  = [("ref", "1"); ("lozenge", "2")].
Proof.
  apply (filter_out_synonyms_sublist [] (Fixtures.widget "1" "2" "3")).
  reflexivity.
Defined.

Lemma elem_of_getmembers entity name value :
  (name, value) ∈ getmembers entity →
  (name, value) ∈ attributes_of entity ∧ isroutine value = false.
Proof.
  destruct entity; simpl; try by intros ?%elem_of_nil.
  unfold sorted. rewrite merge_sort_Permutation.
  rewrite list_elem_of_In, filter_In, <- list_elem_of_In, negb_true_iff.
  naive_solver.
Qed.


(** ** Arrows of declared references *)

(** X6. When no entity of the list has a type with declared child
    references, [make_arrows_from_python_refs] returns no arrow, and does
    not fail, whether the identities of the entities resolve or not. *)
Theorem no_child_refs_no_arrows config entities :
  (∀ e, e ∈ entities →
     default [] (get_by_type config.(attrs_with_child_refs) (type_ e)) = []) →
  make_arrows_from_python_refs config entities = Ok [].
Proof.
  unfold make_arrows_from_python_refs, get_children.
  induction entities as [|e entities IH]; intros H; simpl; [done|].
  rewrite (H e) by left. simpl. apply IH. intros. apply H. by right.
Qed.

Lemma no_child_refs_no_arrows_witness :
  make_arrows_from_python_refs Fixtures.widgets_config
    [Fixtures.widget "1" "1" "1"; PNone; Fixtures.child "c"]
  = Ok [].
Proof.
  apply (no_child_refs_no_arrows Fixtures.widgets_config).
  intros e _. by destruct e.
Defined.

(** ** The two kinds of arrows *)

Lemma ensures_any {A} (m : result A) : ensures (λ _, True) (λ _, True) m.
Proof. by destruct m. Qed.


(** ** Which arrows are guessed *)

(** X8. When the entities of a name agree on type and attributes,
    [make_guessed_arrows_from_attr_string_values] succeeds exactly when the
    name of every entity resolves, and then there is an arrow from a source
    to a destination on a key with a value exactly when the source has that
    key with that value, the destination has some attribute of that value,
    and the two have different names. *)
Theorem guessed_arrows_characterized config entities :
  consistent_names config entities →
  ((∃ arrows,
      make_guessed_arrows_from_attr_string_values config entities = Ok arrows)
   ↔ ∀ e, e ∈ entities → ∃ n, entity_name config.(id_attrs) e = Ok n)
  ∧ ∀ arrows,
      make_guessed_arrows_from_attr_string_values config entities = Ok arrows →
      ∀ a, a ∈ arrows ↔ guessed_between config entities a.
Proof.
  intros Hcons. split.
  - split.
    + intros [arrows Harrows]. by eapply make_guessed_arrows_names.
    + intros Hnames.
      destruct (make_guessed_arrows_spec _ _ Hnames Hcons) as (arrows & ? & _).
      by exists arrows.
  - intros arrows Harrows.
    pose proof (make_guessed_arrows_names _ _ _ Harrows) as Hnames.
    destruct (make_guessed_arrows_spec _ _ Hnames Hcons) as (arrows' & Heq & H).
    rewrite Harrows in Heq. by injection Heq as <-.
Qed.

Lemma widgets_consistent :
  consistent_names Fixtures.widgets_config
    [Fixtures.widget "1" "1" "1"; Fixtures.lozenge "1" "1"].
Proof.
  apply (consistent_names_NoDup _ _ ["Widget_1"; "Lozenge_1"]).
  - repeat constructor.
  - apply NoDup_cons.
    split; [by intros [=]%list_elem_of_singleton|apply NoDup_singleton].
Qed.

Lemma guessed_arrows_characterized_witness :
  Fixtures.guessed_arrow Fixtures.Widget "widget_1"
    Fixtures.Lozenge "lozenge_1" "part" "1"
  ∈ Fixtures.widget_lozenge_arrows
  ↔ guessed_between Fixtures.widgets_config
      [Fixtures.widget "1" "1" "1"; Fixtures.lozenge "1" "1"]
      (Fixtures.guessed_arrow Fixtures.Widget "widget_1"
         Fixtures.Lozenge "lozenge_1" "part" "1").
Proof.
  apply (proj2 (guessed_arrows_characterized Fixtures.widgets_config
                  [Fixtures.widget "1" "1" "1"; Fixtures.lozenge "1" "1"]
                  widgets_consistent)).
  vm_compute. reflexivity.
Defined.

(** X9. Guessed arrows come in pairs: with an arrow from one node to
    another there is an arrow back, matched on the same value. *)
Theorem guessed_arrows_symmetric config entities arrows a :
  consistent_names config entities →
  make_guessed_arrows_from_attr_string_values config entities = Ok arrows →
  a ∈ arrows →
  ∃ b, b ∈ arrows
       ∧ b.(src_name) = a.(dst_name) ∧ b.(dst_name) = a.(src_name)
       ∧ b.(src_type) = a.(dst_type) ∧ b.(dst_type) = a.(src_type)
       ∧ b.(value) = a.(value).
Proof.
  intros Hcons Harrows Ha.
  pose proof (make_guessed_arrows_names _ _ _ Harrows) as Hnames.
  destruct (make_guessed_arrows_spec _ _ Hnames Hcons) as (arrows' & Heq & H).
  rewrite Harrows in Heq. injection Heq as <-.
  apply H in Ha as (es & ed & sn & dn & k & v & k' & Hes & Hed & Hsn & Hdn
                    & Hne & Hkv & Hkv' & ->).
  exists (mkArrow (slugify dn) (slugify sn) k' (Some v) true (type_ ed) (type_ es)).
  split; [|done]. apply H. exists ed, es, dn, sn, k', v, k. by split_and!.
Qed.

Lemma guessed_arrows_symmetric_witness :
  ∃ b, b ∈ Fixtures.widget_lozenge_arrows
       ∧ b.(src_name) = "lozenge_1" ∧ b.(dst_name) = "widget_1"
       ∧ b.(src_type) = TClass Fixtures.Lozenge
       ∧ b.(dst_type) = TClass Fixtures.Widget
       ∧ b.(value) = Some "1".
Proof.
  apply (guessed_arrows_symmetric Fixtures.widgets_config
           [Fixtures.widget "1" "1" "1"; Fixtures.lozenge "1" "1"]
           Fixtures.widget_lozenge_arrows
           (Fixtures.guessed_arrow Fixtures.Widget "widget_1"
              Fixtures.Lozenge "lozenge_1" "part" "1")
           widgets_consistent).
  - vm_compute. reflexivity.
  - right. left.
Defined.

(** X10. When the names of the entities have pairwise different slugs, no
    guessed arrow goes from a node to itself. *)
Theorem guessed_arrows_no_self_loop config entities arrows :
  consistent_names config entities →
  (∀ e1 e2 n1 n2,
     e1 ∈ entities → e2 ∈ entities →
     entity_name config.(id_attrs) e1 = Ok n1 →
     entity_name config.(id_attrs) e2 = Ok n2 →
     slugify n1 = slugify n2 → n1 = n2) →
  make_guessed_arrows_from_attr_string_values config entities = Ok arrows →
  ∀ a, a ∈ arrows → a.(src_name) ≠ a.(dst_name).
Proof.
  intros Hcons Hinj Harrows a Ha.
  pose proof (make_guessed_arrows_names _ _ _ Harrows) as Hnames.
  destruct (make_guessed_arrows_spec _ _ Hnames Hcons) as (arrows' & Heq & H).
  rewrite Harrows in Heq. injection Heq as <-.
  apply H in Ha as (es & ed & sn & dn & k & v & k' & Hes & Hed & Hsn & Hdn
                    & Hne & _ & _ & ->).
  simpl. intros Hslug. by apply Hne, (Hinj es ed).
Qed.

Lemma guessed_arrows_no_self_loop_witness :
  (Fixtures.guessed_arrow Fixtures.Widget "widget_1"
     Fixtures.Lozenge "lozenge_1" "part" "1").(src_name)
  ≠ (Fixtures.guessed_arrow Fixtures.Widget "widget_1"
       Fixtures.Lozenge "lozenge_1" "part" "1").(dst_name).
Proof.
  apply (guessed_arrows_no_self_loop Fixtures.widgets_config
           [Fixtures.widget "1" "1" "1"; Fixtures.lozenge "1" "1"]
           Fixtures.widget_lozenge_arrows widgets_consistent);
    [| |right; left].
  - intros e1 e2 n1 n2 He1 He2.
    repeat (apply elem_of_cons in He1 as [->|He1]);
      try (by apply elem_of_nil in He1);
      repeat (apply elem_of_cons in He2 as [->|He2]);
      try (by apply elem_of_nil in He2);
      intros Hn1 Hn2 Hs; vm_compute in Hn1, Hn2;
      injection Hn1 as <-; injection Hn2 as <-;
      first [reflexivity|vm_compute in Hs; discriminate].
  - vm_compute. reflexivity.
Defined.

(** ** The index of the arrows *)

(** X11. [make_index] files every arrow under the pair of its nodes and
    under the set of its nodes, and nothing else: no pair and no set of
    nodes is listed twice, no group is empty or lists an arrow twice, and a
    group has exactly the arrows of its pair, or set, of nodes. *)
Theorem make_index_groups l :
  let index := make_index l in
  NoDup index.(by_src_dst_name_pairs).*1
  ∧ NoDup index.(by_undirected_src_dst_name_pairs).*1
  ∧ (∀ names group, (names, group) ∈ index.(by_src_dst_name_pairs) →
       group ≠ [] ∧ NoDup group
       ∧ ∀ a, a ∈ group ↔ a ∈ l ∧ (a.(src_name), a.(dst_name)) = names)
  ∧ (∀ names group, (names, group) ∈ index.(by_undirected_src_dst_name_pairs) →
       group ≠ [] ∧ NoDup group
       ∧ ∀ a, a ∈ group ↔
              a ∈ l ∧ frozenset [a.(src_name); a.(dst_name)] = names)
  ∧ ∀ a, a ∈ l →
      (∃ group, dict_get index.(by_src_dst_name_pairs)
                  (a.(src_name), a.(dst_name)) = Some group ∧ a ∈ group)
      ∧ (∃ group, dict_get index.(by_undirected_src_dst_name_pairs)
                    (frozenset [a.(src_name); a.(dst_name)]) = Some group
                  ∧ a ∈ group).
Proof.
  intros index. destruct (make_index_spec l) as (HD & HDm & HU & HUm).
  fold index in HD, HDm, HU, HUm. split_and!; [apply HD|apply HU|..].
  - intros names group Hin. destruct (proj2 HD _ _ Hin) as [Hnd Hne].
    split_and!; [done..|]. intros a.
    by rewrite <- (members_elem_of _ _ _ HD Hin), HDm.
  - intros names group Hin. destruct (proj2 HU _ _ Hin) as [Hnd Hne].
    split_and!; [done..|]. intros a.
    by rewrite <- (members_elem_of _ _ _ HU Hin), HUm.
  - intros a Ha. split.
    + destruct (members_lookup _ (directed_key a) a (proj2 (HDm _ _) (conj Ha eq_refl)))
        as (g & Hg & Hag).
      exists g. split; [|done]. by apply elem_of_dict_get; [apply HD|].
    + destruct (members_lookup _ (undirected_key a) a (proj2 (HUm _ _) (conj Ha eq_refl)))
        as (g & Hg & Hag).
      exists g. split; [|done]. by apply elem_of_dict_get; [apply HU|].
Qed.

(** The groups that [select] takes from a dictionary of groups. *)
Lemma select_spec {K} `{EqDecision K} (d : dict K (list Arrow))
    (keyf : Arrow → K) (l X : list Arrow) :
  grouping d →
  (∀ k a, a ∈ members d k ↔ a ∈ l ∧ keyf a = k) →
  NoDup (select d X).*1
  ∧ (∀ k m, (k, m) ∈ select d X →
       m ≠ [] ∧ ∀ a, a ∈ m ↔ a ∈ X ∧ a ∈ l ∧ keyf a = k)
  ∧ ∀ a, a ∈ X → a ∈ l → ∃ m, (keyf a, m) ∈ select d X ∧ a ∈ m.
Proof.
  intros Hd Hm. split_and!.
  - eapply sublist_NoDup; [apply Hd|apply select_keys].
  - intros k m (g & Hkg & -> & Hne)%elem_of_select. split; [done|].
    intros a.
    rewrite list_elem_of_intersection, <- (members_elem_of _ _ _ Hd Hkg), Hm.
    tauto.
  - intros a HaX Hal.
    destruct (members_lookup d (keyf a) a) as (g & Hkg & Hag); [by apply Hm|].
    assert (a ∈ list_intersection g X) as Hai
      by by apply list_elem_of_intersection.
    exists (list_intersection g X). split; [|done].
    apply elem_of_select. exists g. split_and!; [done..|].
    intros Hnil. rewrite Hnil in Hai. by apply elem_of_nil in Hai.
Qed.

(** X12. [grouped_by_undirected_edge_and_value] on the index of the arrows
    [l] sorts arrows by the set of their nodes: a group for each set of
    nodes that one of the arrows joins, with the arrows that are both given
    and indexed, and no empty group; the arrows left ungrouped are those
    that are not indexed. *)
Theorem undirected_groups l arrows :
  let '(groups, ungrouped) :=
    grouped_by_undirected_edge_and_value (make_index l) arrows in
  (∀ a, a ∈ ungrouped ↔ a ∈ arrows ∧ a ∉ l)
  ∧ NoDup groups.*1
  ∧ (∀ names group, (names, group) ∈ groups →
       group ≠ []
       ∧ ∀ a, a ∈ group ↔
              a ∈ arrows ∧ a ∈ l
              ∧ frozenset [a.(src_name); a.(dst_name)] = names)
  ∧ ∀ a, a ∈ arrows → a ∈ l →
      ∃ group, (frozenset [a.(src_name); a.(dst_name)], group) ∈ groups
               ∧ a ∈ group.
Proof.
  destruct (make_index_spec l) as (_ & _ & HU & HUm).
  unfold grouped_by_undirected_edge_and_value.
  set (U := by_undirected_src_dst_name_pairs (make_index l)) in *.
  assert (∀ k g a, (k, g) ∈ U → a ∈ g → undirected_key a = k) as HUkey.
  { intros k g a Hkg Ha. apply HUm. by rewrite (members_elem_of _ _ _ HU Hkg). }
  pose proof (grouped_by_undirected_spec U (set_of arrows) [] (proj1 HU) HUkey)
    as Hg.
  destruct (foldl _ _ U) as [groups rest]. destruct Hg as [-> Hrest]. simpl.
  destruct (select_spec U undirected_key l (set_of arrows) HU HUm)
    as (Hnd & Hgroups & Hall).
  split_and!; [|done|..].
  - intros a. rewrite Hrest, elem_of_set_of. split.
    + intros [Ha Hnone]. split; [done|]. intros Hal.
      destruct (members_lookup U (undirected_key a) a) as (g & Hkg & Hag);
        [by apply HUm|]. by eapply Hnone.
    + intros [Ha Hal]. split; [done|]. intros k g Hkg Hag. apply Hal.
      rewrite <- (members_elem_of _ _ _ HU Hkg) in Hag. by apply HUm in Hag as [? _].
  - intros names group Hin. destruct (Hgroups _ _ Hin) as [Hne Hm].
    split; [done|]. intros a. by rewrite Hm, elem_of_set_of.
  - intros a Ha Hal. apply Hall; [by apply elem_of_set_of|done].
Qed.

Lemma grouped_by_directed_edge_select index arrows :
  grouped_by_directed_edge index arrows
  = select index.(by_src_dst_name_pairs) arrows.
Proof.
  unfold grouped_by_directed_edge.
  rewrite (foldl_append_if
    (λ '(k, g),
       let matching := list_intersection g arrows in
       if bool_decide (length matching ≠ 0) then Some (k, matching) else None)).
  - done.
  - intros acc [k g]. simpl. by destruct (bool_decide _).
Qed.

(** X13. [grouped_by_directed_edge] on the index of the arrows [l] sorts
    arrows by source and destination: a group for each pair of nodes that
    one of the arrows joins, with the arrows that are both given and
    indexed, and no empty group. *)
Theorem directed_groups l arrows :
  let groups := grouped_by_directed_edge (make_index l) arrows in
  NoDup groups.*1
  ∧ (∀ names group, (names, group) ∈ groups →
       group ≠ []
       ∧ ∀ a, a ∈ group ↔
              a ∈ arrows ∧ a ∈ l ∧ (a.(src_name), a.(dst_name)) = names)
  ∧ ∀ a, a ∈ arrows → a ∈ l →
      ∃ group, ((a.(src_name), a.(dst_name)), group) ∈ groups ∧ a ∈ group.
Proof.
  cbv zeta. rewrite grouped_by_directed_edge_select.
  destruct (make_index_spec l) as (HD & HDm & _ & _).
  apply (select_spec _ directed_key l arrows HD HDm).
Qed.

(** ** The edges of a diagram *)

Lemma undirected_key_ne a :
  a.(src_name) ≠ a.(dst_name) →
  undirected_key a =
    if decide (Str.le a.(src_name) a.(dst_name))
    then [a.(src_name); a.(dst_name)] else [a.(dst_name); a.(src_name)].
Proof.
  intros Hne. unfold undirected_key, frozenset. simpl.
  destruct (decide_rel elem_of (src_name a) [dst_name a])
    as [Heq%list_elem_of_singleton|_]; [done|].
  apply sorted_pair.
Qed.

Lemma joins_undirected d b :
  d.(bidirectional) = true → Str.le d.(src) d.(dst) → d.(src) ≠ d.(dst) →
  joins d b = true ↔ b.(guessed) = true ∧ undirected_key b = [d.(src); d.(dst)].
Proof.
  intros Hb Hle Hne. unfold joins.
  rewrite Hb, andb_true_iff, orb_true_iff, andb_true_iff, !bool_decide_eq_true.
  split.
  - intros [Hg [[= Hs Hd]|[_ [= Hs Hd]]]]; (split; [done|]).
    + rewrite undirected_key_ne by congruence. rewrite Hs, Hd.
      by destruct (decide (Str.le (src d) (dst d))).
    + rewrite undirected_key_ne by congruence. rewrite Hs, Hd.
      destruct (decide (Str.le (dst d) (src d))) as [Hle'|]; [|done].
      destruct Hne. by apply (anti_symm Str.le).
  - intros [Hg Hk]. split; [done|].
    destruct (undirected_key_cases b) as [[_ Hk']|[Hne' _]]; [congruence|].
    rewrite undirected_key_ne in Hk by done.
    destruct (decide (Str.le (src_name b) (dst_name b)));
      injection Hk as -> ->; auto.
Qed.

Lemma joins_directed d b :
  d.(bidirectional) = false →
  joins d b = true ↔ b.(guessed) = false ∧ directed_key b = (d.(src), d.(dst)).
Proof.
  intros Hb. unfold joins, directed_key.
  rewrite Hb, andb_true_iff, orb_true_iff, andb_true_iff, !bool_decide_eq_true.
  split; [|tauto]. by intros [? [?|[[=] _]]].
Qed.

Lemma elem_of_filter_joins d l b :
  b ∈ List.filter (joins d) l ↔ b ∈ l ∧ joins d b = true.
Proof. by rewrite !list_elem_of_In, filter_In. Qed.

(** The edges of [edge_of], told by the arrows that they draw. *)
Lemma edge_of_joins l d :
  loop_free l →
  edge_of l d ↔
    (∃ a, a ∈ l ∧ joins d a = true)
    ∧ d.(label) = Some (make_label (List.filter (joins d) l))
    ∧ (d.(bidirectional) = true → Str.le d.(src) d.(dst)).
Proof.
  intros Hloop. split.
  - intros [(a & n1 & n2 & Ha & Hg & Hk & ->)|(a & Ha & Hg & ->)].
    + pose proof (Hloop a Ha Hg) as Hne.
      assert (Str.le n1 n2 ∧ n1 ≠ n2) as [Hle Hne'].
      { rewrite undirected_key_ne in Hk by done.
        destruct (decide (Str.le (src_name a) (dst_name a))) as [|Hn];
          injection Hk as <- <-; [done|].
        split; [|done]. by destruct (total Str.le (src_name a) (dst_name a)). }
      rewrite DotArrow_make_sorted by done. simpl.
      set (d := mkDotArrow n1 n2 _ true).
      assert (∀ b, joins d b = true
                   ↔ b.(guessed) = true ∧ undirected_key b = [n1; n2]) as Hj.
      { intros b. by apply joins_undirected. }
      split_and!; [|f_equal|done].
      * exists a. split; [done|]. by apply Hj.
      * rewrite Hk. apply make_label_ext. intros b.
        rewrite elem_of_undirected_group, elem_of_filter_joins, Hj. tauto.
    + unfold DotArrow_make. simpl. set (d := mkDotArrow _ _ _ false).
      assert (∀ b, joins d b = true
                   ↔ b.(guessed) = false ∧ directed_key b = directed_key a) as Hj.
      { intros b. by apply joins_directed. }
      split_and!; [|f_equal|done].
      * exists a. split; [done|]. by apply Hj.
      * apply make_label_ext. intros b.
        rewrite elem_of_directed_group, elem_of_filter_joins, Hj. tauto.
  - intros ((a & Ha & Hj) & Hlabel & Hle).
    destruct d as [sd dd ld [|]]; simpl in *.
    + specialize (Hle eq_refl).
      assert (sd ≠ dd) as Hne.
      { unfold joins in Hj. simpl in Hj.
        apply andb_true_iff in Hj as [Hg%bool_decide_eq_true Hj].
        pose proof (Hloop a Ha Hg) as Hne.
        apply orb_true_iff in Hj
          as [[= Hs Hd]%bool_decide_eq_true|[= Hs Hd]%bool_decide_eq_true];
          congruence. }
      assert (∀ b, joins (mkDotArrow sd dd ld true) b = true
                   ↔ b.(guessed) = true ∧ undirected_key b = [sd; dd]) as Hjoin.
      { intros b. by apply joins_undirected. }
      left. apply Hjoin in Hj as [Hg Hk]. exists a, sd, dd.
      split_and!; [done..|].
      rewrite DotArrow_make_sorted by done. f_equal. rewrite Hlabel. f_equal.
      rewrite Hk. apply make_label_ext. intros b.
      rewrite elem_of_undirected_group, elem_of_filter_joins, Hjoin. tauto.
    + assert (∀ b, joins (mkDotArrow sd dd ld false) b = true
                   ↔ b.(guessed) = false ∧ directed_key b = (sd, dd)) as Hjoin.
      { intros b. by apply joins_directed. }
      right. apply Hjoin in Hj as [Hg Hk]. exists a. split_and!; [done..|].
      unfold DotArrow_make. rewrite Hk. injection Hk as -> ->.
      f_equal. rewrite Hlabel. f_equal.
      apply make_label_ext. intros b.
      rewrite elem_of_directed_group, elem_of_filter_joins, Hjoin. tauto.
Qed.

(** X14. The edges that [combine_arrows] returns: each one once, and an
    edge is returned exactly when it draws some arrow of the list, a
    bidirectional edge for guessed arrows between two nodes in either
    direction and a directed edge for other arrows, its label is made of all
    the arrows that it draws, and its ends are in ascending order when it is
    bidirectional. *)
Theorem combine_arrows_edges rules l r :
  combine_arrows rules l = Ok r →
  NoDup r
  ∧ ∀ d, d ∈ r ↔
      (∃ a, a ∈ l ∧ joins d a = true)
      ∧ d.(label) = Some (make_label (List.filter (joins d) l))
      ∧ (d.(bidirectional) = true → Str.le d.(src) d.(dst)).
Proof.
  intros Hr.
  assert (loop_free l) as Hloop by (intros a; by eapply combine_arrows_Ok).
  destruct (combine_arrows_spec rules l Hloop) as (r' & Hr' & Hnd & Hin).
  rewrite Hr in Hr'. injection Hr' as <-. split; [done|].
  intros d. by rewrite Hin, edge_of_joins.
Qed.

Lemma combine_arrows_edges_witness :
  NoDup [Fixtures.widget_lozenge_edge]
  ∧ ∀ d, d ∈ [Fixtures.widget_lozenge_edge] ↔
      (∃ a, a ∈ Fixtures.widget_lozenge_arrows ∧ joins d a = true)
      ∧ d.(label)
        = Some (make_label
                  (List.filter (joins d) Fixtures.widget_lozenge_arrows))
      ∧ (d.(bidirectional) = true → Str.le d.(src) d.(dst)).
Proof.
  apply (combine_arrows_edges PNone Fixtures.widget_lozenge_arrows
           [Fixtures.widget_lozenge_edge]).
  vm_compute. reflexivity.
Defined.

(** X15. Every arrow given to [combine_arrows] is drawn, as one edge only. *)
Theorem combine_arrows_draws_once rules l r a :
  combine_arrows rules l = Ok r →
  a ∈ l →
  ∃ d, d ∈ r ∧ joins d a = true
       ∧ ∀ d', d' ∈ r → joins d' a = true → d' = d.
Proof.
  intros Hr Ha.
  assert (loop_free l) as Hloop by (intros b; by eapply combine_arrows_Ok).
  destruct (combine_arrows_spec rules l Hloop) as (r' & Hr' & Hnd & Hin).
  rewrite Hr in Hr'. injection Hr' as <-.
  assert (∀ d d', d ∈ r → d' ∈ r → joins d a = true → joins d' a = true →
            d' = d) as Huniq.
  { intros d d' Hd Hd' Hj Hj'.
    apply Hin, edge_of_joins in Hd as (_ & Hl & Hle); [|done].
    apply Hin, edge_of_joins in Hd' as (_ & Hl' & Hle'); [|done].
    assert (src d' = src d ∧ dst d' = dst d
            ∧ bidirectional d' = bidirectional d) as (Hs & Hd & Hb).
    { unfold joins in Hj, Hj'.
      apply andb_true_iff in Hj as [Hg%bool_decide_eq_true Hj].
      apply andb_true_iff in Hj' as [Hg'%bool_decide_eq_true Hj'].
      assert (bidirectional d' = bidirectional d) as Hb by congruence.
      rewrite Hb in Hj', Hle'.
      destruct (bidirectional d) eqn:Hbd; simpl in Hj, Hj'.
      - specialize (Hle eq_refl). specialize (Hle' eq_refl).
        pose proof (Hloop a Ha Hg) as Hne.
        apply orb_true_iff in Hj
          as [[= Hs Hd]%bool_decide_eq_true|[= Hs Hd]%bool_decide_eq_true];
          apply orb_true_iff in Hj'
            as [[= Hs' Hd']%bool_decide_eq_true|[= Hs' Hd']%bool_decide_eq_true];
          try (split_and!; congruence).
        + destruct Hne. rewrite Hs, Hd. apply (anti_symm Str.le); [done|].
          by rewrite <- Hs, <- Hd, Hs', Hd'.
        + destruct Hne. rewrite Hs', Hd'. apply (anti_symm Str.le); [done|].
          by rewrite <- Hs', <- Hd', Hs, Hd.
      - rewrite orb_false_r in Hj, Hj'.
        apply bool_decide_eq_true in Hj, Hj'. split_and!; congruence. }
    assert (List.filter (joins d') l = List.filter (joins d) l) as Hf.
    { apply filter_ext. intros b. unfold joins. by rewrite Hs, Hd, Hb. }
    destruct d, d'; simpl in *. congruence. }
  destruct (a.(guessed)) eqn:Hg.
  - pose proof (Hloop a Ha Hg) as Hne.
    destruct (undirected_key_cases a) as [[? _]|[_ (n1 & n2 & Hk & Hle)]];
      [done|].
    set (d := DotArrow_make n1 n2
                (Some (make_label (undirected_group l (undirected_key a)))) true).
    assert (edge_of l d) as Hd by (left; by exists a, n1, n2).
    assert (joins d a = true) as Hj.
    { unfold d. rewrite DotArrow_make_sorted by done.
      rewrite undirected_key_ne in Hk by done.
      apply joins_undirected; simpl; [done..| |].
      - destruct (decide (Str.le (src_name a) (dst_name a)));
          injection Hk as <- <-; congruence.
      - split; [done|]. rewrite undirected_key_ne by done.
        by destruct (decide (Str.le (src_name a) (dst_name a)));
          injection Hk as <- <-. }
    exists d. split_and!; [by apply Hin|done|].
    intros d' Hd' Hj'. by apply Huniq; [apply Hin|..].
  - set (d := DotArrow_make a.(src_name) a.(dst_name)
                (Some (make_label (directed_group l (directed_key a)))) false).
    assert (edge_of l d) as Hd by (right; by exists a).
    assert (joins d a = true) as Hj by (by apply joins_directed).
    exists d. split_and!; [by apply Hin|done|].
    intros d' Hd' Hj'. by apply Huniq; [apply Hin|..].
Qed.

Lemma combine_arrows_draws_once_witness :
  ∃ d, d ∈ [Fixtures.widget_lozenge_edge]
       ∧ joins d (Fixtures.guessed_arrow Fixtures.Widget "widget_1"
                    Fixtures.Lozenge "lozenge_1" "part" "1") = true
       ∧ ∀ d', d' ∈ [Fixtures.widget_lozenge_edge] →
               joins d' (Fixtures.guessed_arrow Fixtures.Widget "widget_1"
                           Fixtures.Lozenge "lozenge_1" "part" "1") = true →
               d' = d.
Proof.
  apply (combine_arrows_draws_once PNone Fixtures.widget_lozenge_arrows).
  - vm_compute. reflexivity.
  - right. left.
Defined.

(** ** When the combination fails *)

Lemma combine_arrows_raises rules l e :
  combine_arrows rules l = Raise e → e = ValueError.
Proof.
  destruct (combine_arrows_unfold rules l) as (X & Y & _ & _ & ->).
  intros H.
  cut (ensures (λ _, True) (λ e, e = ValueError)
         (for_ (select (by_undirected_src_dst_name_pairs (make_index l)) X)
            (λ r '(names, group),
               match names with
               | [name1; name2] =>
                   Ok (r ++ [DotArrow_make name1 name2
                               (Some (make_label group)) true])
               | _ => Raise ValueError
               end) [])).
  { destruct (for_ _ _ _); simpl in *; [done|]. intros ->. by injection H. }
  apply ensures_for; [done|].
  by intros r [[|n1 [|n2 [|n3 names]]] group] _ _.
Qed.

(** X16. [combine_arrows] fails exactly when a guessed arrow goes from a
    node to itself, and with a [ValueError]: the set of its two ends does
    not unpack into two names. *)
Theorem combine_arrows_outcomes rules l :
  ((∃ r, combine_arrows rules l = Ok r)
   ↔ ∀ a, a ∈ l → a.(guessed) = true → a.(src_name) ≠ a.(dst_name))
  ∧ (combine_arrows rules l = Raise ValueError
     ↔ ∃ a, a ∈ l ∧ a.(guessed) = true ∧ a.(src_name) = a.(dst_name))
  ∧ ∀ e, combine_arrows rules l = Raise e → e = ValueError.
Proof.
  split_and!.
  - split.
    + intros [r Hr] a. by eapply combine_arrows_Ok.
    + intros Hloop.
      destruct (combine_arrows_spec rules l Hloop) as (r & Hr & _). by exists r.
  - split.
    + intros Hr.
      destruct (decide (Exists (λ a, a.(guessed) = true
                                     ∧ a.(src_name) = a.(dst_name)) l))
        as [(a & Ha & Hg & Heq)%Exists_exists|Hnone]; [by exists a|].
      destruct (combine_arrows_spec rules l) as (r & Hr' & _); [|congruence].
      intros a Ha Hg Heq. apply Hnone, Exists_exists. by exists a.
    + intros (a & Ha & Hg & Heq).
      destruct (combine_arrows rules l) as [r|e] eqn:Hr.
      * by destruct (combine_arrows_Ok _ _ _ _ Hr Ha Hg).
      * by rewrite (combine_arrows_raises _ _ _ Hr).
  - apply combine_arrows_raises.
Qed.

(** X17. [combine_arrows] takes its arrows as a set: two lists of the same
    arrows, in whatever order and however repeated, are combined into the
    same edges, or fail alike. *)
Theorem combine_arrows_same_arrows rules l l' :
  (∀ a, a ∈ l ↔ a ∈ l') →
  match combine_arrows rules l, combine_arrows rules l' with
  | Ok r, Ok r' => r ≡ₚ r'
  | Raise e, Raise e' => e = e'
  | _, _ => False
  end.
Proof.
  intros Hsame.
  assert (∀ l l' r, (∀ a, a ∈ l ↔ a ∈ l') → combine_arrows rules l = Ok r →
            ∃ r', combine_arrows rules l' = Ok r' ∧ r ≡ₚ r') as Hone.
  { clear. intros l l' r Hsame Hr.
    assert (loop_free l) as Hloop by (intros a; by eapply combine_arrows_Ok).
    destruct (combine_arrows_spec rules l Hloop) as (r0 & Hr0 & Hnd & Hin).
    rewrite Hr in Hr0. injection Hr0 as <-.
    destruct (combine_arrows_spec rules l') as (r' & Hr' & Hnd' & Hin').
    { intros a Ha. apply Hloop. by apply Hsame. }
    exists r'. split; [done|]. apply NoDup_Permutation; [done..|].
    intros d. rewrite Hin, Hin'.
    split; apply edge_of_ext; [done|]. intros a. by rewrite Hsame. }
  destruct (combine_arrows rules l) as [r|e] eqn:Hr,
           (combine_arrows rules l') as [r'|e'] eqn:Hr'.
  - destruct (Hone _ _ _ Hsame Hr) as (r'' & Hr'' & Hp). congruence.
  - destruct (Hone _ _ _ Hsame Hr) as (r'' & Hr'' & Hp). congruence.
  - destruct (Hone l' l r') as (r'' & Hr'' & Hp); [|done|congruence].
    intros a. by rewrite Hsame.
  - apply combine_arrows_raises in Hr, Hr'. congruence.
Qed.

Lemma combine_arrows_same_arrows_witness :
  match combine_arrows PNone Fixtures.widget_lozenge_arrows,
        combine_arrows PNone
          (reverse Fixtures.widget_lozenge_arrows
           ++ Fixtures.widget_lozenge_arrows) with
  | Ok r, Ok r' => r ≡ₚ r'
  | Raise e, Raise e' => e = e'
  | _, _ => False
  end.
Proof.
  apply (combine_arrows_same_arrows PNone).
  intros a. rewrite elem_of_app, elem_of_reverse. tauto.
Defined.

(** ** Labels *)

(** X18. The label of a group of arrows is made of their keys, as a set:
    groups with the same keys have the same label, which lists each key
    once, as a slug, in the order of the keys. *)
Theorem make_label_keys (arrows arrows' : list Arrow) :
  (∃ keys, make_label arrows = Str.join "<br/>" (slugify <$> keys)
           ∧ NoDup keys ∧ Sorted Str.le keys
           ∧ ∀ k, k ∈ keys ↔ ∃ a, a ∈ arrows ∧ a.(key) = k)
  ∧ ((∀ k, k ∈ key <$> arrows ↔ k ∈ key <$> arrows') →
     make_label arrows = make_label arrows').
Proof.
  split.
  - exists (sorted Str.le (set_of (key <$> arrows))). split_and!.
    + done.
    + rewrite sorted_Permutation. apply NoDup_remove_dups.
    + apply Sorted_merge_sort, _.
    + intros k. rewrite elem_of_sorted, elem_of_set_of, list_elem_of_fmap.
      naive_solver.
  - intros H. unfold make_label. do 2 f_equal.
    apply (sorted_perm_eq Str.le), NoDup_Permutation;
      [apply NoDup_remove_dups..|].
    intros k. by rewrite !elem_of_set_of.
Qed.

Lemma make_label_keys_witness :
  make_label Fixtures.widget_lozenge_arrows
  = make_label (reverse Fixtures.widget_lozenge_arrows
                ++ Fixtures.widget_lozenge_arrows).
Proof.
  apply (proj2 (make_label_keys Fixtures.widget_lozenge_arrows
                  (reverse Fixtures.widget_lozenge_arrows
                   ++ Fixtures.widget_lozenge_arrows))).
  intros k. rewrite fmap_app, fmap_reverse, elem_of_app, elem_of_reverse. tauto.
Defined.

(** ** The lines of a diagram *)




(** ** The outcomes of [diagram] *)

Lemma entity_name_errors id_attrs entity :
  ensures (λ _, True) naming_error (entity_name id_attrs entity).
Proof.
  unfold entity_name, naming_error.
  apply (ensures_bind _ (λ _, True)); [apply ensures_of_option; auto|].
  intros id_attr _. apply (ensures_bind _ (λ _, True)).
  { unfold getattr. destruct entity; simpl; auto. apply ensures_of_option; auto. }
  intros attr _. apply (ensures_bind _ (λ _, True)).
  - set (value := match attr with PMethod returns => returns | _ => attr end).
    destruct value; try done.
    apply (ensures_bind _ (λ _, True)); [|done].
    apply ensures_for; [done|]. intros parts x _ _.
    apply (ensures_bind _ (λ _, True)); [destruct x; simpl; auto|done].
  - intros value _.
    apply (ensures_bind _ (λ _, True)); [destruct value; simpl; auto|done].
Qed.

Lemma make_arrows_errors config entities :
  ensures (λ _, True) naming_error (make_arrows config entities).
Proof.
  assert (naming_error KeyError) as HK by (by left).
  unfold make_arrows. apply (ensures_bind _ (λ _, True)).
  { unfold make_guessed_arrows_from_attr_string_values.
    apply (ensures_bind _ (λ _, True)).
    { apply ensures_for; [done|]. intros [[a b] c] entity _ _.
      apply (ensures_bind _ (λ _, True)); [apply entity_name_errors|done]. }
    intros [[attrs_by_entity_name types_by_entity_name] by_value] _.
    apply (ensures_bind _ (λ _, True)).
    { apply ensures_for; [done|]. intros attrs_ [src_name src_attrs] _ _.
      apply (ensures_bind _ (λ _, True)); [by apply ensures_of_option|].
      intros src_type _. apply ensures_for; [done|]. intros attrs_' [k v] _ _.
      apply ensures_for; [done|]. intros attrs_'' dst_name _ _.
      apply (ensures_bind _ (λ _, True)); [by apply ensures_of_option|done]. }
    intros attrs_ _. apply ensures_for; [done|].
    intros arrows [[[[src_type src_name] dst_type] dst_name] attrs] _ _.
    apply ensures_for; [done|]. by intros arrows' [k v] _ _. }
  intros guessed_arrows _. apply (ensures_bind _ (λ _, True)); [|done].
  unfold make_arrows_from_python_refs.
  apply ensures_for; [done|]. intros arrows entity _ _.
  apply ensures_for; [done|]. intros arrows' yielded _ Hy.
  apply (ensures_bind _ (λ _, True)).
  { destruct yielded as [item|e]; [done|]. simpl.
    apply children_of_raises in Hy as ->. right. by left. }
  intros [attr_name child] _.
  apply (ensures_bind _ (λ _, True)); [apply entity_name_errors|].
  intros parent_name _.
  apply (ensures_bind _ (λ _, True)); [apply entity_name_errors|done].
Qed.

Lemma names_of_total config entities :
  (∀ e, e ∈ entities → ∃ n, entity_name config.(id_attrs) e = Ok n) →
  ∃ names, names_of config entities names.
Proof.
  unfold names_of. induction entities as [|e entities IH]; intros H.
  - exists []. constructor.
  - destruct (H e) as [n Hn]; [left|].
    destruct IH as [names Hnames]; [intros; apply H; by right|].
    exists (n :: names). by constructor.
Qed.

(** X21. How [diagram] ends.  When [make_arrows] fails, with a [KeyError],
    an [AttributeError] or a [TypeError], so does [diagram]; when one of
    its arrows is a guessed arrow from a node to itself, [diagram] fails
    with a [ValueError]; in every other case [diagram] returns lines: the
    names of the entities have all been resolved by then, and the nodes
    cannot fail. *)
Theorem diagram_outcomes config entities :
  match make_arrows config entities with
  | Raise e =>
      diagram config entities = Raise e
      ∧ (e = KeyError ∨ e = AttributeError ∨ e = TypeError)
  | Ok arrows =>
      if decide (Exists (λ a, a.(guessed) = true ∧ a.(src_name) = a.(dst_name))
                   arrows)
      then diagram config entities = Raise ValueError
      else ∃ out, diagram config entities = Ok out
  end.
Proof.
  pose proof (make_arrows_errors config entities) as Herr.
  unfold diagram.
  destruct (make_arrows config entities) as [arrows|e] eqn:Harrows; simpl;
    [|done].
  destruct (decide _) as [(a & Ha & Hg & Heq)%Exists_exists|Hnone].
  - destruct (combine_arrows (make_rules config) arrows) as [r|e] eqn:Hr; simpl.
    + by destruct (combine_arrows_Ok _ _ _ _ Hr Ha Hg).
    + by rewrite (combine_arrows_raises _ _ _ Hr).
  - destruct (combine_arrows_spec (make_rules config) arrows) as (r & -> & _).
    { intros a Ha Hg Heq. apply Hnone, Exists_exists. by exists a. }
    simpl. unfold make_arrows in Harrows.
    apply bind_Ok in Harrows as (g & Hg & _).
    destruct (names_of_total config entities) as [names Hnames];
      [by eapply make_guessed_arrows_names|].
    destruct (make_nodes config entities) as [nodes|e] eqn:Hnodes; simpl;
      [by eexists|].
    assert (make_nodes config entities
            = Ok ((λ name, mkNode (slugify name)) <$> names)) as Hn
      by (apply make_nodes_Ok; by exists names).
    congruence.
Qed.

Lemma for__app {A S} (l1 l2 : list A) (body : S → A → result S) s :
  for_ (l1 ++ l2) body s = (s' <- for_ l1 body s;; for_ l2 body s').
Proof.
  revert s. induction l1 as [|x l1 IH]; intros s; simpl; [done|].
  destruct (body s x); simpl; [apply IH|done].
Qed.

(** X22. The exception of [diagram]: when the name of an entity does not
    resolve and the names of the entities before it do, the exception of
    [entity_name] on that entity is the one of
    [make_guessed_arrows_from_attr_string_values], of [make_arrows] and of
    [diagram], whatever comes after the entity in the list. *)
Theorem diagram_first_unnamed config before entity after e :
  Forall (λ x, ∃ n, entity_name config.(id_attrs) x = Ok n) before →
  entity_name config.(id_attrs) entity = Raise e →
  let entities := before ++ entity :: after in
  make_guessed_arrows_from_attr_string_values config entities = Raise e
  ∧ make_arrows config entities = Raise e
  ∧ diagram config entities = Raise e.
Proof.
  intros Hbefore Hentity entities.
  assert (make_guessed_arrows_from_attr_string_values config entities = Raise e)
    as Hg.
  { unfold make_guessed_arrows_from_attr_string_values, entities.
    rewrite for__app.
    match goal with
    | |- context [for_ before ?body ?s] =>
        assert (∃ s', for_ before body s = Ok s') as [s' ->]
    end.
    { generalize (([] : dict string (list (string * string))),
                  ([] : dict string pytype),
                  ([] : dict string (list string))).
      induction Hbefore as [|x before [n Hn] _ IH]; intros [[a b] c]; simpl;
        [by eexists|].
      rewrite Hn. simpl. apply IH. }
    destruct s' as [[a b] c]. simpl. by rewrite Hentity. }
  split_and!; [done|..].
  - unfold make_arrows. by rewrite Hg.
  - unfold diagram, make_arrows. by rewrite Hg.
Qed.

Lemma diagram_first_unnamed_witness :
  let entities := [Fixtures.widget "1" "1" "1"; PInt 7; Fixtures.lozenge "1" "1"] in
  make_guessed_arrows_from_attr_string_values Fixtures.widgets_config entities
    = Raise KeyError
  ∧ make_arrows Fixtures.widgets_config entities = Raise KeyError
  ∧ diagram Fixtures.widgets_config entities = Raise KeyError.
Proof.
  apply (diagram_first_unnamed Fixtures.widgets_config
           [Fixtures.widget "1" "1" "1"] (PInt 7) [Fixtures.lozenge "1" "1"]).
  - repeat constructor. by exists "Widget_1".
  - reflexivity.
Defined.

Lemma diagram_Ok_nil config entities :
  diagram config entities = Ok [] → entities = [].
Proof.
  intros (arrows & dots & names & _ & _ & Hn & Hout)%diagram_Ok.
  symmetry in Hout. apply app_eq_nil in Hout as [Hnames _].
  destruct names as [|n names].
  - by apply Forall2_nil_inv_r in Hn.
  - assert (slugify n ∈ sorted Str.le (remove_dups (slugify <$> n :: names)))
      as Hin by (rewrite elem_of_sorted, elem_of_remove_dups; left).
    rewrite Hnames in Hin. by apply elem_of_nil in Hin.
Qed.




(** ** The text of a diagram *)

Lemma slug_text s : dot_text (slugify s).
Proof.
  unfold dot_text, slugify. rewrite to_list_of_list.
  destruct (slugify_chars_normal (Str.to_list s)) as (v & -> & Hv & _).
  apply Forall_fmap. eapply Forall_impl; [exact Hv|].
  intros c Hc%slug_char_shape. simpl. unfold dot_char.
  apply orb_true_iff in Hc as [->|Hc%Ascii.eqb_eq]; [done|].
  by rewrite Hc.
Qed.

Lemma dot_text_app a b : dot_text a → dot_text b → dot_text (a +:+ b).
Proof. unfold dot_text. rewrite to_list_app. apply Forall_app_2. Qed.

Lemma join_text sep parts :
  dot_text sep → Forall dot_text parts → dot_text (Str.join sep parts).
Proof.
  intros Hsep. induction 1 as [|p ps Hp Hps IH]; [constructor|].
  simpl. destruct ps as [|q ps]; [done|]. by repeat apply dot_text_app.
Qed.

Lemma arrow_line_text d l :
  dot_text d.(src) → dot_text d.(dst) → d.(label) = Some l → dot_text l →
  dot_text (arrow_line d).
Proof.
  intros Hs Hd Hl Hlabel. unfold arrow_line. rewrite Hl.
  destruct (bidirectional d);
    repeat (apply dot_text_app; [|try done]); try done;
    apply (bool_decide_unpack _); by vm_compute.
Qed.

Lemma make_arrows_slug_ends config entities :
  ensures (Forall slug_ends) (λ _, True) (make_arrows config entities).
Proof.
  unfold make_arrows. apply (ensures_bind _ (Forall slug_ends)).
  { unfold make_guessed_arrows_from_attr_string_values.
    apply (ensures_bind _ (λ _, True)); [apply ensures_any|].
    intros [[attrs_by_entity_name types_by_entity_name] by_value] _.
    apply (ensures_bind _ (λ _, True)); [apply ensures_any|].
    intros attrs_ _. apply ensures_for; [constructor|].
    intros arrows [[[[src_type src_name] dst_type] dst_name] attrs] Harrows _.
    apply ensures_for; [done|]. intros arrows' [k v] Harrows' _. simpl.
    apply Forall_app; split; [done|]. repeat constructor. by eexists _, _. }
  intros guessed_arrows Hg. apply (ensures_bind _ (Forall slug_ends)).
  { unfold make_arrows_from_python_refs.
    apply ensures_for; [constructor|]. intros arrows entity Harrows _.
    apply ensures_for; [done|]. intros arrows' yielded Harrows' _.
    apply (ensures_bind _ (λ _, True)); [apply ensures_any|].
    intros [attr_name child] _.
    apply (ensures_bind _ (λ _, True)); [apply ensures_any|].
    intros parent_name _.
    apply (ensures_bind _ (λ _, True)); [apply ensures_any|].
    intros child_name _. simpl.
    apply Forall_app; split; [done|]. repeat constructor. by eexists _, _. }
  intros ref_arrows Hr. simpl. by apply Forall_app.
Qed.

Lemma diagram_text config entities dot :
  diagram config entities = Ok dot → Forall dot_text dot.
Proof.
  intros (arrows & dots & names & Ha & Hd & Hn & ->)%diagram_Ok.
  apply Forall_app. split.
  - apply Forall_forall. intros line.
    rewrite elem_of_sorted, elem_of_remove_dups, list_elem_of_fmap.
    intros (n & -> & _). apply slug_text.
  - apply Forall_fmap, Forall_forall. intros d Hin.
    rewrite elem_of_sorted in Hin.
    pose proof (make_arrows_slug_ends config entities) as Hends.
    rewrite Ha in Hends. simpl in Hends. rewrite Forall_forall in Hends.
    assert (loop_free arrows) as Hloop by (intros a; by eapply combine_arrows_Ok).
    destruct (combine_arrows_spec (make_rules config) arrows Hloop)
      as (r & Hr & _ & Hedges).
    rewrite Hd in Hr. injection Hr as <-.
    apply Hedges, edge_of_joins in Hin as ((a & Hal & Hj) & Hl & _); [|done].
    destruct (Hends a Hal) as (s & t & Hs & Ht).
    assert (dot_text (src d) ∧ dot_text (dst d)) as [Hsrc Hdst].
    { unfold joins in Hj. apply andb_true_iff in Hj as [_ Hj].
      apply orb_true_iff in Hj
        as [[= <- <-]%bool_decide_eq_true
           |[_ [= <- <-]%bool_decide_eq_true]%andb_true_iff];
        rewrite Hs, Ht; split; apply slug_text. }
    apply (arrow_line_text d _ Hsrc Hdst Hl).
    apply join_text; [apply (bool_decide_unpack _); by vm_compute|].
    apply Forall_fmap, Forall_forall. intros k _. apply slug_text.
Qed.



(** ** Writing the diagram *)

Lemma of_list_to_list s : Str.of_list (Str.to_list s) = s.
Proof. apply String.string_of_list_ascii_of_string. Qed.

Lemma lines_of_chars_line line rest :
  ascii_of_nat 10 ∉ line →
  lines_of_chars (line ++ ascii_of_nat 10 :: rest) = line :: lines_of_chars rest.
Proof.
  induction line as [|c line IH]; intros Hline; [done|].
  apply not_elem_of_cons in Hline as [Hc Hline].
  cbn [app lines_of_chars]. rewrite IH by done.
  destruct (Ascii.eqb_spec c (ascii_of_nat 10)); [by subst|done].
Qed.

Lemma lines_of_chars_lines lines rest :
  Forall one_line lines →
  lines_of_chars ((lines ≫= λ line, Str.to_list line ++ [ascii_of_nat 10]) ++ rest)
  = (Str.to_list <$> lines) ++ lines_of_chars rest.
Proof.
  induction 1 as [|line lines Hline _ IH]; csimpl; [done|].
  rewrite <- !app_assoc. simpl. rewrite lines_of_chars_line by done.
  by rewrite IH.
Qed.

Lemma foldl_write fh lines :
  Str.to_list (foldl (λ fh line, write fh (line +:+ newline)) fh lines)
  = Str.to_list fh ++ (lines ≫= λ line, Str.to_list line ++ [ascii_of_nat 10]).
Proof.
  revert fh. induction lines as [|line lines IH]; intros fh; csimpl.
  - by rewrite app_nil_r.
  - rewrite IH. unfold write. rewrite !to_list_app. by rewrite <- !app_assoc.
Qed.

Lemma write_dot_chars fh lines :
  Str.to_list (write_dot fh lines)
  = Str.to_list fh
    ++ Str.to_list "digraph graphname{" ++ ascii_of_nat 10
       :: (lines ≫= λ line, Str.to_list line ++ [ascii_of_nat 10])
       ++ Str.to_list "}" ++ [ascii_of_nat 10].
Proof.
  unfold write_dot, write. rewrite to_list_app, foldl_write, !to_list_app.
  rewrite <- !app_assoc. done.
Qed.

Lemma lines_of_write_dot lines :
  Forall one_line lines →
  lines_of (write_dot EmptyString lines) = "digraph graphname{" :: lines ++ ["}"].
Proof.
  intros Hlines. unfold lines_of. rewrite write_dot_chars.
  change (Str.to_list EmptyString ++ ?l) with l.
  rewrite lines_of_chars_line by (apply (bool_decide_unpack _); by vm_compute).
  rewrite lines_of_chars_lines by done.
  rewrite fmap_cons, fmap_app, <- list_fmap_compose. f_equal. f_equal.
  clear. induction lines as [|line lines IH]; csimpl; [done|].
  by rewrite of_list_to_list, IH.
Qed.

Lemma dot_text_one_line s : dot_text s → one_line s.
Proof.
  unfold dot_text, one_line. rewrite Forall_forall. intros H Hin.
  specialize (H _ Hin). vm_compute in H. discriminate.
Qed.




(** ** Entities listed more than once *)

Lemma collected_elem_of {A B} (f : A → result (list B)) l yss y :
  Forall2 (λ x ys, f x = Ok ys) l yss →
  y ∈ concat yss ↔ ∃ x ys, x ∈ l ∧ f x = Ok ys ∧ y ∈ ys.
Proof.
  induction 1 as [|x ys l yss Hx _ IH]; simpl.
  - split; [by intros ?%elem_of_nil|]. by intros (x & ys & ?%elem_of_nil & _).
  - rewrite elem_of_app, IH. split.
    + intros [Hy|(x' & ys' & Hx' & Hf & Hy)].
      * exists x, ys. split_and!; [left|done..].
      * exists x', ys'. split_and!; [by right|done..].
    + intros (x' & ys' & [->|Hx']%elem_of_cons & Hf & Hy).
      * left. congruence.
      * right. by exists x', ys'.
Qed.

(** A loop that collects what its body appends returns the same elements
    on two lists of the same elements. *)
Lemma for__same_elements {A B} (body : list B → A → result (list B)) l l' r :
  appending body → (∀ x, x ∈ l ↔ x ∈ l') →
  for_ l body [] = Ok r →
  ∃ r', for_ l' body [] = Ok r' ∧ ∀ y, y ∈ r ↔ y ∈ r'.
Proof.
  intros Hbody Hsame (yss & Hyss & ->)%(for__collect _ _ _ _ Hbody).
  assert (∃ yss', Forall2 (λ x ys, body [] x = Ok ys) l' yss') as [yss' Hyss'].
  { assert (∀ x, x ∈ l' → ∃ ys, body [] x = Ok ys) as Hall.
    { intros x [i Hi]%Hsame%list_elem_of_lookup.
      destruct (Forall2_lookup_l _ _ _ _ _ Hyss Hi) as (ys & _ & Hys).
      by exists ys. }
    clear Hsame Hyss. induction l' as [|x l' IH]; [by exists []|].
    destruct (Hall x) as [ys Hys]; [left|].
    destruct IH as [yss' Hyss']; [intros; apply Hall; by right|].
    exists (ys :: yss'). by constructor. }
  exists (concat yss'). split.
  - apply (for__collect _ _ _ _ Hbody). by exists yss'.
  - intros y. simpl.
    rewrite (collected_elem_of _ _ _ _ Hyss), (collected_elem_of _ _ _ _ Hyss').
    by setoid_rewrite Hsame.
Qed.

Lemma names_of_elem_of config entities names n :
  names_of config entities names →
  n ∈ names ↔ ∃ e, e ∈ entities ∧ entity_name config.(id_attrs) e = Ok n.
Proof.
  unfold names_of. induction 1 as [|e n' entities names Hn _ IH].
  - split; [by intros ?%elem_of_nil|]. by intros (e & ?%elem_of_nil & _).
  - rewrite elem_of_cons, IH. split.
    + intros [->|(e' & He' & Hn')].
      * exists e. split; [left|done].
      * exists e'. split; [by right|done].
    + intros (e' & [->|He']%elem_of_cons & Hn'); [left; congruence|].
      right. by exists e'.
Qed.

Lemma diagram_same_entities_Ok config entities entities' out :
  (∀ e, e ∈ entities ↔ e ∈ entities') →
  consistent_names config entities →
  diagram config entities = Ok out →
  diagram config entities' = Ok out.
Proof.
  intros Hsame Hcons (arrows & dots & names & Ha & Hd & Hn & ->)%diagram_Ok.
  apply diagram_Ok.
  unfold make_arrows in Ha.
  apply bind_Ok in Ha as (g & Hg & (p & Hrefs & [= <-])%bind_Ok).
  pose proof (make_guessed_arrows_names _ _ _ Hg) as Hnamed.
  destruct (make_guessed_arrows_spec config entities Hnamed Hcons)
    as (g0 & Hg0 & Hgm).
  rewrite Hg in Hg0. injection Hg0 as <-.
  assert (∀ e, e ∈ entities' → ∃ n, entity_name config.(id_attrs) e = Ok n)
    as Hnamed'.
  { intros e He. by apply Hnamed, Hsame. }
  destruct (make_guessed_arrows_spec config entities' Hnamed') as (g' & Hg' & Hgm').
  { intros e1 e2 n H1 H2. apply Hcons; by apply Hsame. }
  assert (∃ p', make_arrows_from_python_refs config entities' = Ok p'
                ∧ ∀ a, a ∈ p ↔ a ∈ p') as (p' & Hrefs' & Hpp).
  { revert Hrefs. unfold make_arrows_from_python_refs.
    apply for__same_elements; [|done].
    apply (appending_for (get_children config.(attrs_with_child_refs))
             (λ entity arrows yielded, _)).
    intros entity acc [[attr_name child]|e] r; simpl; [|naive_solver].
    destruct (entity_name _ entity); simpl; [|naive_solver].
    destruct (entity_name _ child); simpl; naive_solver. }
  assert (∀ a, guessed_between config entities a
               ↔ guessed_between config entities' a) as Hbetween.
  { intros a. unfold guessed_between. by setoid_rewrite Hsame. }
  assert (∀ a, a ∈ g ++ p ↔ a ∈ g' ++ p') as Harrows.
  { intros a. by rewrite !elem_of_app, Hgm, Hgm', Hpp, Hbetween. }
  destruct (combine_arrows_spec (make_rules config) (g ++ p))
    as (r & Hr & Hnd & Hrm).
  { intros a. by eapply combine_arrows_Ok. }
  rewrite Hd in Hr. injection Hr as <-.
  destruct (combine_arrows_spec (make_rules config) (g' ++ p'))
    as (r' & Hr' & Hnd' & Hrm').
  { intros a Ha. eapply combine_arrows_Ok; [done|]. by apply Harrows. }
  assert (dots ≡ₚ r') as Hdots.
  { apply NoDup_Permutation; [done..|]. intros d. rewrite Hrm, Hrm'.
    split; apply edge_of_ext; [done|]. intros a. symmetry. apply Harrows. }
  destruct (names_of_total config entities' Hnamed') as [names' Hn'].
  exists (g' ++ p'), r', names'. split_and!; try done.
  - unfold make_arrows. by rewrite Hg', Hrefs'.
  - f_equal.
    + apply (sorted_perm_eq Str.le).
      apply NoDup_Permutation; [apply NoDup_remove_dups..|].
      intros x. rewrite !elem_of_remove_dups, !list_elem_of_fmap.
      setoid_rewrite (names_of_elem_of _ _ _ _ Hn).
      setoid_rewrite (names_of_elem_of _ _ _ _ Hn').
      by setoid_rewrite Hsame.
    + f_equal. by apply (sorted_perm_eq DotArrow_le).
Qed.

(** X28. [diagram] takes its entities as a set: listing an entity more
    than once changes nothing, as long as the entities that have the same
    name have the same type and the same attributes. *)
Theorem diagram_same_entities config entities entities' out :
  (∀ e, e ∈ entities ↔ e ∈ entities') →
  consistent_names config entities →
  diagram config entities = Ok out ↔ diagram config entities' = Ok out.
Proof.
  intros Hsame Hcons. split.
  - by apply diagram_same_entities_Ok.
  - apply diagram_same_entities_Ok; [by intros e; rewrite Hsame|].
    intros e1 e2 n H1 H2. apply Hcons; by apply Hsame.
Qed.

Lemma diagram_same_entities_witness :
  diagram Fixtures.widgets_config
    [Fixtures.lozenge "1" "1"; Fixtures.widget "1" "1" "1";
     Fixtures.lozenge "1" "1"]
  = Ok ["lozenge_1"; "widget_1"; arrow_line Fixtures.widget_lozenge_edge].
Proof.
  apply (diagram_same_entities Fixtures.widgets_config
           [Fixtures.widget "1" "1" "1"; Fixtures.lozenge "1" "1"]).
  - intros e. rewrite !elem_of_cons, !elem_of_nil. tauto.
  - apply widgets_consistent.
  - vm_compute. reflexivity.
Defined.

(** ** What attribute extraction finds *)

Lemma getmembers_elem_of entity name value :
  (name, value) ∈ attributes_of entity → isroutine value = false →
  (name, value) ∈ getmembers entity.
Proof.
  destruct entity; simpl; try by intros ?%elem_of_nil.
  unfold sorted. rewrite merge_sort_Permutation. intros Hin Hroutine.
  apply list_elem_of_In, filter_In. split; [by apply list_elem_of_In|].
  simpl. by rewrite Hroutine.
Qed.

Lemma dict_set_key_elem_of {K V} `{EqDecision K} (d : dict K V) k v k' :
  k' ∈ (dict_set d k v).*1 ↔ k' ∈ d.*1 ∨ k' = k.
Proof.
  rewrite dict_set_keys. destruct (decide (k ∈ d.*1)).
  - naive_solver.
  - rewrite elem_of_app, list_elem_of_singleton. naive_solver.
Qed.

(** A loop that reaches [x] and whose body establishes [Q] at [x], and
    keeps it afterwards. *)
Lemma foldl_reaches {A S} (Q : S → Prop) (l : list A) (body : S → A → S) s x :
  x ∈ l → (∀ s, Q (body s x)) → (∀ s y, Q s → Q (body s y)) →
  Q (foldl body s l).
Proof.
  intros Hx Hat Hkeep. revert s.
  induction l as [|y l IH]; intros s; [by apply elem_of_nil in Hx|].
  apply elem_of_cons in Hx as [<-|Hx]; simpl; [|by apply IH].
  apply foldl_invariant; [apply Hat|]. intros. by apply Hkeep.
Qed.

Lemma keep_first_keeps synonyms found attrs k v :
  k ∉ synonyms → (k, v) ∈ attrs →
  (k, v) ∈ keep_first_synonym synonyms found attrs.
Proof.
  intros Hk. revert found.
  induction attrs as [|[k' v'] attrs IH]; intros found; simpl;
    [by intros ?%elem_of_nil|].
  intros [[= <- <-]|Hin]%elem_of_cons.
  - destruct (decide (k ∈ synonyms)); [done|]. left.
  - destruct (decide (k' ∈ synonyms)); [destruct found|];
      try right; by apply IH.
Qed.



(** ** What [get_children] yields *)

Lemma children_of_Ok entity attr_names k child :
  Ok (k, child) ∈ children_of entity attr_names →
  ∃ name value,
    name ∈ attr_names ∧ getattr entity name = Ok value
    ∧ match value with
      | PList items =>
          ∃ i, items !! i = Some child ∧ k = name +:+ "_" +:+ Str.of_nat i
      | _ => k = name ∧ child = value
      end.
Proof.
  induction attr_names as [|name attr_names IH]; simpl;
    [by intros ?%elem_of_nil|].
  assert (Ok (k, child) ∈ children_of entity attr_names →
          ∃ name0 value,
            name0 ∈ name :: attr_names ∧ getattr entity name0 = Ok value
            ∧ match value with
              | PList items =>
                  ∃ i, items !! i = Some child
                       ∧ k = name0 +:+ "_" +:+ Str.of_nat i
              | _ => k = name0 ∧ child = value
              end) as Hrest.
  { intros (name0 & value & Hin & Hget & H)%IH.
    exists name0, value. split_and!; [by right|done..]. }
  destruct (getattr entity name) as [value|e] eqn:Hget.
  - assert ((∀ items, value ≠ PList items) ∨ (∃ items, value = PList items))
      as [Hother|[items ->]].
    { destruct value; eauto; by left. }
    + assert (Ok (k, child) ∈ Ok (name, value) :: children_of entity attr_names →
              ∃ name0 value0,
                name0 ∈ name :: attr_names ∧ getattr entity name0 = Ok value0
                ∧ match value0 with
                  | PList items =>
                      ∃ i, items !! i = Some child
                           ∧ k = name0 +:+ "_" +:+ Str.of_nat i
                  | _ => k = name0 ∧ child = value0
                  end) as Hhere.
      { intros [[= -> ->]|Hin]%elem_of_cons; [|by apply Hrest].
        exists name, value. split_and!; [left|done|].
        destruct value; try done. by destruct (Hother items). }
      destruct value; try done. by destruct (Hother items).
    + intros [Hin|Hin]%elem_of_app; [|by apply Hrest].
      apply elem_of_lookup_imap in Hin as (i & v & [= -> ->] & Hi).
      exists name, (PList items). split_and!; [left|done|]. by exists i.
  - by intros [=]%list_elem_of_singleton.
Qed.

Lemma children_of_complete entity attr_names name value :
  Forall (λ name, ∃ value, getattr entity name = Ok value) attr_names →
  name ∈ attr_names → getattr entity name = Ok value →
  match value with
  | PList items =>
      ∀ i child, items !! i = Some child →
        Ok (name +:+ "_" +:+ Str.of_nat i, child) ∈ children_of entity attr_names
  | _ => Ok (name, value) ∈ children_of entity attr_names
  end.
Proof.
  induction 1 as [|name' attr_names [value' Hget'] _ IH];
    [by intros ?%elem_of_nil|].
  intros [->|Hin]%elem_of_cons Hget; simpl; rewrite Hget'.
  - rewrite Hget in Hget'. injection Hget' as <-.
    destruct value; try left.
    intros i child Hi. apply elem_of_app. left.
    apply elem_of_lookup_imap. by exists i, child.
  - specialize (IH Hin Hget).
    destruct value.
    all: try (destruct value'; [right..| |right|right|right]; try done;
              apply elem_of_app; by right).
    intros i child Hi. specialize (IH i child Hi).
    destruct value'; try (by right). apply elem_of_app. by right.
Qed.

Lemma children_of_last entity attr_names e :
  Raise e ∈ children_of entity attr_names →
  last (children_of entity attr_names) = Some (Raise e)
  ∧ ∃ name, name ∈ attr_names ∧ getattr entity name = Raise e.
Proof.
  induction attr_names as [|name attr_names IH]; simpl;
    [by intros ?%elem_of_nil|].
  destruct (getattr entity name) as [value|e'] eqn:Hget.
  - assert (Raise e ∈ children_of entity attr_names →
            ∀ prefix,
              last (prefix ++ children_of entity attr_names) = Some (Raise e)
              ∧ ∃ name0, name0 ∈ name :: attr_names
                         ∧ getattr entity name0 = Raise e) as Hrest.
    { intros Hin prefix. destruct (IH Hin) as [Hlast (name0 & Hname0 & Hget0)].
      split; [|exists name0; split; [by right|done]].
      destruct (children_of entity attr_names) as [|y ys] eqn:Hc;
        [by apply elem_of_nil in Hin|].
      by rewrite last_app, Hlast. }
    assert (Raise e ∈ Ok (name, value) :: children_of entity attr_names →
            last (Ok (name, value) :: children_of entity attr_names)
            = Some (Raise e)
            ∧ ∃ name0, name0 ∈ name :: attr_names
                       ∧ getattr entity name0 = Raise e) as Hhere.
    { intros [[=]|Hin]%elem_of_cons. apply (Hrest Hin [Ok (name, value)]). }
    destruct value; try done.
    intros [Hin|Hin]%elem_of_app; [|by apply Hrest].
    by apply elem_of_lookup_imap in Hin as (i & v & [=] & _).
  - intros [= ->]%list_elem_of_singleton. split; [done|].
    exists name. split; [left|done].
Qed.


